(** * Options analysis engine: pricing, Greeks, scenarios, volatility regime
      and contract selection, embedded over the real numbers.

    Python floats are modelled by [R]; [math.log], [math.exp], [math.sqrt] and
    [math.pi] by [ln], [exp], [sqrt] and [PI]; [math.erf] by the error function
    [erf] constructed below as [2/sqrt PI] times the integral of
    [exp (- t^2)] from [0] to [x].  Python exceptions are modelled by an
    explicit result type. *)

From Stdlib Require Import Reals Lra Lia List String Ascii ZArith Bool Psatz.
Import ListNotations.
Open Scope R_scope.

(* ================================================================= *)
(** * Part I.  The error function *)
(* ================================================================= *)

Module ErrorFunction.

(** The Gaussian integrand [exp (- t^2)]. *)
Definition gauss (t : R) : R := exp (- (t * t)).

Lemma gauss_pos (t : R) : 0 < gauss t.
Proof. apply exp_pos. Qed.

Lemma gauss_le_1 (t : R) : gauss t <= 1.
Proof.
  unfold gauss. rewrite <- exp_0.
  destruct (Req_dec (t * t) 0) as [E | N].
  - rewrite E, Ropp_0. apply Rle_refl.
  - left. apply exp_increasing. nra.
Qed.

Lemma gauss_even (t : R) : gauss (- t) = gauss t.
Proof. unfold gauss. f_equal. ring. Qed.

Lemma derivable_pt_lim_gauss (t : R) :
  derivable_pt_lim gauss t (- (2 * t) * gauss t).
Proof.
  unfold gauss.
  replace (- (2 * t) * exp (- (t * t)))
    with (exp (- (t * t)) * (- (1 * t + t * 1))) by ring.
  apply (derivable_pt_lim_comp (fun s => - (s * s)) exp).
  - apply derivable_pt_lim_opp.
    apply (derivable_pt_lim_mult id id); apply derivable_pt_lim_id.
  - apply derivable_pt_lim_exp.
Qed.

Lemma gauss_continuity : continuity gauss.
Proof.
  intro t. apply derivable_continuous_pt.
  exists (- (2 * t) * gauss t). apply derivable_pt_lim_gauss.
Qed.

(** Every continuous function is Riemann integrable on every segment, in
    either orientation. *)
Lemma continuity_integrable (f : R -> R) (a b : R) :
  continuity f -> Riemann_integrable f a b.
Proof.
  intro C. destruct (Rle_dec a b) as [L | G].
  - apply continuity_implies_RiemannInt; [exact L | intros x _; apply C].
  - apply RiemannInt_P1, continuity_implies_RiemannInt;
      [lra | intros x _; apply C].
Qed.

(** [integral f C a x] is the integral of the continuous [f] from [a] to [x]. *)
Definition integral (f : R -> R) (C : continuity f) (a x : R) : R :=
  RiemannInt (continuity_integrable f a x C).

Lemma integral_chasles f C a b c :
  integral f C a b + integral f C b c = integral f C a c.
Proof. unfold integral. apply RiemannInt_P26. Qed.

Lemma integral_refl f C a : integral f C a a = 0.
Proof.
  pose proof (integral_chasles f C a a a). lra.
Qed.

(** Fundamental theorem of calculus for [integral]. *)
Lemma derivable_pt_lim_integral f C a x :
  derivable_pt_lim (fun y => integral f C a y) x (f x).
Proof.
  set (lo := Rmin a x - 1). set (hi := Rmax a x + 1).
  assert (Hlo : lo < a /\ lo < x).
  { unfold lo. pose proof (Rmin_l a x). pose proof (Rmin_r a x). lra. }
  assert (Hhi : a < hi /\ x < hi).
  { unfold hi. pose proof (Rmax_l a x). pose proof (Rmax_r a x). lra. }
  assert (h : lo <= hi) by lra.
  assert (C0 : forall y, lo <= y <= hi -> continuity_pt f y)
    by (intros y _; apply C).
  apply (derivable_pt_lim_locally_ext
           (fun y => primitive h (FTC_P1 h C0) y - integral f C lo a)
           _ x lo hi).
  - lra.
  - intros z Hz. unfold primitive.
    destruct (Rle_dec lo z) as [L1 | N1]; [ | lra].
    destruct (Rle_dec z hi) as [L2 | N2]; [ | lra].
    rewrite (RiemannInt_P5 (FTC_P1 h C0 L1 L2)
               (continuity_integrable f lo z C)).
    fold (integral f C lo z).
    rewrite <- (integral_chasles f C lo a z). ring.
  - replace (f x) with (f x - 0) by ring.
    apply derivable_pt_lim_minus.
    + apply RiemannInt_P27. lra.
    + apply derivable_pt_lim_const.
Qed.

Lemma Rabs_le_between (a b : R) : Rabs a <= b -> - b <= a <= b.
Proof. unfold Rabs. destruct (Rcase_abs a); lra. Qed.

(** A function whose derivative vanishes everywhere is constant. *)
Lemma null_derivative_const (D : R -> R) :
  (forall x, derivable_pt_lim D x 0) -> forall a b, D a = D b.
Proof.
  intros HD.
  assert (aux : forall a b, a < b -> D a = D b).
  { intros a b Hab.
    destruct (MVT_cor2 D (fun _ => 0) a b Hab) as [c [Hc _]].
    - intros c _. apply HD.
    - lra. }
  intros a b. destruct (Rtotal_order a b) as [L | [E | G]].
  - apply aux, L.
  - now rewrite E.
  - symmetry. apply aux, G.
Qed.

(** Second form of the fundamental theorem: the integral of a derivative. *)
Lemma integral_FTC f C (H : R -> R) a b :
  (forall t, derivable_pt_lim H t (f t)) ->
  integral f C a b = H b - H a.
Proof.
  intro HH.
  pose (D := fun y => integral f C a y - H y).
  assert (E : D a = D b).
  { apply null_derivative_const. intro x. unfold D.
    replace 0 with (f x - f x) by ring.
    apply derivable_pt_lim_minus; [apply derivable_pt_lim_integral | apply HH]. }
  unfold D in E. rewrite integral_refl in E. lra.
Qed.

Lemma integral_linear f g Cf Cg (l : R)
      (Cfg : continuity (fun t => f t + l * g t)) a b :
  integral (fun t => f t + l * g t) Cfg a b
  = integral f Cf a b + l * integral g Cg a b.
Proof. unfold integral. apply RiemannInt_P13. Qed.

Lemma integral_bound f C a b (l u : R) :
  a <= b -> (forall t, a < t < b -> l <= f t <= u) ->
  l * (b - a) <= integral f C a b <= u * (b - a).
Proof. intros. unfold integral. now apply RiemannInt_const_bound. Qed.

Lemma integral_ext f g Cf Cg a b :
  a <= b -> (forall t, a < t < b -> f t = g t) ->
  integral f Cf a b = integral g Cg a b.
Proof. intros. unfold integral. now apply RiemannInt_P18. Qed.

(** Differentiation under the integral sign on the segment [[0,1]], for an
    integrand whose partial derivative is locally Lipschitz in the
    parameter, uniformly on the segment. *)
Section ParametricIntegral.

Variables f fx : R -> R -> R.
Hypothesis Cf : forall x, continuity (f x).
Hypothesis Cfx : forall x, continuity (fx x).
Hypothesis Df : forall x t, derivable_pt_lim (fun y => f y t) x (fx x t).
Hypothesis Lip : forall x0, exists M, 0 <= M /\
  forall x t, Rabs (x - x0) <= 1 -> 0 <= t <= 1 ->
              Rabs (fx x t - fx x0 t) <= M * Rabs (x - x0).

Let I (x : R) : R := integral (f x) (Cf x) 0 1.

Lemma increment_bound x0 M h t :
  (forall x t, Rabs (x - x0) <= 1 -> 0 <= t <= 1 ->
               Rabs (fx x t - fx x0 t) <= M * Rabs (x - x0)) ->
  0 <= M -> Rabs h <= 1 -> 0 <= t <= 1 ->
  Rabs (f (x0 + h) t - f x0 t - h * fx x0 t) <= M * (h * h).
Proof.
  intros HL HM Hh Ht.
  destruct (Rtotal_order h 0) as [Neg | [Z | Pos]].
  - destruct (MVT_cor2 (fun y => f y t) (fun y => fx y t) (x0 + h) x0)
      as [c [Ec Hc]]; [lra | intros; apply Df | ].
    replace (f (x0 + h) t - f x0 t - h * fx x0 t)
      with (h * (fx c t - fx x0 t)) by (simpl in Ec; lra).
    rewrite Rabs_mult.
    assert (B : Rabs (fx c t - fx x0 t) <= M * Rabs (c - x0)).
    { apply HL; [ | exact Ht]. rewrite Rabs_left1 by lra.
      rewrite Rabs_left in Hh by lra. lra. }
    rewrite (Rabs_left h) by lra.
    rewrite (Rabs_left1 (c - x0)) in B by lra.
    assert (B' : Rabs (fx c t - fx x0 t) <= M * - h).
    { apply Rle_trans with (1 := B). apply Rmult_le_compat_l; lra. }
    replace (M * (h * h)) with (- h * (M * - h)) by ring.
    apply Rmult_le_compat_l; lra.
  - subst h. rewrite Rplus_0_r.
    replace (f x0 t - f x0 t - 0 * fx x0 t) with 0 by ring.
    rewrite Rabs_R0. lra.
  - destruct (MVT_cor2 (fun y => f y t) (fun y => fx y t) x0 (x0 + h))
      as [c [Ec Hc]]; [lra | intros; apply Df | ].
    replace (f (x0 + h) t - f x0 t - h * fx x0 t)
      with (h * (fx c t - fx x0 t)) by (simpl in Ec; lra).
    rewrite Rabs_mult.
    assert (B : Rabs (fx c t - fx x0 t) <= M * Rabs (c - x0)).
    { apply HL; [ | exact Ht]. rewrite Rabs_right by lra.
      rewrite Rabs_right in Hh by lra. lra. }
    rewrite (Rabs_right h) by lra.
    rewrite (Rabs_right (c - x0)) in B by lra.
    assert (B' : Rabs (fx c t - fx x0 t) <= M * h).
    { apply Rle_trans with (1 := B). apply Rmult_le_compat_l; lra. }
    replace (M * (h * h)) with (h * (M * h)) by ring.
    apply Rmult_le_compat_l; lra.
Qed.

Lemma derivable_pt_lim_param x0 :
  derivable_pt_lim I x0 (integral (fx x0) (Cfx x0) 0 1).
Proof.
  destruct (Lip x0) as [M [HM HL]].
  intros eps Heps.
  assert (Hd : 0 < Rmin 1 (eps / (M + 1))).
  { apply Rmin_pos; [lra | ]. apply Rdiv_lt_0_compat; lra. }
  exists (mkposreal _ Hd). simpl. intros h Hh0 Hh.
  assert (Hh1 : Rabs h <= 1).
  { pose proof (Rmin_l 1 (eps / (M + 1))). lra. }
  assert (Hh2 : Rabs h * (M + 1) < eps).
  { pose proof (Rmin_r 1 (eps / (M + 1))).
    assert (Rabs h < eps / (M + 1)) by lra.
    apply (Rmult_lt_compat_r (M + 1)) in H0; [ | lra].
    unfold Rdiv in H0. rewrite Rmult_assoc, Rinv_l, Rmult_1_r in H0; lra. }
  (* the remainder integrand *)
  assert (C1 : continuity (fun t => f (x0 + h) t + (-1) * f x0 t)).
  { apply (continuity_plus (f (x0 + h)) (mult_real_fct (-1) (f x0)));
      [apply Cf | apply continuity_scal, Cf]. }
  assert (C2 : continuity
            (fun t => (f (x0 + h) t + (-1) * f x0 t) + (- h) * fx x0 t)).
  { apply (continuity_plus (fun t => f (x0 + h) t + (-1) * f x0 t)
                           (mult_real_fct (- h) (fx x0)));
      [apply C1 | apply continuity_scal, Cfx]. }
  pose proof (integral_linear _ _ C1 (Cfx x0) (- h) C2 0 1) as E2.
  pose proof (integral_linear _ _ (Cf (x0 + h)) (Cf x0) (-1) C1 0 1) as E1.
  rewrite E1 in E2. clear E1.
  assert (B : Rabs (integral _ C2 0 1) <= M * (h * h)).
  { destruct (integral_bound _ C2 0 1 (- (M * (h * h))) (M * (h * h)))
      as [B1 B2]; [lra | | apply Rabs_le; lra].
    intros t Ht.
    assert (Q := increment_bound x0 M h t HL HM Hh1 (conj (Rlt_le _ _ (proj1 Ht))
                                                        (Rlt_le _ _ (proj2 Ht)))).
    apply Rabs_le_between in Q. lra. }
  unfold I.
  replace ((integral (f (x0 + h)) (Cf (x0 + h)) 0 1
            - integral (f x0) (Cf x0) 0 1) / h
           - integral (fx x0) (Cfx x0) 0 1)
    with (integral _ C2 0 1 / h) by (rewrite E2; field; exact Hh0).
  unfold Rdiv. rewrite Rabs_mult, Rabs_inv.
  assert (Hah : 0 < Rabs h) by (apply Rabs_pos_lt; exact Hh0).
  apply (Rmult_lt_reg_r (Rabs h)); [exact Hah | ].
  rewrite Rmult_assoc, Rinv_l, Rmult_1_r by lra.
  assert (h * h = Rabs h * Rabs h).
  { rewrite <- Rabs_mult. symmetry. apply Rabs_right. nra. }
  nra.
Qed.

End ParametricIntegral.

(** The error function of [math.erf]. *)
Definition gauss_int (x : R) : R := integral gauss gauss_continuity 0 x.

Definition erf (x : R) : R := 2 / sqrt PI * gauss_int x.

Lemma derivable_pt_lim_gauss_int (x : R) :
  derivable_pt_lim gauss_int x (gauss x).
Proof. apply (derivable_pt_lim_integral gauss gauss_continuity 0 x). Qed.

Lemma gauss_int_0 : gauss_int 0 = 0.
Proof. apply integral_refl. Qed.

(** ** The Gaussian integral

    With [J x] the integral over [[0,1]] of
    [exp (- x^2 (1 + t^2)) / (1 + t^2)], the function
    [gauss_int x ^ 2 + J x] has a vanishing derivative and takes the value
    [PI / 4] at [0]. *)

Definition j (x t : R) : R := exp (- (x * x) * (1 + t * t)) / (1 + t * t).
Definition jx (x t : R) : R := - (2 * x) * exp (- (x * x) * (1 + t * t)).

Lemma one_plus_sqr_pos (t : R) : 0 < 1 + t * t.
Proof. nra. Qed.

Lemma derivable_pt_lim_j_param (x t : R) :
  derivable_pt_lim (fun y => j y t) x (jx x t).
Proof.
  unfold j, jx. pose proof (one_plus_sqr_pos t) as Hp.
  replace (- (2 * x) * exp (- (x * x) * (1 + t * t)))
    with ((exp (- (x * x) * (1 + t * t))
           * (- (1 * x + x * 1) * (1 + t * t))) * / (1 + t * t))
    by (field; lra).
  apply (derivable_pt_lim_scal_right
           (fun y => exp (- (y * y) * (1 + t * t)))).
  apply (derivable_pt_lim_comp (fun y => - (y * y) * (1 + t * t)) exp).
  - apply (derivable_pt_lim_scal_right (fun y => - (y * y))).
    apply derivable_pt_lim_opp.
    apply (derivable_pt_lim_mult id id); apply derivable_pt_lim_id.
  - apply derivable_pt_lim_exp.
Qed.

Lemma j_continuity (x : R) : continuity (j x).
Proof.
  intro t. unfold j.
  apply (continuity_pt_div (fun t => exp (- (x * x) * (1 + t * t)))
                           (fun t => 1 + t * t)).
  - apply (continuity_pt_comp (fun t => - (x * x) * (1 + t * t)) exp).
    + reg.
    + apply derivable_continuous_pt, derivable_pt_exp.
  - reg.
  - pose proof (one_plus_sqr_pos t). lra.
Qed.

Lemma jx_continuity (x : R) : continuity (jx x).
Proof.
  intro t. unfold jx.
  apply (continuity_pt_mult (fun _ => - (2 * x))
                            (fun t => exp (- (x * x) * (1 + t * t)))).
  - reg.
  - apply (continuity_pt_comp (fun t => - (x * x) * (1 + t * t)) exp).
    + reg.
    + apply derivable_continuous_pt, derivable_pt_exp.
Qed.

Lemma exp_neg_lipschitz (a b : R) :
  0 <= a -> 0 <= b -> Rabs (exp (- a) - exp (- b)) <= Rabs (a - b).
Proof.
  assert (aux : forall a b, 0 <= a -> a <= b ->
                            0 <= exp (- a) - exp (- b) <= b - a).
  { intros u v Hu Huv.
    assert (E : exp (- v) = exp (- u) * exp (- (v - u))).
    { rewrite <- exp_plus. f_equal. ring. }
    pose proof (exp_ineq1_le (- (v - u))) as I1.
    assert (I2 : exp (- (v - u)) <= 1).
    { rewrite <- exp_0. destruct (Req_dec (v - u) 0) as [Z | N].
      - rewrite Z, Ropp_0. lra.
      - left. apply exp_increasing. lra. }
    assert (I3 : exp (- u) <= 1).
    { rewrite <- exp_0. destruct (Req_dec u 0) as [Z | N].
      - rewrite Z, Ropp_0. lra.
      - left. apply exp_increasing. lra. }
    pose proof (exp_pos (- u)). rewrite E. nra. }
  intros Ha Hb. destruct (Rle_dec a b) as [L | G].
  - destruct (aux a b Ha L). rewrite Rabs_right by lra.
    rewrite Rabs_left1 by lra. lra.
  - destruct (aux b a Hb ltac:(lra)). rewrite Rabs_left1 by lra.
    rewrite Rabs_right by lra. lra.
Qed.

Lemma jx_lipschitz (x0 : R) :
  exists M, 0 <= M /\
    forall x t, Rabs (x - x0) <= 1 -> 0 <= t <= 1 ->
                Rabs (jx x t - jx x0 t) <= M * Rabs (x - x0).
Proof.
  exists (2 + 4 * Rabs x0 * (2 * Rabs x0 + 1)).
  pose proof (Rabs_pos x0) as Ha. split; [nra | ].
  intros x t Hx Ht. unfold jx.
  set (u := 1 + t * t). assert (Hu : 1 <= u <= 2) by (unfold u; nra).
  set (E := exp (- (x * x) * u)). set (E0 := exp (- (x0 * x0) * u)).
  replace (- (2 * x) * E - - (2 * x0) * E0)
    with ((- 2 * (x - x0)) * E + (- 2 * x0) * (E - E0)) by ring.
  eapply Rle_trans; [apply Rabs_triang | ].
  rewrite !Rabs_mult.
  replace (Rabs (- 2)) with 2 by (rewrite Rabs_left; lra).
  assert (HE : Rabs E <= 1).
  { unfold E. rewrite Rabs_right by (left; apply exp_pos).
    replace (- (x * x) * u) with (- ((x * x) * u)) by ring.
    rewrite <- exp_0. destruct (Req_dec ((x * x) * u) 0) as [Z | N].
    - rewrite Z, Ropp_0. lra.
    - left. apply exp_increasing. nra. }
  assert (HD : Rabs (E - E0) <= 2 * (2 * Rabs x0 + 1) * Rabs (x - x0)).
  { unfold E, E0.
    replace (- (x * x) * u) with (- ((x * x) * u)) by ring.
    replace (- (x0 * x0) * u) with (- ((x0 * x0) * u)) by ring.
    eapply Rle_trans; [apply exp_neg_lipschitz; nra | ].
    replace (x * x * u - x0 * x0 * u) with (u * ((x + x0) * (x - x0))) by ring.
    rewrite !Rabs_mult. rewrite (Rabs_right u) by lra.
    assert (Hs : Rabs (x + x0) <= 2 * Rabs x0 + 1).
    { replace (x + x0) with ((x - x0) + 2 * x0) by ring.
      eapply Rle_trans; [apply Rabs_triang | ].
      rewrite Rabs_mult, (Rabs_right 2) by lra. lra. }
    pose proof (Rabs_pos (x + x0)). pose proof (Rabs_pos (x - x0)).
    apply Rle_trans with (2 * (Rabs (x + x0) * Rabs (x - x0))).
    - apply Rmult_le_compat_r; [nra | lra].
    - rewrite Rmult_assoc. apply Rmult_le_compat_l; [lra | ].
      apply Rmult_le_compat_r; lra. }
  pose proof (Rabs_pos (x - x0)). pose proof (Rabs_pos E).
  pose proof (Rabs_pos (E - E0)).
  assert (T1 : 2 * Rabs (x - x0) * Rabs E <= 2 * Rabs (x - x0)) by nra.
  assert (T2 : 2 * Rabs x0 * Rabs (E - E0)
               <= 2 * Rabs x0 * (2 * (2 * Rabs x0 + 1) * Rabs (x - x0))).
  { apply Rmult_le_compat_l; [lra | exact HD]. }
  lra.
Qed.

Definition J (x : R) : R := integral (j x) (j_continuity x) 0 1.

Lemma derivable_pt_lim_J (x : R) :
  derivable_pt_lim J x (- 2 * gauss x * gauss_int x).
Proof.
  replace (- 2 * gauss x * gauss_int x)
    with (integral (jx x) (jx_continuity x) 0 1).
  - apply (derivable_pt_lim_param j jx j_continuity jx_continuity).
    + intros; apply derivable_pt_lim_j_param.
    + apply jx_lipschitz.
  - rewrite (integral_FTC (jx x) (jx_continuity x)
               (fun t => - 2 * gauss x * gauss_int (x * t))).
    + rewrite Rmult_1_r, Rmult_0_r, gauss_int_0. ring.
    + intro t.
      replace (jx x t) with (- 2 * gauss x * (gauss (x * t) * x)).
      * apply (derivable_pt_lim_scal (fun t => gauss_int (x * t))
                 (- 2 * gauss x) t (gauss (x * t) * x)).
        apply (derivable_pt_lim_comp (fun t => x * t) gauss_int).
        -- assert (Hd : derivable_pt_lim (fun t => x * t) t (x * 1))
             by apply (derivable_pt_lim_scal id x t 1), derivable_pt_lim_id.
           rewrite Rmult_1_r in Hd. exact Hd.
        -- apply derivable_pt_lim_gauss_int.
      * unfold jx, gauss.
        replace (- (x * x) * (1 + t * t))
          with (- (x * x) + - (x * t * (x * t))) by ring.
        rewrite exp_plus. ring.
Qed.

Lemma J_0 : J 0 = PI / 4.
Proof.
  unfold J.
  assert (C : continuity (fun t => / (1 + t ^ 2))).
  { intro t. apply continuity_pt_inv; [reg | ].
    pose proof (one_plus_sqr_pos t). simpl. lra. }
  rewrite (integral_ext _ (fun t => / (1 + t ^ 2)) _ C); [ | lra | ].
  - rewrite (integral_FTC _ C atan); [ | apply derivable_pt_lim_atan].
    rewrite atan_1, atan_0. lra.
  - intros t _. unfold j. rewrite Rmult_0_l, Ropp_0, Rmult_0_l, exp_0.
    unfold Rdiv. rewrite Rmult_1_l. f_equal. ring.
Qed.

Lemma J_bounds (x : R) : 0 <= J x <= gauss x.
Proof.
  destruct (integral_bound (j x) (j_continuity x) 0 1 0 (gauss x))
    as [B1 B2]; [lra | | unfold J; lra].
  intros t _. unfold j, gauss. pose proof (one_plus_sqr_pos t) as Hp.
  pose proof (exp_pos (- (x * x) * (1 + t * t))) as He.
  assert (Hm : exp (- (x * x) * (1 + t * t)) <= exp (- (x * x))).
  { destruct (Req_dec (x * x * (t * t)) 0) as [Z | N].
    - right. f_equal. nra.
    - left. apply exp_increasing. nra. }
  split.
  - apply Rlt_le, Rdiv_lt_0_compat; lra.
  - apply Rle_trans with (exp (- (x * x) * (1 + t * t)) / 1).
    + unfold Rdiv. apply Rmult_le_compat_l; [lra | ].
      apply Rinv_le_contravar; nra.
    + lra.
Qed.

(** The Gaussian identity. *)
Theorem gauss_int_sqr (x : R) : gauss_int x * gauss_int x + J x = PI / 4.
Proof.
  rewrite <- J_0.
  transitivity (gauss_int 0 * gauss_int 0 + J 0);
    [ | rewrite gauss_int_0; ring].
  apply (null_derivative_const (fun x => gauss_int x * gauss_int x + J x)).
  intro y.
  replace 0 with ((gauss y * gauss_int y + gauss_int y * gauss y)
                  + - 2 * gauss y * gauss_int y) by ring.
  apply derivable_pt_lim_plus; [ | apply derivable_pt_lim_J].
  apply derivable_pt_lim_mult; apply derivable_pt_lim_gauss_int.
Qed.

(** ** Properties of [erf] *)

Lemma sqrt_PI_pos : 0 < sqrt PI.
Proof. apply sqrt_lt_R0, PI_RGT_0. Qed.

Lemma sqrt_PI_sqr : sqrt PI * sqrt PI = PI.
Proof. apply sqrt_sqrt. left. apply PI_RGT_0. Qed.

Lemma gauss_int_bounds (x : R) : - (sqrt PI / 2) <= gauss_int x <= sqrt PI / 2.
Proof.
  pose proof (gauss_int_sqr x) as E. pose proof (J_bounds x) as [B _].
  pose proof sqrt_PI_pos as Hs. pose proof sqrt_PI_sqr as Hq.
  split; nra.
Qed.

Lemma erf_0 : erf 0 = 0.
Proof. unfold erf. rewrite gauss_int_0. ring. Qed.

Lemma derivable_pt_lim_erf (x : R) :
  derivable_pt_lim erf x (2 / sqrt PI * gauss x).
Proof.
  apply (derivable_pt_lim_scal gauss_int (2 / sqrt PI) x (gauss x)).
  apply derivable_pt_lim_gauss_int.
Qed.

(** [erf] takes its values in [[-1, 1]]. *)
Theorem erf_bounds (x : R) : -1 <= erf x <= 1.
Proof.
  unfold erf. pose proof (gauss_int_bounds x) as [B1 B2].
  pose proof sqrt_PI_pos as Hs.
  assert (Hk : 0 < 2 / sqrt PI) by (apply Rdiv_lt_0_compat; lra).
  assert (E : 2 / sqrt PI * (sqrt PI / 2) = 1) by (field; lra).
  split.
  - apply Rle_trans with (2 / sqrt PI * - (sqrt PI / 2)); [lra | ].
    apply Rmult_le_compat_l; lra.
  - apply Rle_trans with (2 / sqrt PI * (sqrt PI / 2)); [ | lra].
    apply Rmult_le_compat_l; lra.
Qed.

(** [erf] is odd. *)
Theorem erf_odd (x : R) : erf (- x) = - erf x.
Proof.
  assert (E : erf x + erf (- x) = erf 0 + erf (- 0)).
  { apply (null_derivative_const (fun y => erf y + erf (- y))).
    intro y.
    replace 0 with (2 / sqrt PI * gauss y
                    + 2 / sqrt PI * gauss (- y) * (- 1))
      by (rewrite gauss_even; ring).
    apply derivable_pt_lim_plus; [apply derivable_pt_lim_erf | ].
    apply (derivable_pt_lim_comp (fun y => - y) erf).
    - apply derivable_pt_lim_opp, derivable_pt_lim_id.
    - apply derivable_pt_lim_erf. }
  rewrite Ropp_0, erf_0 in E. lra.
Qed.

(** [erf] is strictly increasing. *)
Theorem erf_increasing (x y : R) : x < y -> erf x < erf y.
Proof.
  intro Hxy.
  destruct (MVT_cor2 erf (fun c => 2 / sqrt PI * gauss c) x y Hxy)
    as [c [Ec _]]; [intros; apply derivable_pt_lim_erf | ].
  pose proof (gauss_pos c). pose proof sqrt_PI_pos.
  assert (0 < 2 / sqrt PI) by (apply Rdiv_lt_0_compat; lra).
  assert (0 < 2 / sqrt PI * gauss c * (y - x)).
  { apply Rmult_lt_0_compat; [apply Rmult_lt_0_compat | ]; lra. }
  lra.
Qed.

Lemma erf_monotone (x y : R) : x <= y -> erf x <= erf y.
Proof.
  intros [L | E]; [left; now apply erf_increasing | subst; lra].
Qed.

End ErrorFunction.

(* ================================================================= *)
(** * Part II.  The program *)
(* ================================================================= *)

(** ** Python results and library primitives *)

Inductive exn : Set :=
| ZeroDivisionError
| ValueError
| IndexError.

Inductive result (A : Type) : Type :=
| Ok (a : A)
| Raise (e : exn).
Arguments Ok {A} a.
Arguments Raise {A} e.

Definition bind {A B : Type} (m : result A) (k : A -> result B) : result B :=
  match m with
  | Ok a => k a
  | Raise e => Raise e
  end.

Notation "x <- m ;; k" := (bind m (fun x => k))
  (at level 61, m at next level, right associativity).

Module Py.

(** [a / b] on floats. *)
Definition truediv (a b : R) : result R :=
  if Req_dec_T b 0 then Raise ZeroDivisionError else Ok (a / b).

(** [math.log]. *)
Definition log (x : R) : result R :=
  if Rlt_dec 0 x then Ok (ln x) else Raise ValueError.

(** [math.sqrt]. *)
Definition sqrt (x : R) : result R :=
  if Rle_dec 0 x then Ok (R_sqrt.sqrt x) else Raise ValueError.

(** [max(a, b)]: the first argument unless the second is greater. *)
Definition max (a b : R) : R := if Rlt_dec a b then b else a.

(** [str.lower] on ASCII strings. *)
Definition lower_ascii (c : ascii) : ascii :=
  let n := nat_of_ascii c in
  if (65 <=? n)%nat && (n <=? 90)%nat then ascii_of_nat (n + 32) else c.

Fixpoint lower (s : string) : string :=
  match s with
  | EmptyString => EmptyString
  | String c s' => String (lower_ascii c) (lower s')
  end.

(** [int(x)] on a float: truncation towards zero. *)
Definition int (x : R) : Z := if Rlt_dec x 0 then Zceil x else Zfloor x.

(** [range(n)]. *)
Definition range (n : nat) : list Z := map Z.of_nat (seq 0 n).

End Py.

(** ** black_scholes.py *)

Module BlackScholes.

Import ErrorFunction.

(** [norm_cdf]. *)
Definition norm_cdf (x : R) : R := 0.5 * (1.0 + erf (x / sqrt 2.0)).

(** [norm_pdf]. *)
Definition norm_pdf (x : R) : R := exp (- 0.5 * x * x) / sqrt (2.0 * PI).

Record OptionPricer : Type := {
  S : R;
  K : R;
  T : R;
  r : R;
  sigma_hv : R;
  sigma_iv : R
}.

(** [OptionPricer.__init__]. *)
Definition init (S K T r sigma_hv sigma_iv : R) : OptionPricer :=
  {| S := S; K := K; T := Py.max T 0.001; r := r;
     sigma_hv := sigma_hv; sigma_iv := sigma_iv |}.

(** [_d1]. *)
Definition _d1 (self : OptionPricer) (sigma : R) : result R :=
  q <- Py.truediv (S self) (K self) ;;
  l <- Py.log q ;;
  let numerator := l + (r self + 0.5 * sigma ^ 2) * T self in
  s <- Py.sqrt (T self) ;;
  Py.truediv numerator (sigma * s).

(** [_d2]. *)
Definition _d2 (self : OptionPricer) (sigma : R) : result R :=
  d1 <- _d1 self sigma ;;
  s <- Py.sqrt (T self) ;;
  Ok (d1 - sigma * s).

(** [_bs_call_price]. *)
Definition _bs_call_price (self : OptionPricer) (sigma : R) : result R :=
  d1 <- _d1 self sigma ;;
  d2 <- _d2 self sigma ;;
  Ok (S self * norm_cdf d1
      - K self * exp (- r self * T self) * norm_cdf d2).

(** [_bs_put_price]. *)
Definition _bs_put_price (self : OptionPricer) (sigma : R) : result R :=
  d1 <- _d1 self sigma ;;
  d2 <- _d2 self sigma ;;
  Ok (K self * exp (- r self * T self) * norm_cdf (- d2)
      - S self * norm_cdf (- d1)).

Inductive valuation : Set := EXPENSIVE | CHEAP | FAIR.

(** The expression
    [((price_iv - price_hv) / price_hv) * 100 if price_hv > 0 else 0]. *)
Definition mispricing_pct_of (price_hv price_iv : R) : R :=
  if Rgt_dec price_hv 0
  then ((price_iv - price_hv) / price_hv) * 100
  else 0.

(** [_get_valuation]. *)
Definition _get_valuation (price_hv price_iv : R) : valuation :=
  let diff_pct := mispricing_pct_of price_hv price_iv in
  if Rgt_dec diff_pct 20 then EXPENSIVE
  else if Rlt_dec diff_pct (-20) then CHEAP
  else FAIR.

Record pricing : Type := {
  price_hv : R;
  price_iv : R;
  mispricing : R;
  mispricing_pct : R;
  valuation_label : valuation
}.

(** [calculate]. *)
Definition calculate (self : OptionPricer) : result pricing :=
  price_hv <- _bs_call_price self (sigma_hv self) ;;
  price_iv <- _bs_call_price self (sigma_iv self) ;;
  Ok {| price_hv := price_hv;
        price_iv := price_iv;
        mispricing := price_iv - price_hv;
        mispricing_pct := mispricing_pct_of price_hv price_iv;
        valuation_label := _get_valuation price_hv price_iv |}.

(** [calculate_put]. *)
Definition calculate_put (self : OptionPricer) : result pricing :=
  price_hv <- _bs_put_price self (sigma_hv self) ;;
  price_iv <- _bs_put_price self (sigma_iv self) ;;
  Ok {| price_hv := price_hv;
        price_iv := price_iv;
        mispricing := price_iv - price_hv;
        mispricing_pct := mispricing_pct_of price_hv price_iv;
        valuation_label := _get_valuation price_hv price_iv |}.

Definition get_d1 (self : OptionPricer) : result R :=
  _d1 self (sigma_iv self).

Definition get_d2 (self : OptionPricer) : result R :=
  _d2 self (sigma_iv self).

Definition get_price_iv (self : OptionPricer) : result R :=
  _bs_call_price self (sigma_iv self).

Definition get_put_price_iv (self : OptionPricer) : result R :=
  _bs_put_price self (sigma_iv self).

End BlackScholes.

(** ** greeks.py *)

Module Greeks.

Import BlackScholes.

Record GreeksCalculator : Type := {
  gS : R;
  gK : R;
  gT : R;
  gr : R;
  gsigma : R;
  d1 : R;
  d2 : R;
  option_type : string
}.

(** [GreeksCalculator.__init__]. *)
Definition init (pricer : OptionPricer) (option_type : string)
  : result GreeksCalculator :=
  d1 <- get_d1 pricer ;;
  d2 <- get_d2 pricer ;;
  Ok {| gS := S pricer; gK := K pricer; gT := T pricer; gr := r pricer;
        gsigma := sigma_iv pricer; d1 := d1; d2 := d2;
        option_type := Py.lower option_type |}.

Definition is_put (self : GreeksCalculator) : bool :=
  String.eqb (option_type self) "put".

(** [_delta]. *)
Definition _delta (self : GreeksCalculator) : R :=
  if is_put self then norm_cdf (d1 self) - 1 else norm_cdf (d1 self).

(** [_gamma]. *)
Definition _gamma (self : GreeksCalculator) : result R :=
  s <- Py.sqrt (gT self) ;;
  Py.truediv (norm_pdf (d1 self)) (gS self * gsigma self * s).

(** [_theta]. *)
Definition _theta (self : GreeksCalculator) : result R :=
  s <- Py.sqrt (gT self) ;;
  term1 <- Py.truediv (- (gS self * norm_pdf (d1 self) * gsigma self))
                      (2 * s) ;;
  let term2 :=
    if is_put self
    then - gr self * gK self * exp (- gr self * gT self)
         * norm_cdf (- d2 self)
    else gr self * gK self * exp (- gr self * gT self)
         * norm_cdf (d2 self) in
  let annual_theta := term1 - term2 in
  Ok (annual_theta / 365).

(** [_vega]. *)
Definition _vega (self : GreeksCalculator) : result R :=
  s <- Py.sqrt (gT self) ;;
  let raw_vega := gS self * s * norm_pdf (d1 self) in
  Ok (raw_vega / 100).

(** [_rho]. *)
Definition _rho (self : GreeksCalculator) : R :=
  let raw_rho :=
    if is_put self
    then - gK self * gT self * exp (- gr self * gT self)
         * norm_cdf (- d2 self)
    else gK self * gT self * exp (- gr self * gT self)
         * norm_cdf (d2 self) in
  raw_rho / 100.

Record greeks : Type := {
  delta : R;
  gamma : R;
  theta : R;
  theta_daily : R;
  theta_weekly : R;
  vega : R;
  vega_dollar : R;
  rho : R;
  shares_equiv : R
}.

(** [calculate]. *)
Definition calculate (self : GreeksCalculator) : result greeks :=
  let delta := _delta self in
  gamma <- _gamma self ;;
  theta <- _theta self ;;
  vega <- _vega self ;;
  let rho := _rho self in
  Ok {| delta := delta; gamma := gamma; theta := theta;
        theta_daily := theta; theta_weekly := theta * 7;
        vega := vega; vega_dollar := vega * 100; rho := rho;
        shares_equiv := delta * 100 |}.

End Greeks.

(** ** hedging.py *)

Module Hedging.

Record HedgingAnalyzer : Type := {
  delta : R;
  stock_price : R;
  num_contracts : Z;
  shares_per_contract : Z
}.

(** [HedgingAnalyzer.__init__]. *)
Definition init (greeks : Greeks.greeks) (stock_price : R)
           (num_contracts : Z) : HedgingAnalyzer :=
  {| delta := Greeks.delta greeks; stock_price := stock_price;
     num_contracts := num_contracts; shares_per_contract := 100 |}.

Inductive direction_label : Set := SHORT | LONG.

Record hedge : Type := {
  delta_per_contract : R;
  delta_exposure : R;
  shares : R;
  direction : direction_label;
  capital : R
}.

(** [calculate]. *)
Definition calculate (self : HedgingAnalyzer) : hedge :=
  let total_delta :=
    delta self * IZR (num_contracts self) * IZR (shares_per_contract self) in
  let hedge_shares := - total_delta in
  {| delta_per_contract := delta self;
     delta_exposure := total_delta;
     shares := hedge_shares;
     direction := if Rlt_dec hedge_shares 0 then SHORT else LONG;
     capital := Rabs hedge_shares * stock_price self |}.

(** [get_hedge_pnl]. *)
Definition get_hedge_pnl (self : HedgingAnalyzer) (price_change_pct : R)
  : R :=
  let new_price := stock_price self * (1 + price_change_pct) in
  let hedge_shares :=
    - delta self * IZR (num_contracts self)
    * IZR (shares_per_contract self) in
  hedge_shares * (new_price - stock_price self).

End Hedging.

(** ** scenarios.py *)

Module Scenarios.

Import ErrorFunction.

(** The module's own [norm_cdf]. *)
Definition norm_cdf (x : R) : R := 0.5 * (1.0 + erf (x / sqrt 2.0)).

Record ScenarioEngine : Type := {
  S : R;
  K : R;
  T : R;
  r : R;
  sigma : R;
  market_price : R;
  num_contracts : Z
}.

(** [ScenarioEngine.__init__]. *)
Definition init (pricer : BlackScholes.OptionPricer)
           (market_price : R) (num_contracts : Z) : ScenarioEngine :=
  {| S := BlackScholes.S pricer; K := BlackScholes.K pricer;
     T := BlackScholes.T pricer; r := BlackScholes.r pricer;
     sigma := BlackScholes.sigma_iv pricer;
     market_price := market_price; num_contracts := num_contracts |}.

Record scenario : Type := {
  name : string;
  stock_chg : R;
  vol_chg : R;
  days : Z
}.

(** The fixed scenario list of [run]. *)
Definition scenarios : list scenario :=
  [ {| name := "Bull Rally"; stock_chg := 0.15; vol_chg := -0.05; days := 7 |};
    {| name := "Moderate Up"; stock_chg := 0.05; vol_chg := 0.0; days := 7 |};
    {| name := "Flat"; stock_chg := 0.0; vol_chg := 0.0; days := 7 |};
    {| name := "Moderate Down"; stock_chg := -0.05; vol_chg := 0.05; days := 7 |};
    {| name := "Crash"; stock_chg := -0.15; vol_chg := 0.20; days := 7 |};
    {| name := "Vol Spike"; stock_chg := 0.0; vol_chg := 0.10; days := 7 |};
    {| name := "Vol Crush"; stock_chg := 0.0; vol_chg := -0.10; days := 7 |} ].

(** [_bs_call]. *)
Definition _bs_call (S K T r sigma : R) : result R :=
  q <- Py.truediv S K ;;
  l <- Py.log q ;;
  s <- Py.sqrt T ;;
  d1 <- Py.truediv (l + (r + 0.5 * sigma ^ 2) * T) (sigma * s) ;;
  s' <- Py.sqrt T ;;
  let d2 := d1 - sigma * s' in
  Ok (S * norm_cdf d1 - K * exp (- r * T) * norm_cdf d2).

(** The shocked inputs of [_calculate_scenario_pnl]. *)
Definition new_S (self : ScenarioEngine) (stock_change : R) : R :=
  S self * (1 + stock_change).
Definition new_sigma (self : ScenarioEngine) (vol_change : R) : R :=
  Py.max (sigma self + vol_change) 0.05.
Definition new_T (self : ScenarioEngine) (days : Z) : R :=
  Py.max (T self - IZR days / 365) 0.001.

(** The repriced option value inside [_calculate_scenario_pnl]. *)
Definition new_price (self : ScenarioEngine)
           (stock_change vol_change : R) (days : Z) : result R :=
  _bs_call (new_S self stock_change) (K self) (new_T self days) (r self)
           (new_sigma self vol_change).

(** [_calculate_scenario_pnl]. *)
Definition _calculate_scenario_pnl (self : ScenarioEngine)
           (stock_change vol_change : R) (days : Z) : result R :=
  new_price <- new_price self stock_change vol_change days ;;
  let pnl_per_contract := (new_price - market_price self) * 100 in
  Ok (pnl_per_contract * IZR (num_contracts self)).

Record scenario_result : Type := {
  res_name : string;
  stock_change : R;
  vol_change : R;
  pnl : R;
  pnl_pct : R
}.

(** One iteration of the loop of [run]. *)
Definition run_scenario (self : ScenarioEngine) (s : scenario)
  : result scenario_result :=
  pnl <- _calculate_scenario_pnl self (stock_chg s) (vol_chg s) (days s) ;;
  q <- Py.truediv pnl (market_price self * 100 * IZR (num_contracts self)) ;;
  Ok {| res_name := name s;
        stock_change := stock_chg s * 100;
        vol_change := vol_chg s * 100;
        pnl := pnl;
        pnl_pct := q * 100 |}.

(** The loop of [run]: the results in scenario order, or the first
    exception. *)
Fixpoint run_loop (self : ScenarioEngine) (l : list scenario)
  : result (list scenario_result) :=
  match l with
  | [] => Ok []
  | s :: l' =>
      x <- run_scenario self s ;;
      xs <- run_loop self l' ;;
      Ok (x :: xs)
  end.

(** [sorted(results, key=lambda x: x['pnl'])]: a stable sort, by stable
    insertion; only [<] on keys is used, as by Python's sort. *)
Fixpoint insert (x : scenario_result) (l : list scenario_result)
  : list scenario_result :=
  match l with
  | [] => [x]
  | y :: l' =>
      if Rlt_dec (pnl y) (pnl x) then y :: insert x l' else x :: y :: l'
  end.

Definition sorted (l : list scenario_result) : list scenario_result :=
  fold_right insert [] l.

Record report : Type := {
  all : list scenario_result;
  best : scenario_result;
  worst : scenario_result
}.

(** [sorted_results[0]] and [sorted_results[-1]]. *)
Definition first_of (l : list scenario_result) : result scenario_result :=
  match l with
  | [] => Raise IndexError
  | x :: _ => Ok x
  end.

Fixpoint last_of (l : list scenario_result) : result scenario_result :=
  match l with
  | [] => Raise IndexError
  | [x] => Ok x
  | _ :: l' => last_of l'
  end.

(** The tail of [run], from the computed results on. *)
Definition select (results : list scenario_result) : result report :=
  let sorted_results := sorted results in
  worst <- first_of sorted_results ;;
  best <- last_of sorted_results ;;
  Ok {| all := results; best := best; worst := worst |}.

(** [run]. *)
Definition run (self : ScenarioEngine) : result report :=
  results <- run_loop self scenarios ;;
  select results.

(** *** [generate_sensitivity_analysis] *)

Record vol_point : Type := {
  vol_pct : R;
  vol_mult : R;
  vol_price : R;
  vol_pnl : R
}.

Record time_point : Type := {
  dte : R;
  time_price : R;
  time_pnl : R
}.

Record sensitivity : Type := {
  vol_sweep : list vol_point;
  time_sweep : list time_point;
  current_vol : R;
  current_dte : Z
}.

(** A loop appending one computed point per element: the points in order,
    or the first exception. *)
Fixpoint for_each {A B : Type} (f : A -> result B) (l : list A)
  : result (list B) :=
  match l with
  | [] => Ok []
  | a :: l' =>
      x <- f a ;;
      xs <- for_each f l' ;;
      Ok (x :: xs)
  end.

(** [[0.5 + (1.5 * i / 19) for i in range(20)]]. *)
Definition vol_multipliers : list R :=
  map (fun i => 0.5 + (1.5 * IZR i / 19)) (Py.range 20).

(** The body of the volatility loop. *)
Definition vol_sweep_point (self : ScenarioEngine) (mult : R)
  : result vol_point :=
  let test_sigma := sigma self * mult in
  price <- _bs_call (S self) (K self) (T self) (r self) test_sigma ;;
  let pnl := (price - market_price self) * 100 * IZR (num_contracts self) in
  Ok {| vol_pct := test_sigma * 100; vol_mult := mult;
        vol_price := price; vol_pnl := pnl |}.

(** [current_dte], with its default when fewer than two days remain.
    [T self * 365] is the exact product; in double precision it can fall
    just below a whole number of days ([3 / 365 * 365] evaluates to
    [2.9999999999999996], which [int] truncates to 2), so the properties of
    the time sweep are stated on the value [current_dte] the function
    reports and use only its lower bound. *)
Definition current_dte_of (self : ScenarioEngine) : Z :=
  let current_dte := Py.int (T self * 365) in
  if (current_dte <? 2)%Z then 30%Z else current_dte.

Definition time_points : Z := 30.

(** The [dte] of step [i] of the time loop. *)
Definition dte_at (current_dte i : Z) : R :=
  Py.max 1 (IZR current_dte
            - IZR ((current_dte - 1) * i) / IZR (time_points - 1)).

(** The body of the time loop. *)
Definition time_sweep_point (self : ScenarioEngine) (current_dte i : Z)
  : result time_point :=
  let dte := dte_at current_dte i in
  let test_T := dte / 365 in
  price <- _bs_call (S self) (K self) test_T (r self) (sigma self) ;;
  let pnl := (price - market_price self) * 100 * IZR (num_contracts self) in
  Ok {| dte := dte; time_price := price; time_pnl := pnl |}.

(** [generate_sensitivity_analysis]. *)
Definition generate_sensitivity_analysis (self : ScenarioEngine)
  : result sensitivity :=
  vol_sweep <- for_each (vol_sweep_point self) vol_multipliers ;;
  let current_dte := current_dte_of self in
  time_sweep <- for_each (time_sweep_point self current_dte)
                         (Py.range (Z.to_nat time_points)) ;;
  Ok {| vol_sweep := vol_sweep; time_sweep := time_sweep;
        current_vol := sigma self * 100; current_dte := current_dte |}.

End Scenarios.

(** ** volatility.py *)

Module Volatility.

(** A pandas float column: [None] stands for NaN. *)
Definition series : Type := list (option R).

(** [Series.dropna]. *)
Fixpoint dropna (s : series) : list R :=
  match s with
  | [] => []
  | Some x :: s' => x :: dropna s'
  | None :: s' => dropna s'
  end.

Record VolatilityAnalyzer : Type := {
  returns : list R
}.

(** [VolatilityAnalyzer.__init__]: the [Log_Returns] column without its
    NaN entries. *)
Definition init (log_returns : series) : VolatilityAnalyzer :=
  {| returns := dropna log_returns |}.

Definition sum (l : list R) : R := fold_right Rplus 0 l.

Definition mean (l : list R) : R := sum l / INR (List.length l).

(** Sample standard deviation (one degree of freedom removed), the
    statistic of [Rolling.std]. *)
Definition std (l : list R) : R :=
  sqrt (sum (map (fun x => (x - mean l) ^ 2) l) / (INR (List.length l) - 1)).

(** The [window] values ending at position [i]. *)
Definition window_at (window i : nat) (l : list R) : list R :=
  firstn window (skipn (i + 1 - window) l).

(** [Series.rolling(window).std()]: one entry per position, NaN while
    fewer than [window] observations are available. *)
Definition rolling_std (window : nat) (l : list R) : series :=
  map (fun i => if (window <=? i + 1)%nat
                then Some (std (window_at window i l))
                else None)
      (seq 0 (List.length l)).

(** [self.returns.rolling(window=window).std() * np.sqrt(252)]. *)
Definition rolling_vol (window : nat) (l : list R) : series :=
  map (option_map (fun v => v * sqrt 252)) (rolling_std window l).

(** The [history] data frame: three columns over the index of the
    returns. *)
Record history : Type := {
  col_hv_21d : series;
  col_hv_63d : series;
  col_hv_252d : series
}.

(** [Series.iloc[-1]]. *)
Fixpoint iloc_last (s : series) : result (option R) :=
  match s with
  | [] => Raise IndexError
  | [x] => Ok x
  | _ :: s' => iloc_last s'
  end.

Record hv_result : Type := {
  hv_21d : option R;
  hv_63d : option R;
  hv_252d : option R;
  hv_history : history
}.

(** [_calculate_historical_vol]. *)
Definition _calculate_historical_vol (self : VolatilityAnalyzer)
  : result hv_result :=
  let history :=
    {| col_hv_21d := rolling_vol 21 (returns self);
       col_hv_63d := rolling_vol 63 (returns self);
       col_hv_252d := rolling_vol 252 (returns self) |} in
  h21 <- iloc_last (col_hv_21d history) ;;
  h63 <- iloc_last (col_hv_63d history) ;;
  h252 <- iloc_last (col_hv_252d history) ;;
  Ok {| hv_21d := h21; hv_63d := h63; hv_252d := h252;
        hv_history := history |}.

Inductive regime_label : Set := HIGH | LOW | NORMAL.

(** [x < current_hv] on floats: false when [current_hv] is NaN. *)
Definition lt_current (current_hv : option R) (x : R) : bool :=
  match current_hv with
  | Some c => if Rlt_dec x c then true else false
  | None => false
  end.

(** [(all_hv < current_hv).mean() * 100]: NaN on an empty column. *)
Definition percentile_of (all_hv : list R) (current_hv : option R)
  : option R :=
  match all_hv with
  | [] => None
  | _ => Some (INR (List.length (filter (lt_current current_hv) all_hv))
               / INR (List.length all_hv) * 100)
  end.

(** The label chain; comparisons with NaN are false. *)
Definition label_of (percentile : option R) : regime_label :=
  match percentile with
  | Some p => if Rgt_dec p 80 then HIGH
              else if Rlt_dec p 20 then LOW
              else NORMAL
  | None => NORMAL
  end.

Record regime : Type := {
  label : regime_label;
  percentile : option R
}.

(** [_determine_regime]. *)
Definition _determine_regime (self : VolatilityAnalyzer)
           (current_hv : option R) : regime :=
  let all_hv := dropna (rolling_vol 21 (returns self)) in
  let percentile := percentile_of all_hv current_hv in
  {| label := label_of percentile; percentile := percentile |}.

Record metrics : Type := {
  m_hv_21d : option R;
  m_hv_63d : option R;
  m_hv_252d : option R;
  m_hv_history : history;
  m_regime : regime_label;
  m_percentile : option R
}.

(** [analyze]. *)
Definition analyze (self : VolatilityAnalyzer) : result metrics :=
  hv <- _calculate_historical_vol self ;;
  let regime := _determine_regime self (hv_21d hv) in
  Ok {| m_hv_21d := hv_21d hv; m_hv_63d := hv_63d hv;
        m_hv_252d := hv_252d hv; m_hv_history := hv_history hv;
        m_regime := label regime; m_percentile := percentile regime |}.

End Volatility.

(** ** config.py and data_loader.py *)

Module DataLoader.

(** The selection criteria of [Config]. *)
Record Config : Type := {
  TARGET_OTM_PCT : R;
  MIN_OTM_PCT : R;
  MAX_OTM_PCT : R;
  MIN_OPEN_INTEREST : Z
}.

Definition config : Config :=
  {| TARGET_OTM_PCT := 10.0; MIN_OTM_PCT := 5.0; MAX_OTM_PCT := 20.0;
     MIN_OPEN_INTEREST := 100 |}.

(** One row of an option chain. *)
Record quote : Type := {
  contractSymbol : string;
  strike : R;
  lastPrice : R;
  bid : R;
  ask : R;
  volume : Z;
  openInterest : Z;
  impliedVolatility : R
}.

(** A row of the [otm] frame: a chain row with its [pct_otm] column. *)
Record otm_row : Type := {
  row : quote;
  pct_otm : R
}.

(** A row of [filtered] once the [spread], [spread_pct] and [score]
    columns are added. *)
Record scored_row : Type := {
  base : otm_row;
  spread : R;
  spread_pct : R;
  score : R
}.

(** The first (strict) filter. *)
Definition strict (cfg : Config) (o : otm_row) : bool :=
  (if Rge_dec (pct_otm o) (MIN_OTM_PCT cfg) then true else false)
  && (if Rle_dec (pct_otm o) (MAX_OTM_PCT cfg) then true else false)
  && (MIN_OPEN_INTEREST cfg <? openInterest (row o))%Z.

(** The fallback filter [openInterest > 50]. *)
Definition relaxed (o : otm_row) : bool :=
  (50 <? openInterest (row o))%Z.

Definition empty {A : Type} (l : list A) : bool :=
  match l with [] => true | _ => false end.

(** The frame [filtered] after the two filtering steps. *)
Definition filtered (cfg : Config) (otm : list otm_row) : list otm_row :=
  let filtered := filter (strict cfg) otm in
  if empty filtered then filter relaxed otm else filtered.

(** The three computed columns. *)
Definition add_score (cfg : Config) (o : otm_row) : scored_row :=
  let spread := ask (row o) - bid (row o) in
  let spread_pct := spread / lastPrice (row o) * 100 in
  let target := TARGET_OTM_PCT cfg in
  {| base := o; spread := spread; spread_pct := spread_pct;
     score := - Rabs (pct_otm o - target) * 2
              + ln (1 + IZR (openInterest (row o))) * 1.5
              - spread_pct * 0.5 |}.

(** [idxmax]: the first row holding the greatest score. *)
Fixpoint argmax_from (best : scored_row) (l : list scored_row)
  : scored_row :=
  match l with
  | [] => best
  | x :: l' =>
      if Rlt_dec (score best) (score x)
      then argmax_from x l'
      else argmax_from best l'
  end.

Record selection : Type := {
  contract : string;
  sel_strike : R;
  last_price : R;
  sel_bid : R;
  sel_ask : R;
  mid_price : R;
  open_interest : Z;
  sel_volume : Z;
  implied_volatility : R;
  sel_pct_otm : R
}.

(** The dictionary built from the selected row. *)
Definition selection_of (best : scored_row) : selection :=
  let q := row (base best) in
  {| contract := contractSymbol q;
     sel_strike := strike q;
     last_price := lastPrice q;
     sel_bid := bid q;
     sel_ask := ask q;
     mid_price := (bid q + ask q) / 2;
     open_interest := openInterest q;
     sel_volume := volume q;
     implied_volatility := impliedVolatility q;
     sel_pct_otm := pct_otm (base best) |}.

(** [_filter_and_score]: [None] is Python's [None]. *)
Definition _filter_and_score (cfg : Config) (otm : list otm_row)
  : option selection :=
  match map (add_score cfg) (filtered cfg otm) with
  | [] => None
  | x :: l => Some (selection_of (argmax_from x l))
  end.

(** [select_option]. *)
Definition select_option (cfg : Config) (chain : list quote)
           (current_price : R) : option selection :=
  let otm :=
    filter (fun q => if Rgt_dec (strike q) current_price
                     then true else false) chain in
  let otm :=
    map (fun q => {| row := q;
                     pct_otm := (strike q - current_price)
                                / current_price * 100 |}) otm in
  _filter_and_score cfg otm.

(** [select_put_option]. *)
Definition select_put_option (cfg : Config) (chain : list quote)
           (current_price : R) : option selection :=
  let otm :=
    filter (fun q => if Rlt_dec (strike q) current_price
                     then true else false) chain in
  let otm :=
    map (fun q => {| row := q;
                     pct_otm := (current_price - strike q)
                                / current_price * 100 |}) otm in
  _filter_and_score cfg otm.

End DataLoader.

(* ================================================================= *)
(** * Part III.  Properties *)
(* ================================================================= *)

(** ** Evaluation of the primitives *)

Lemma truediv_ok (a b : R) : b <> 0 -> Py.truediv a b = Ok (a / b).
Proof.
  intro H. unfold Py.truediv. destruct (Req_dec_T b 0); [contradiction | reflexivity].
Qed.

Lemma truediv_zero (a : R) : Py.truediv a 0 = Raise ZeroDivisionError.
Proof.
  unfold Py.truediv. destruct (Req_dec_T 0 0); [reflexivity | contradiction].
Qed.

Lemma log_ok (x : R) : 0 < x -> Py.log x = Ok (ln x).
Proof.
  intro H. unfold Py.log. destruct (Rlt_dec 0 x); [reflexivity | contradiction].
Qed.

Lemma sqrt_ok (x : R) : 0 <= x -> Py.sqrt x = Ok (sqrt x).
Proof.
  intro H. unfold Py.sqrt. destruct (Rle_dec 0 x); [reflexivity | contradiction].
Qed.

Lemma max_Rmax (a b : R) : Py.max a b = Rmax a b.
Proof.
  unfold Py.max, Rmax. destruct (Rlt_dec a b), (Rle_dec a b); lra.
Qed.

Lemma max_ge_r (a b : R) : b <= Py.max a b.
Proof. rewrite max_Rmax. apply Rmax_r. Qed.

Lemma max_ge_l (a b : R) : a <= Py.max a b.
Proof. rewrite max_Rmax. apply Rmax_l. Qed.

Lemma max_left (a b : R) : b <= a -> Py.max a b = a.
Proof. intro H. unfold Py.max. destruct (Rlt_dec a b); lra. Qed.

Lemma max_right (a b : R) : a <= b -> Py.max a b = b.
Proof. intro H. unfold Py.max. destruct (Rlt_dec a b); lra. Qed.

(** ** The closed formulas *)

Module Formula.

Import BlackScholes.

Definition d1 (S K T r sigma : R) : R :=
  (ln (S / K) + (r + 0.5 * sigma ^ 2) * T) / (sigma * sqrt T).

Definition d2 (S K T r sigma : R) : R :=
  d1 S K T r sigma - sigma * sqrt T.

Definition call (S K T r sigma : R) : R :=
  S * norm_cdf (d1 S K T r sigma)
  - K * exp (- r * T) * norm_cdf (d2 S K T r sigma).

Definition put (S K T r sigma : R) : R :=
  K * exp (- r * T) * norm_cdf (- d2 S K T r sigma)
  - S * norm_cdf (- d1 S K T r sigma).

End Formula.

Section PricerEvaluation.

Import BlackScholes.

Variable p : OptionPricer.
Variable sigma : R.
Hypothesis HS : 0 < S p.
Hypothesis HK : 0 < K p.
Hypothesis HT : 0 < T p.
Hypothesis Hsigma : 0 < sigma.

Lemma sigma_sqrt_T_pos : 0 < sigma * sqrt (T p).
Proof. apply Rmult_lt_0_compat; [exact Hsigma | now apply sqrt_lt_R0]. Qed.

Lemma _d1_ok : _d1 p sigma = Ok (Formula.d1 (S p) (K p) (T p) (r p) sigma).
Proof.
  unfold _d1. rewrite truediv_ok by lra. simpl.
  rewrite log_ok by (apply Rdiv_lt_0_compat; assumption). simpl.
  rewrite sqrt_ok by lra. simpl.
  rewrite truediv_ok; [reflexivity | ].
  pose proof sigma_sqrt_T_pos. lra.
Qed.

Lemma _d2_ok : _d2 p sigma = Ok (Formula.d2 (S p) (K p) (T p) (r p) sigma).
Proof.
  unfold _d2. rewrite _d1_ok. simpl. rewrite sqrt_ok by lra. reflexivity.
Qed.

Lemma _bs_call_price_ok :
  _bs_call_price p sigma
  = Ok (Formula.call (S p) (K p) (T p) (r p) sigma).
Proof. unfold _bs_call_price. rewrite _d1_ok, _d2_ok. reflexivity. Qed.

Lemma _bs_put_price_ok :
  _bs_put_price p sigma
  = Ok (Formula.put (S p) (K p) (T p) (r p) sigma).
Proof. unfold _bs_put_price. rewrite _d1_ok, _d2_ok. reflexivity. Qed.

End PricerEvaluation.

Lemma init_T_pos (S K T r hv iv : R) :
  0.001 <= BlackScholes.T (BlackScholes.init S K T r hv iv).
Proof. simpl. apply max_ge_r. Qed.

(** ** C1: the result of [calculate] *)

(** C1.  For a pricer built from [S > 0], [K > 0] and positive
    volatilities, [calculate] returns normally; its two prices are the call
    formula at [sigma_hv] and at [sigma_iv]; its mispricing percentage is
    [(price_iv - price_hv) / price_hv * 100] when [price_hv > 0] and [0]
    otherwise; and its label is [EXPENSIVE] exactly when that percentage
    exceeds 20, [CHEAP] exactly when it is below -20, [FAIR] otherwise. *)
Theorem calculate_spec (S K T r sigma_hv sigma_iv : R) :
  0 < S -> 0 < K -> 0 < sigma_hv -> 0 < sigma_iv ->
  let p := BlackScholes.init S K T r sigma_hv sigma_iv in
  let T' := BlackScholes.T p in
  exists res,
    BlackScholes.calculate p = Ok res /\
    BlackScholes.price_hv res = Formula.call S K T' r sigma_hv /\
    BlackScholes.price_iv res = Formula.call S K T' r sigma_iv /\
    (BlackScholes.price_hv res > 0 ->
     BlackScholes.mispricing_pct res
     = (BlackScholes.price_iv res - BlackScholes.price_hv res)
       / BlackScholes.price_hv res * 100) /\
    (BlackScholes.price_hv res <= 0 -> BlackScholes.mispricing_pct res = 0) /\
    (BlackScholes.valuation_label res = BlackScholes.EXPENSIVE
     <-> BlackScholes.mispricing_pct res > 20) /\
    (BlackScholes.valuation_label res = BlackScholes.CHEAP
     <-> BlackScholes.mispricing_pct res < -20) /\
    (BlackScholes.valuation_label res = BlackScholes.FAIR
     <-> -20 <= BlackScholes.mispricing_pct res <= 20).
Proof.
  intros HS HK Hhv Hiv p T'.
  assert (HT : 0 < BlackScholes.T p).
  { pose proof (init_T_pos S K T r sigma_hv sigma_iv). fold p in H. lra. }
  unfold BlackScholes.calculate.
  assert (Eh : BlackScholes._bs_call_price p (BlackScholes.sigma_hv p)
               = Ok (Formula.call S K T' r sigma_hv))
    by apply (_bs_call_price_ok p sigma_hv HS HK HT Hhv).
  assert (Ei : BlackScholes._bs_call_price p (BlackScholes.sigma_iv p)
               = Ok (Formula.call S K T' r sigma_iv))
    by apply (_bs_call_price_ok p sigma_iv HS HK HT Hiv).
  rewrite Eh, Ei. simpl bind.
  eexists. split; [reflexivity | ]. cbn [BlackScholes.price_hv
    BlackScholes.price_iv BlackScholes.mispricing_pct
    BlackScholes.valuation_label BlackScholes.S BlackScholes.K
    BlackScholes.r p BlackScholes.init].
  unfold T'.
  set (ph := Formula.call S K (BlackScholes.T p) r sigma_hv).
  set (pi := Formula.call S K (BlackScholes.T p) r sigma_iv).
  repeat split; try reflexivity.
  - intro H. unfold BlackScholes.mispricing_pct_of.
    destruct (Rgt_dec ph 0); [reflexivity | contradiction].
  - intro H. unfold BlackScholes.mispricing_pct_of.
    destruct (Rgt_dec ph 0); [lra | reflexivity].
  - unfold BlackScholes._get_valuation.
    destruct (Rgt_dec _ 20); [trivial | ].
    destruct (Rlt_dec _ (-20)); discriminate.
  - unfold BlackScholes._get_valuation.
    destruct (Rgt_dec _ 20); [reflexivity | contradiction].
  - unfold BlackScholes._get_valuation.
    destruct (Rgt_dec _ 20); [discriminate | ].
    destruct (Rlt_dec _ (-20)); [trivial | discriminate].
  - unfold BlackScholes._get_valuation.
    destruct (Rgt_dec _ 20); [lra | ].
    destruct (Rlt_dec _ (-20)); [reflexivity | contradiction].
  - unfold BlackScholes._get_valuation in H.
    destruct (Rgt_dec _ 20); [discriminate | ].
    destruct (Rlt_dec _ (-20)); [discriminate | lra].
  - unfold BlackScholes._get_valuation in H.
    destruct (Rgt_dec _ 20); [discriminate | lra].
  - intros [H1 H2]. unfold BlackScholes._get_valuation.
    destruct (Rgt_dec _ 20); [lra | ].
    destruct (Rlt_dec _ (-20)); [lra | reflexivity].
Qed.

Lemma calculate_spec_witness :
  0 < 100 /\ 0 < 110 /\ 0 < 0.30 /\ 0 < 0.35 /\
  exists res,
    BlackScholes.calculate
      (BlackScholes.init 100 110 (35 / 365) 0.045 0.30 0.35) = Ok res.
Proof.
  assert (H1 : 0 < 100) by lra. assert (H2 : 0 < 110) by lra.
  assert (H3 : 0 < 0.30) by lra. assert (H4 : 0 < 0.35) by lra.
  repeat split; try assumption.
  destruct (calculate_spec 100 110 (35 / 365) 0.045 0.30 0.35 H1 H2 H3 H4)
    as [res [E _]].
  exists res. exact E.
Defined.

(** ** The normal distribution function *)

Section NormalMath.

Import ErrorFunction BlackScholes.

Lemma norm_cdf_bounds (x : R) : 0 <= norm_cdf x <= 1.
Proof.
  unfold norm_cdf. pose proof (erf_bounds (x / sqrt 2.0)). lra.
Qed.

Lemma norm_cdf_sym (x : R) : norm_cdf (- x) = 1 - norm_cdf x.
Proof.
  unfold norm_cdf.
  replace (- x / sqrt 2.0) with (- (x / sqrt 2.0)) by (unfold Rdiv; ring).
  rewrite erf_odd. lra.
Qed.

Lemma norm_cdf_monotone (x y : R) : x <= y -> norm_cdf x <= norm_cdf y.
Proof.
  intro H. unfold norm_cdf.
  assert (Hs : 0 < sqrt 2.0) by (apply sqrt_lt_R0; lra).
  assert (x / sqrt 2.0 <= y / sqrt 2.0).
  { unfold Rdiv. apply Rmult_le_compat_r; [ | exact H].
    left. now apply Rinv_0_lt_compat. }
  pose proof (erf_monotone _ _ H0). lra.
Qed.

Lemma norm_pdf_pos (x : R) : 0 < norm_pdf x.
Proof.
  unfold norm_pdf. apply Rdiv_lt_0_compat; [apply exp_pos | ].
  apply sqrt_lt_R0. pose proof PI_RGT_0. lra.
Qed.

Lemma scenarios_norm_cdf (x : R) : Scenarios.norm_cdf x = norm_cdf x.
Proof. reflexivity. Qed.

End NormalMath.

(** ** C10: the range of delta *)

(** C10.  For a pricer built from [S > 0], [K > 0] and [sigma_iv > 0], the
    Greeks calculator is constructed without exception, and its delta lies
    in [[-1, 0]] when the lower-cased option type is ["put"] and in [[0, 1]]
    for every other option type, in particular for ["call"]. *)
Theorem delta_range (S K T r sigma_hv sigma_iv : R) (option_type : string) :
  0 < S -> 0 < K -> 0 < sigma_iv ->
  exists g,
    Greeks.init (BlackScholes.init S K T r sigma_hv sigma_iv) option_type
    = Ok g /\
    (Py.lower option_type = "put"%string -> -1 <= Greeks._delta g <= 0) /\
    (Py.lower option_type <> "put"%string -> 0 <= Greeks._delta g <= 1) /\
    (option_type = "call"%string -> 0 <= Greeks._delta g <= 1) /\
    (option_type = "put"%string -> -1 <= Greeks._delta g <= 0).
Proof.
  intros HS HK Hiv.
  set (p := BlackScholes.init S K T r sigma_hv sigma_iv).
  assert (HT : 0 < BlackScholes.T p).
  { pose proof (init_T_pos S K T r sigma_hv sigma_iv). fold p in H. lra. }
  unfold Greeks.init, BlackScholes.get_d1, BlackScholes.get_d2.
  assert (E1 : BlackScholes._d1 p (BlackScholes.sigma_iv p) = Ok _)
    by apply (_d1_ok p sigma_iv HS HK HT Hiv).
  assert (E2 : BlackScholes._d2 p (BlackScholes.sigma_iv p) = Ok _)
    by apply (_d2_ok p sigma_iv HS HK HT Hiv).
  rewrite E1, E2. simpl bind. eexists. split; [reflexivity | ].
  set (x := Formula.d1 _ _ _ _ _). pose proof (norm_cdf_bounds x) as B.
  unfold Greeks._delta, Greeks.is_put. cbn [Greeks.option_type Greeks.d1].
  assert (Pput : Py.lower option_type = "put"%string ->
                 -1 <= (if String.eqb (Py.lower option_type) "put"
                        then BlackScholes.norm_cdf x - 1
                        else BlackScholes.norm_cdf x) <= 0).
  { intro E. rewrite E. simpl. lra. }
  assert (Pcall : Py.lower option_type <> "put"%string ->
                  0 <= (if String.eqb (Py.lower option_type) "put"
                        then BlackScholes.norm_cdf x - 1
                        else BlackScholes.norm_cdf x) <= 1).
  { intro N. apply String.eqb_neq in N. rewrite N. exact B. }
  repeat split; try (apply Pput; assumption); try (apply Pcall; assumption).
  - apply Pcall. subst option_type. discriminate.
  - apply Pcall. subst option_type. discriminate.
  - apply Pput. subst option_type. reflexivity.
  - apply Pput. subst option_type. reflexivity.
Qed.

Lemma delta_range_witness :
  0 < 100 /\ 0 < 110 /\ 0 < 0.35 /\
  exists g,
    Greeks.init (BlackScholes.init 100 110 (35 / 365) 0.045 0.30 0.35) "Put"
    = Ok g /\ -1 <= Greeks._delta g <= 0.
Proof.
  assert (H1 : 0 < 100) by lra. assert (H2 : 0 < 110) by lra.
  assert (H3 : 0 < 0.35) by lra.
  repeat split; try assumption.
  destruct (delta_range 100 110 (35 / 365) 0.045 0.30 0.35 "Put" H1 H2 H3)
    as [g [E [P _]]].
  exists g. split; [exact E | apply P; reflexivity].
Defined.

(** ** C2: put-call parity *)

Lemma parity_formula (S K T r sigma : R) :
  Formula.call S K T r sigma - Formula.put S K T r sigma
  = S - K * exp (- r * T).
Proof.
  unfold Formula.call, Formula.put. rewrite !norm_cdf_sym. ring.
Qed.

Lemma pricer_parity (p : BlackScholes.OptionPricer) (sigma : R) :
  0 < BlackScholes.S p -> 0 < BlackScholes.K p -> 0 < BlackScholes.T p ->
  0 < sigma ->
  exists c q,
    BlackScholes._bs_call_price p sigma = Ok c /\
    BlackScholes._bs_put_price p sigma = Ok q /\
    c - q = BlackScholes.S p
            - BlackScholes.K p * exp (- BlackScholes.r p * BlackScholes.T p).
Proof.
  intros HS HK HT Hs.
  rewrite (_bs_call_price_ok p sigma HS HK HT Hs).
  rewrite (_bs_put_price_ok p sigma HS HK HT Hs).
  do 2 eexists. repeat split. apply parity_formula.
Qed.

(** C2, as amended.  The call price minus the put price of a pricer built
    from [(S, K, T, r)] equals [S - K * exp (- r * max T 0.001)], the
    constructor's floored time to expiry; it equals
    [S - K * exp (- r * T)] whenever [T >= 0.001]. *)
Theorem put_call_parity (S K T r sigma_hv sigma_iv sigma : R) :
  0 < S -> 0 < K -> 0 < sigma ->
  let p := BlackScholes.init S K T r sigma_hv sigma_iv in
  exists c q,
    BlackScholes._bs_call_price p sigma = Ok c /\
    BlackScholes._bs_put_price p sigma = Ok q /\
    c - q = S - K * exp (- r * Rmax T 0.001) /\
    (0.001 <= T -> c - q = S - K * exp (- r * T)).
Proof.
  intros HS HK Hs p.
  assert (HT : 0 < BlackScholes.T p).
  { pose proof (init_T_pos S K T r sigma_hv sigma_iv). fold p in H. lra. }
  destruct (pricer_parity p sigma HS HK HT Hs) as [c [q [Ec [Eq E]]]].
  exists c, q. repeat split; try assumption.
  - rewrite E. simpl. now rewrite max_Rmax.
  - intro H. rewrite E. simpl. now rewrite max_left.
Qed.

Lemma put_call_parity_witness :
  0 < 100 /\ 0 < 110 /\ 0 < 0.35 /\
  exists c q,
    BlackScholes._bs_call_price
      (BlackScholes.init 100 110 (35 / 365) 0.045 0.30 0.35) 0.35 = Ok c /\
    BlackScholes._bs_put_price
      (BlackScholes.init 100 110 (35 / 365) 0.045 0.30 0.35) 0.35 = Ok q /\
    c - q = 100 - 110 * exp (- (0.045) * (35 / 365)).
Proof.
  assert (H1 : 0 < 100) by lra. assert (H2 : 0 < 110) by lra.
  assert (H3 : 0 < 0.35) by lra.
  repeat split; try assumption.
  destruct (put_call_parity 100 110 (35 / 365) 0.045 0.30 0.35 0.35 H1 H2 H3)
    as [c [q [Ec [Eq [_ E]]]]].
  exists c, q. repeat split; try assumption. apply E. lra.
Defined.

(** C2 as stated fails below the floor: with [T = 0.0005] (positive) and
    [r = 0.05] the pricer works at [T = 0.001], and the price difference
    misses [S - K * exp (- r * T)] by more than the tolerance [1e-6]. *)
Lemma put_call_parity_counterexample :
  0 < 100 /\ 0 < 0.0005 /\ 0 < 0.2 /\
  exists c q,
    BlackScholes._bs_call_price
      (BlackScholes.init 100 100 0.0005 0.05 0.2 0.2) 0.2 = Ok c /\
    BlackScholes._bs_put_price
      (BlackScholes.init 100 100 0.0005 0.05 0.2 0.2) 0.2 = Ok q /\
    Rabs ((c - q) - (100 - 100 * exp (- (0.05) * 0.0005))) > 0.000001.
Proof.
  repeat split; try lra.
  destruct (pricer_parity (BlackScholes.init 100 100 0.0005 0.05 0.2 0.2) 0.2)
    as [c [q [Ec [Eq E]]]]; try (simpl; lra).
  { simpl. pose proof (max_ge_r 0.0005 0.001). lra. }
  exists c, q. repeat split; try assumption.
  rewrite E. simpl. rewrite max_right by lra.
  set (a := 0.000025).
  replace (- (0.05) * 0.001) with (- a + - a) by (unfold a; lra).
  replace (- (0.05) * 0.0005) with (- a) by (unfold a; lra).
  rewrite exp_plus.
  pose proof (exp_ineq1_le (- a)) as I1.
  pose proof (exp_pos (- a)) as I2.
  assert (I3 : exp (- a) <= 1).
  { rewrite <- exp_0. left. apply exp_increasing. unfold a. lra. }
  assert (I4 : 0.0000249 <= exp (- a) * (1 - exp (- a))).
  { assert (0.99997 <= exp (- a)) by (unfold a in *; lra).
    assert (exp (- a) * (1 + a) <= 1).
    { pose proof (exp_ineq1_le a).
      assert (exp (- a) * exp a = 1)
        by (rewrite <- exp_plus, Rplus_opp_l; apply exp_0).
      nra. }
    unfold a in *. nra. }
  rewrite Rabs_right; nra.
Qed.

(** ** C7: the shocked inputs of the scenario repricing *)

Lemma _bs_call_ok (S K T r sigma : R) :
  0 < S -> 0 < K -> 0 < T -> 0 < sigma ->
  Scenarios._bs_call S K T r sigma = Ok (Formula.call S K T r sigma).
Proof.
  intros HS HK HT Hs. unfold Scenarios._bs_call.
  rewrite truediv_ok by lra. simpl.
  rewrite log_ok by (apply Rdiv_lt_0_compat; assumption). simpl.
  rewrite sqrt_ok by lra. simpl.
  assert (0 < sqrt T) by now apply sqrt_lt_R0.
  rewrite truediv_ok by (apply Rgt_not_eq, Rmult_lt_0_compat; assumption).
  simpl. reflexivity.
Qed.

Lemma scenarios_stock_chg (s : Scenarios.scenario) :
  In s Scenarios.scenarios -> -0.15 <= Scenarios.stock_chg s.
Proof.
  unfold Scenarios.scenarios. simpl.
  intros [E | [E | [E | [E | [E | [E | [E | []]]]]]]]; subst s; simpl; lra.
Qed.

Lemma new_price_ok (eng : Scenarios.ScenarioEngine)
      (stock_change vol_change : R) (days : Z) :
  0 < Scenarios.S eng -> 0 < Scenarios.K eng -> -1 < stock_change ->
  Scenarios.new_price eng stock_change vol_change days
  = Ok (Formula.call (Scenarios.new_S eng stock_change) (Scenarios.K eng)
                     (Scenarios.new_T eng days) (Scenarios.r eng)
                     (Scenarios.new_sigma eng vol_change)).
Proof.
  intros HS HK Hc. unfold Scenarios.new_price.
  apply _bs_call_ok.
  - unfold Scenarios.new_S. apply Rmult_lt_0_compat; lra.
  - exact HK.
  - unfold Scenarios.new_T.
    pose proof (max_ge_r (Scenarios.T eng - IZR days / 365) 0.001). lra.
  - unfold Scenarios.new_sigma.
    pose proof (max_ge_r (Scenarios.sigma eng + vol_change) 0.05). lra.
Qed.

(** C7.  For each of the seven scenarios and every engine with [S > 0] and
    [K > 0]: the shocked volatility is [max (sigma + vol_change) 0.05], at
    least [0.05]; the shocked time is [max (T - days / 365) 0.001], at
    least [0.001]; the stock change is at least [-0.15], so the shocked spot
    [S * (1 + stock_change)] is positive; and the repricing raises no
    exception: it returns the call formula at the shocked inputs. *)
Theorem scenario_inputs_safe (eng : Scenarios.ScenarioEngine)
        (s : Scenarios.scenario) :
  In s Scenarios.scenarios ->
  0 < Scenarios.S eng -> 0 < Scenarios.K eng ->
  let S' := Scenarios.new_S eng (Scenarios.stock_chg s) in
  let sigma' := Scenarios.new_sigma eng (Scenarios.vol_chg s) in
  let T' := Scenarios.new_T eng (Scenarios.days s) in
  List.length Scenarios.scenarios = 7%nat /\
  sigma' = Rmax (Scenarios.sigma eng + Scenarios.vol_chg s) 0.05 /\
  0.05 <= sigma' /\
  T' = Rmax (Scenarios.T eng - IZR (Scenarios.days s) / 365) 0.001 /\
  0.001 <= T' /\
  -0.15 <= Scenarios.stock_chg s /\
  S' = Scenarios.S eng * (1 + Scenarios.stock_chg s) /\
  0 < S' /\
  Py.truediv S' (Scenarios.K eng) = Ok (S' / Scenarios.K eng) /\
  Py.log (S' / Scenarios.K eng) = Ok (ln (S' / Scenarios.K eng)) /\
  Py.sqrt T' = Ok (sqrt T') /\
  sigma' * sqrt T' <> 0 /\
  Scenarios.new_price eng (Scenarios.stock_chg s) (Scenarios.vol_chg s)
                      (Scenarios.days s)
  = Ok (Formula.call S' (Scenarios.K eng) T' (Scenarios.r eng) sigma') /\
  Scenarios._calculate_scenario_pnl eng (Scenarios.stock_chg s)
                                    (Scenarios.vol_chg s) (Scenarios.days s)
  = Ok ((Formula.call S' (Scenarios.K eng) T' (Scenarios.r eng) sigma'
         - Scenarios.market_price eng) * 100
        * IZR (Scenarios.num_contracts eng)).
Proof.
  intros Hin HS HK S' sigma' T'.
  pose proof (scenarios_stock_chg s Hin) as Hc.
  assert (Hsig : 0.05 <= sigma') by apply max_ge_r.
  assert (HT : 0.001 <= T') by apply max_ge_r.
  assert (HS' : 0 < S').
  { unfold S', Scenarios.new_S. apply Rmult_lt_0_compat; lra. }
  assert (Hp := new_price_ok eng (Scenarios.stock_chg s) (Scenarios.vol_chg s)
                             (Scenarios.days s) HS HK ltac:(lra)).
  fold S' sigma' T' in Hp.
  repeat split; try assumption; try reflexivity.
  - apply max_Rmax.
  - apply max_Rmax.
  - apply truediv_ok. lra.
  - apply log_ok. apply Rdiv_lt_0_compat; assumption.
  - apply sqrt_ok. lra.
  - assert (0 < sqrt T') by (apply sqrt_lt_R0; lra).
    apply Rgt_not_eq, Rmult_lt_0_compat; lra.
  - unfold Scenarios._calculate_scenario_pnl. rewrite Hp. reflexivity.
Qed.

Lemma scenario_inputs_safe_witness :
  exists v,
    Scenarios._calculate_scenario_pnl
      (Scenarios.init (BlackScholes.init 100 110 (35 / 365) 0.045 0.30 0.35)
                      2.5 10)
      (-0.15) 0.20 7 = Ok v.
Proof.
  set (eng := Scenarios.init
                (BlackScholes.init 100 110 (35 / 365) 0.045 0.30 0.35) 2.5 10).
  set (s := {| Scenarios.name := "Crash"; Scenarios.stock_chg := -0.15;
               Scenarios.vol_chg := 0.20; Scenarios.days := 7 |}).
  assert (Hin : In s Scenarios.scenarios).
  { unfold Scenarios.scenarios. simpl. do 4 right. left. reflexivity. }
  assert (HS : 0 < Scenarios.S eng) by (simpl; lra).
  assert (HK : 0 < Scenarios.K eng) by (simpl; lra).
  pose proof (scenario_inputs_safe eng s Hin HS HK) as H.
  eexists. apply H.
Defined.

(** ** C3: best and worst scenario *)

Section BestWorst.

Import Scenarios.

(** [x] is the first entry of [l] with the least P&L. *)
Definition first_min (x : scenario_result) (l : list scenario_result) :=
  exists l1 l2, l = l1 ++ x :: l2 /\
    (forall y, In y l1 -> pnl x < pnl y) /\
    (forall y, In y l2 -> pnl x <= pnl y).

(** [x] is the first entry of [l] with the greatest P&L. *)
Definition first_max (x : scenario_result) (l : list scenario_result) :=
  exists l1 l2, l = l1 ++ x :: l2 /\
    (forall y, In y l1 -> pnl y < pnl x) /\
    (forall y, In y l2 -> pnl y <= pnl x).

(** [x] is the last entry of [l] with the greatest P&L. *)
Definition last_max (x : scenario_result) (l : list scenario_result) :=
  exists l1 l2, l = l1 ++ x :: l2 /\
    (forall y, In y l1 -> pnl y <= pnl x) /\
    (forall y, In y l2 -> pnl y < pnl x).

Lemma first_min_least x l : first_min x l ->
  In x l /\ forall y, In y l -> pnl x <= pnl y.
Proof.
  intros [l1 [l2 [E [H1 H2]]]]. subst l. split.
  - apply in_or_app. right. left. reflexivity.
  - intros y Hy. apply in_app_or in Hy. destruct Hy as [Hy | [Hy | Hy]].
    + left. now apply H1.
    + subst. lra.
    + now apply H2.
Qed.

Lemma last_max_greatest x l : last_max x l ->
  In x l /\ forall y, In y l -> pnl y <= pnl x.
Proof.
  intros [l1 [l2 [E [H1 H2]]]]. subst l. split.
  - apply in_or_app. right. left. reflexivity.
  - intros y Hy. apply in_app_or in Hy. destruct Hy as [Hy | [Hy | Hy]].
    + now apply H1.
    + subst. lra.
    + left. now apply H2.
Qed.

Lemma in_insert a y s : In y (insert a s) <-> y = a \/ In y s.
Proof.
  induction s as [ | z s IH]; simpl.
  - intuition.
  - destruct (Rlt_dec (pnl z) (pnl a)); simpl; rewrite ?IH; intuition.
Qed.

Lemma in_sorted y l : In y (sorted l) <-> In y l.
Proof.
  induction l as [ | a l IH]; simpl.
  - reflexivity.
  - rewrite in_insert, IH. intuition.
Qed.

Lemma insert_not_nil a s : insert a s <> [].
Proof.
  destruct s as [ | z s]; simpl; [discriminate | ].
  destruct (Rlt_dec (pnl z) (pnl a)); discriminate.
Qed.

Lemma first_of_insert a s :
  first_of (insert a s)
  = match s with
    | [] => Ok a
    | z :: _ => if Rlt_dec (pnl z) (pnl a) then Ok z else Ok a
    end.
Proof.
  destruct s as [ | z s]; simpl; [reflexivity | ].
  destruct (Rlt_dec (pnl z) (pnl a)); reflexivity.
Qed.

Lemma last_of_cons z s : s <> [] -> last_of (z :: s) = last_of s.
Proof. destruct s; [contradiction | reflexivity]. Qed.

Lemma last_of_insert_all a s :
  (forall y, In y s -> pnl y < pnl a) -> last_of (insert a s) = Ok a.
Proof.
  induction s as [ | z s IH]; intro H; simpl; [reflexivity | ].
  destruct (Rlt_dec (pnl z) (pnl a)) as [L | N].
  - rewrite last_of_cons by apply insert_not_nil.
    apply IH. intros y Hy. apply H. now right.
  - exfalso. apply N, H. now left.
Qed.

Lemma last_of_insert_some a s x :
  last_of s = Ok x -> pnl a <= pnl x ->
  last_of (insert a s) = Ok x.
Proof.
  induction s as [ | z s IH]; intros Hl Hx; [discriminate | ].
  simpl insert. destruct (Rlt_dec (pnl z) (pnl a)) as [L | N].
  - rewrite last_of_cons by apply insert_not_nil.
    destruct s as [ | z' s'].
    + simpl in Hl. injection Hl as ->. lra.
    + apply IH; [ | exact Hx]. exact Hl.
  - rewrite last_of_cons by discriminate. exact Hl.
Qed.

Lemma sorted_nil_iff l : sorted l = [] <-> l = [].
Proof.
  destruct l as [ | a l]; simpl; [tauto | ].
  split; [ | discriminate]. intro H. now apply insert_not_nil in H.
Qed.

Lemma worst_first_min l x : first_of (sorted l) = Ok x -> first_min x l.
Proof.
  revert x. induction l as [ | a l IH]; intros x H; [discriminate | ].
  change (sorted (a :: l)) with (insert a (sorted l)) in H.
  rewrite first_of_insert in H.
  destruct (sorted l) as [ | z s] eqn:Es.
  - apply (proj1 (sorted_nil_iff _)) in Es. subst l. injection H as <-.
    exists [], []. repeat split; intros y [].
  - specialize (IH z eq_refl).
    destruct (first_min_least _ _ IH) as [_ Hz].
    destruct (Rlt_dec (pnl z) (pnl a)) as [L | N]; injection H as <-.
    + destruct IH as [l1 [l2 [E [H1 H2]]]].
      exists (a :: l1), l2. subst l. repeat split; try assumption.
      intros y [<- | Hy]; [exact L | now apply H1].
    + exists [], l. repeat split; [intros y [] | ].
      intros y Hy. specialize (Hz y Hy). lra.
Qed.

Lemma best_last_max l x : last_of (sorted l) = Ok x -> last_max x l.
Proof.
  revert x. induction l as [ | a l IH]; intros x H; [discriminate | ].
  change (sorted (a :: l)) with (insert a (sorted l)) in H.
  destruct (last_of (sorted l)) as [z | e] eqn:El.
  - specialize (IH z eq_refl).
    destruct (last_max_greatest _ _ IH) as [_ Hz].
    destruct (Rlt_dec (pnl z) (pnl a)) as [L | N].
    + rewrite last_of_insert_all in H.
      * injection H as <-. exists [], l. repeat split; [intros y [] | ].
        intros y Hy. specialize (Hz y Hy). lra.
      * intros y Hy. apply (proj1 (in_sorted y l)) in Hy. specialize (Hz y Hy). lra.
    + rewrite (last_of_insert_some a (sorted l) z El) in H by lra.
      injection H as <-.
      destruct IH as [l1 [l2 [E [H1 H2]]]].
      exists (a :: l1), l2. subst l. repeat split; try assumption.
      intros y [<- | Hy]; [lra | now apply H1].
  - assert (En : sorted l = []).
    { destruct (sorted l) as [ | z s] eqn:Es; [reflexivity | ].
      exfalso. clear - El. revert z El.
      induction s as [ | z' s IHs]; intros z El; [discriminate | ].
      apply (IHs z'). exact El. }
    rewrite En in H. simpl in H. injection H as <-.
    apply (proj1 (sorted_nil_iff _)) in En. subst l.
    exists [], []. repeat split; intros y [].
Qed.

Lemma run_loop_names eng l rs :
  run_loop eng l = Ok rs -> map res_name rs = map name l.
Proof.
  revert rs. induction l as [ | s l IH]; intros rs H; simpl in H.
  - injection H as <-. reflexivity.
  - destruct (run_scenario eng s) as [x | e] eqn:Ex; [ | discriminate].
    simpl in H.
    destruct (run_loop eng l) as [xs | e] eqn:Exs; [ | discriminate].
    simpl in H. injection H as <-. simpl. f_equal; [ | now apply IH].
    unfold run_scenario in Ex.
    destruct (_calculate_scenario_pnl _ _ _ _); [ | discriminate].
    simpl in Ex. destruct (Py.truediv _ _); [ | discriminate].
    simpl in Ex. injection Ex as <-. reflexivity.
Qed.

Lemma run_scenario_ok eng s :
  In s scenarios -> 0 < S eng -> 0 < K eng ->
  market_price eng * 100 * IZR (num_contracts eng) <> 0 ->
  exists x, run_scenario eng s = Ok x.
Proof.
  intros Hin HS HK Hd. unfold run_scenario, _calculate_scenario_pnl.
  pose proof (scenarios_stock_chg s Hin).
  rewrite new_price_ok by (try assumption; lra). simpl.
  rewrite truediv_ok by exact Hd. simpl. eexists. reflexivity.
Qed.

Lemma run_loop_ok eng l :
  (forall s, In s l -> In s scenarios) -> 0 < S eng -> 0 < K eng ->
  market_price eng * 100 * IZR (num_contracts eng) <> 0 ->
  exists rs, run_loop eng l = Ok rs /\ List.length rs = List.length l.
Proof.
  intros Hl HS HK Hd. induction l as [ | s l IH]; simpl.
  - exists []. split; reflexivity.
  - destruct (run_scenario_ok eng s) as [x Ex]; try assumption.
    { apply Hl. now left. }
    destruct IH as [rs [Ers Hlen]].
    { intros s' Hs'. apply Hl. now right. }
    rewrite Ex, Ers. simpl. exists (x :: rs). split; [reflexivity | ].
    simpl. now rewrite Hlen.
Qed.

Lemma select_ok rs : rs <> [] -> exists rep, select rs = Ok rep.
Proof.
  intro Hn. unfold select.
  destruct (sorted rs) as [ | z s] eqn:Es.
  - apply (proj1 (sorted_nil_iff _)) in Es. contradiction.
  - assert (Hl : exists x, last_of (z :: s) = Ok x).
    { clear. revert z. induction s as [ | z' s IH]; intro z.
      - exists z. reflexivity.
      - destruct (IH z') as [x Hx]. exists x. exact Hx. }
    destruct Hl as [x Hx]. cbn [first_of bind]. rewrite Hx.
    cbn [bind]. eexists. reflexivity.
Qed.

End BestWorst.

(** C3, as amended.  [run] returns normally for every engine with [S > 0],
    [K > 0] and a non-zero position value; whenever it returns, its results
    are the seven scenarios in list order, the reported worst is the first
    result attaining the minimum P&L, and the reported best is the last
    result attaining the maximum P&L: among results tied for the maximum the
    one occurring last in the list is reported. *)
Theorem run_best_worst (eng : Scenarios.ScenarioEngine) :
  (0 < Scenarios.S eng -> 0 < Scenarios.K eng ->
   Scenarios.market_price eng * 100 * IZR (Scenarios.num_contracts eng) <> 0 ->
   exists rep, Scenarios.run eng = Ok rep) /\
  forall rep, Scenarios.run eng = Ok rep ->
    map Scenarios.res_name (Scenarios.all rep)
    = map Scenarios.name Scenarios.scenarios /\
    List.length (Scenarios.all rep) = 7%nat /\
    (In (Scenarios.worst rep) (Scenarios.all rep) /\
     forall y, In y (Scenarios.all rep) ->
               Scenarios.pnl (Scenarios.worst rep) <= Scenarios.pnl y) /\
    (In (Scenarios.best rep) (Scenarios.all rep) /\
     forall y, In y (Scenarios.all rep) ->
               Scenarios.pnl y <= Scenarios.pnl (Scenarios.best rep)) /\
    first_min (Scenarios.worst rep) (Scenarios.all rep) /\
    last_max (Scenarios.best rep) (Scenarios.all rep).
Proof.
  split.
  - intros HS HK Hd. unfold Scenarios.run.
    destruct (run_loop_ok eng Scenarios.scenarios) as [rs [Ers Hlen]];
      try assumption; [auto | ].
    rewrite Ers. cbn [bind]. apply select_ok.
    intro E. subst rs. discriminate.
  - intros rep H. unfold Scenarios.run in H.
    destruct (Scenarios.run_loop eng Scenarios.scenarios) as [rs | e] eqn:Ers;
      [ | discriminate].
    cbn [bind] in H. unfold Scenarios.select in H.
    destruct (Scenarios.first_of (Scenarios.sorted rs)) as [w | e] eqn:Ew;
      [ | discriminate].
    cbn [bind] in H.
    destruct (Scenarios.last_of (Scenarios.sorted rs)) as [b | e] eqn:Eb;
      [ | discriminate].
    cbn [bind] in H. injection H as <-.
    cbn [Scenarios.all Scenarios.best Scenarios.worst].
    pose proof (worst_first_min rs w Ew) as Hw.
    pose proof (best_last_max rs b Eb) as Hb.
    pose proof (run_loop_names eng _ rs Ers) as Hn.
    split; [exact Hn | ]. split.
    { rewrite <- (length_map Scenarios.res_name), Hn. reflexivity. }
    split; [now apply first_min_least | ].
    split; [now apply last_max_greatest | ].
    split; assumption.
Qed.

Lemma run_best_worst_witness :
  exists rep,
    Scenarios.run
      (Scenarios.init (BlackScholes.init 100 110 (35 / 365) 0.045 0.30 0.35)
                      2.5 10) = Ok rep /\
    last_max (Scenarios.best rep) (Scenarios.all rep).
Proof.
  set (eng := Scenarios.init
                (BlackScholes.init 100 110 (35 / 365) 0.045 0.30 0.35) 2.5 10).
  destruct (run_best_worst eng) as [Hex Hall].
  destruct Hex as [rep Hrep]; try (simpl; lra).
  exists rep. split; [exact Hrep | ]. apply (Hall rep Hrep).
Defined.

(** The results of a position whose seven repriced values coincide: every
    P&L is [(0 - 1) * 100 * 10 = -1000].  Double-precision evaluation yields
    these results far out of the money (for instance [S = 100], [K = 1000],
    [T = 0.1], [r = 0.045], [sigma = 0.2], market price [1], 10 contracts),
    where every repriced value underflows to [0.0]. *)
Definition tied_results : list Scenarios.scenario_result :=
  map (fun s => {| Scenarios.res_name := Scenarios.name s;
                   Scenarios.stock_change := Scenarios.stock_chg s * 100;
                   Scenarios.vol_change := Scenarios.vol_chg s * 100;
                   Scenarios.pnl := -1000;
                   Scenarios.pnl_pct := -100 |})
      Scenarios.scenarios.

(** On [tied_results] the tail of [run] reports ["Vol Crush"], the last of
    the tied results, as best, not the first one (["Bull Rally"], which it
    reports as worst). *)
Lemma tied_results_best :
  exists rep,
    Scenarios.select tied_results = Ok rep /\
    Scenarios.res_name (Scenarios.best rep) = "Vol Crush"%string /\
    Scenarios.res_name (Scenarios.worst rep) = "Bull Rally"%string /\
    (forall y, In y tied_results ->
               Scenarios.pnl y = Scenarios.pnl (Scenarios.best rep)) /\
    ~ first_max (Scenarios.best rep) tied_results.
Proof.
  unfold Scenarios.select, Scenarios.sorted, tied_results. simpl.
  repeat (destruct (Rlt_dec (-1000) (-1000)) as [L | _]; [lra | ]; simpl).
  eexists. split; [reflexivity | ]. simpl.
  split; [reflexivity | ]. split; [reflexivity | ]. split.
  - intros y Hy. repeat (destruct Hy as [<- | Hy]; [reflexivity | ]).
    destruct Hy.
  - intros [l1 [l2 [E [H1 _]]]].
    destruct l1 as [ | y1 l1]; simpl in E.
    + injection E as E _. discriminate E.
    + injection E as E _. specialize (H1 y1 (or_introl eq_refl)).
      subst y1. simpl in H1. lra.
Qed.

(** ** C6: the rolling history *)

Section RollingHistory.

Import Volatility.

Lemma rolling_std_length w l : List.length (rolling_std w l) = List.length l.
Proof. unfold rolling_std. now rewrite length_map, length_seq. Qed.

Lemma rolling_vol_length w l : List.length (rolling_vol w l) = List.length l.
Proof. unfold rolling_vol. now rewrite length_map, rolling_std_length. Qed.

Lemma rolling_vol_nth w l i :
  (i < List.length l)%nat ->
  nth_error (rolling_vol w l) i
  = Some (if (w <=? i + 1)%nat
          then Some (std (window_at w i l) * sqrt 252)
          else None).
Proof.
  intro Hi. unfold rolling_vol, rolling_std.
  rewrite nth_error_map, nth_error_map.
  rewrite nth_error_seq. 
  destruct (i <? List.length l)%nat eqn:E.
  - simpl. destruct (w <=? i + 1)%nat; reflexivity.
  - apply Nat.ltb_ge in E. lia.
Qed.

Lemma iloc_last_ok (s : series) :
  s <> [] -> exists x, iloc_last s = Ok x /\ nth_error s (List.length s - 1) = Some x.
Proof.
  induction s as [ | a s IH]; intro Hn; [contradiction | ].
  destruct s as [ | b s].
  - exists a. split; reflexivity.
  - destruct IH as [x [E1 E2]]; [discriminate | ].
    exists x. split; [exact E1 | ].
    simpl List.length in *. replace (S (S (List.length s)) - 1)%nat
      with (S (S (List.length s) - 1)) by lia. exact E2.
Qed.

End RollingHistory.

(** C6, as amended.  For every return series and every window [w >= 1],
    in particular 21, 63 and 252, the rolling-volatility column has exactly
    one entry per position of the series; its first [w - 1] entries are NaN
    (undefined, never a number and so never zero) and are kept in the
    output, and every later entry is the annualised standard deviation of
    the [w] returns ending there.  The reported history holds these columns
    for 21, 63 and 252, and [_calculate_historical_vol] returns normally on
    every non-empty series. *)
Theorem rolling_history_spec (self : Volatility.VolatilityAnalyzer) (w : nat) :
  let l := Volatility.returns self in
  List.length (Volatility.rolling_vol w l) = List.length l /\
  (forall i, (i < List.length l)%nat -> (i < w - 1)%nat ->
             nth_error (Volatility.rolling_vol w l) i = Some None) /\
  (forall i, (i < List.length l)%nat -> (w - 1 <= i)%nat -> (1 <= w)%nat ->
             nth_error (Volatility.rolling_vol w l) i
             = Some (Some (Volatility.std (Volatility.window_at w i l)
                           * sqrt 252))) /\
  (l <> [] ->
   exists hv, Volatility._calculate_historical_vol self = Ok hv /\
     Volatility.col_hv_21d (Volatility.hv_history hv)
     = Volatility.rolling_vol 21 l /\
     Volatility.col_hv_63d (Volatility.hv_history hv)
     = Volatility.rolling_vol 63 l /\
     Volatility.col_hv_252d (Volatility.hv_history hv)
     = Volatility.rolling_vol 252 l).
Proof.
  intro l. split; [apply rolling_vol_length | ]. split; [ | split].
  - intros i Hi Hw. rewrite rolling_vol_nth by exact Hi.
    destruct (w <=? i + 1)%nat eqn:E; [ | reflexivity].
    apply Nat.leb_le in E. lia.
  - intros i Hi Hw H1. rewrite rolling_vol_nth by exact Hi.
    destruct (w <=? i + 1)%nat eqn:E; [reflexivity | ].
    apply Nat.leb_gt in E. lia.
  - intro Hn. unfold Volatility._calculate_historical_vol. fold l.
    cbn [Volatility.col_hv_21d Volatility.col_hv_63d Volatility.col_hv_252d].
    assert (Hne : forall w', Volatility.rolling_vol w' l <> []).
    { intros w' E. apply (f_equal (@List.length _)) in E.
      rewrite rolling_vol_length in E. destruct l; [contradiction | discriminate]. }
    destruct (iloc_last_ok _ (Hne 21%nat)) as [x1 [E1 _]].
    destruct (iloc_last_ok _ (Hne 63%nat)) as [x2 [E2 _]].
    destruct (iloc_last_ok _ (Hne 252%nat)) as [x3 [E3 _]].
    rewrite E1, E2, E3. cbn [bind]. eexists. split; [reflexivity | ].
    repeat split.
Qed.

(** A series of 21 returns, all zero. *)
Definition flat_returns_21 : Volatility.VolatilityAnalyzer :=
  Volatility.init (repeat (Some 0) 21).

Lemma rolling_history_spec_witness :
  nth_error (Volatility.rolling_vol 21 (Volatility.returns flat_returns_21)) 3
  = Some None.
Proof.
  apply (rolling_history_spec flat_returns_21 21); simpl; lia.
Defined.

(** C6 as stated fails: for a series of 21 returns the 21-day column of the
    reported history has 21 entries, not one; position 0, among the first
    20, has an entry, and that entry is NaN. *)
Lemma rolling_history_counterexample :
  exists hv,
    Volatility._calculate_historical_vol flat_returns_21 = Ok hv /\
    List.length (Volatility.col_hv_21d (Volatility.hv_history hv)) = 21%nat /\
    nth_error (Volatility.col_hv_21d (Volatility.hv_history hv)) 0
    = Some None /\
    List.length (Volatility.dropna
                   (Volatility.col_hv_21d (Volatility.hv_history hv))) = 1%nat.
Proof.
  unfold Volatility._calculate_historical_vol, flat_returns_21.
  simpl. eexists. split; [reflexivity | ]. simpl. repeat split.
Qed.

(** ** C5: the volatility regime *)

Section Regime.

Import Volatility.

(** The number of entries of [l] equal to [c]. *)
Definition count_eq (c : R) (l : list R) : nat :=
  List.length (filter (fun x => if Req_dec_T x c then true else false) l).

(** The number of entries of [l] strictly below [c]. *)
Definition count_lt (c : R) (l : list R) : nat :=
  List.length (filter (lt_current (Some c)) l).

Lemma count_lt_eq_max c l :
  (forall x, In x l -> x <= c) ->
  (count_lt c l + count_eq c l = List.length l)%nat.
Proof.
  unfold count_lt, count_eq. induction l as [ | a l IH]; intro H.
  - reflexivity.
  - specialize (IH (fun x Hx => H x (or_intror Hx))).
    specialize (H a (or_introl eq_refl)). simpl.
    destruct (Rlt_dec a c), (Req_dec_T a c); simpl; try lra; lia.
Qed.

Lemma count_lt_le c l : (count_lt c l <= List.length l)%nat.
Proof. unfold count_lt. apply filter_length_le. Qed.

Lemma percentile_of_some c l :
  l <> [] ->
  percentile_of l (Some c)
  = Some (INR (count_lt c l) / INR (List.length l) * 100).
Proof. destruct l; [contradiction | reflexivity]. Qed.

Lemma label_of_high p : label_of p = HIGH <-> exists v, p = Some v /\ v > 80.
Proof.
  unfold label_of. destruct p as [v | ].
  - destruct (Rgt_dec v 80).
    + split; [exists v; auto | reflexivity].
    + destruct (Rlt_dec v 20); (split; [discriminate | ]);
        intros [v' [E Hv]]; injection E as ->; lra.
  - split; [discriminate | intros [v [E _]]; discriminate].
Qed.

Lemma label_of_low p : label_of p = LOW <-> exists v, p = Some v /\ v < 20.
Proof.
  unfold label_of. destruct p as [v | ].
  - destruct (Rgt_dec v 80).
    + split; [discriminate | intros [v' [E Hv]]; injection E as ->; lra].
    + destruct (Rlt_dec v 20).
      * split; [exists v; auto | reflexivity].
      * split; [discriminate | intros [v' [E Hv]]; injection E as ->; lra].
  - split; [discriminate | intros [v [E _]]; discriminate].
Qed.

Lemma label_of_normal p :
  label_of p = NORMAL <->
  (p = None \/ exists v, p = Some v /\ 20 <= v <= 80).
Proof.
  unfold label_of. destruct p as [v | ].
  - destruct (Rgt_dec v 80).
    + split; [discriminate | ].
      intros [E | [v' [E Hv]]]; [discriminate | injection E as ->; lra].
    + destruct (Rlt_dec v 20).
      * split; [discriminate | ].
        intros [E | [v' [E Hv]]]; [discriminate | injection E as ->; lra].
      * split; [ | reflexivity]. intros _. right. exists v. split; [reflexivity | lra].
  - split; [now left | reflexivity].
Qed.

End Regime.

(** C5, as amended.  With [all_hv] the defined points of the rolling 21-day
    annualised volatility and [n] their number, the regime percentile for a
    current value [c] is [100] times the fraction of [all_hv] strictly below
    [c].  When [c] is the maximum of [all_hv] and is attained [k] times, the
    percentile is [100 * (n - k) / n]; it is [100 * (n - 1) / n] exactly in
    the case [k = 1], where no earlier point equals the maximum.  The label
    is [HIGH] exactly when the percentile exceeds 80, [LOW] exactly when it
    is below 20, and [NORMAL] otherwise.  [analyze] classifies the last
    entry of the 21-day column. *)
Theorem regime_spec (self : Volatility.VolatilityAnalyzer) (c : R) :
  let all_hv := Volatility.dropna
                  (Volatility.rolling_vol 21 (Volatility.returns self)) in
  let n := List.length all_hv in
  let reg := Volatility._determine_regime self (Some c) in
  (all_hv <> [] ->
   Volatility.percentile reg = Some (INR (count_lt c all_hv) / INR n * 100)) /\
  (all_hv <> [] -> (forall x, In x all_hv -> x <= c) ->
   Volatility.percentile reg
   = Some (100 * (INR n - INR (count_eq c all_hv)) / INR n)) /\
  (all_hv <> [] -> (forall x, In x all_hv -> x <= c) ->
   count_eq c all_hv = 1%nat ->
   Volatility.percentile reg = Some (100 * (INR n - 1) / INR n)) /\
  (Volatility.label reg = Volatility.HIGH
   <-> exists p, Volatility.percentile reg = Some p /\ p > 80) /\
  (Volatility.label reg = Volatility.LOW
   <-> exists p, Volatility.percentile reg = Some p /\ p < 20) /\
  (Volatility.label reg = Volatility.NORMAL
   <-> (Volatility.percentile reg = None \/
        exists p, Volatility.percentile reg = Some p /\ 20 <= p <= 80)) /\
  (forall m, Volatility.analyze self = Ok m ->
     Volatility.iloc_last (Volatility.rolling_vol 21 (Volatility.returns self))
     = Ok (Volatility.m_hv_21d m) /\
     Volatility.m_percentile m
     = Volatility.percentile
         (Volatility._determine_regime self (Volatility.m_hv_21d m)) /\
     Volatility.m_regime m
     = Volatility.label
         (Volatility._determine_regime self (Volatility.m_hv_21d m))).
Proof.
  intros all_hv n reg.
  assert (Hmax : all_hv <> [] -> (forall x, In x all_hv -> x <= c) ->
                 Volatility.percentile reg
                 = Some (100 * (INR n - INR (count_eq c all_hv)) / INR n)).
  { intros Hn Hm. unfold reg, Volatility._determine_regime.
    cbn [Volatility.percentile]. fold all_hv.
    rewrite percentile_of_some by exact Hn. f_equal. fold n.
    pose proof (count_lt_eq_max c all_hv Hm) as E. fold n in E.
    assert (E' : INR (count_lt c all_hv) = INR n - INR (count_eq c all_hv)).
    { rewrite <- E, plus_INR. ring. }
    rewrite E'. unfold Rdiv. ring. }
  split; [ | split; [exact Hmax | split; [ | split; [ | split; [ | split]]]]].
  - intro Hn. unfold reg, Volatility._determine_regime.
    cbn [Volatility.percentile]. fold all_hv.
    now rewrite percentile_of_some.
  - intros Hn Hm Hk. rewrite (Hmax Hn Hm), Hk. reflexivity.
  - apply label_of_high.
  - apply label_of_low.
  - apply label_of_normal.
  - intros m H. unfold Volatility.analyze in H.
    destruct (Volatility._calculate_historical_vol self) as [hv | e] eqn:Ehv;
      [ | discriminate].
    cbn [bind] in H. injection H as <-.
    cbn [Volatility.m_hv_21d Volatility.m_percentile Volatility.m_regime].
    split; [ | split; reflexivity].
    unfold Volatility._calculate_historical_vol in Ehv.
    cbn [Volatility.col_hv_21d Volatility.col_hv_63d Volatility.col_hv_252d]
      in Ehv.
    destruct (Volatility.iloc_last (Volatility.rolling_vol 21 _))
      as [x1 | e]; [ | discriminate].
    cbn [bind] in Ehv.
    destruct (Volatility.iloc_last (Volatility.rolling_vol 63 _))
      as [x2 | e]; [ | discriminate].
    cbn [bind] in Ehv.
    destruct (Volatility.iloc_last (Volatility.rolling_vol 252 _))
      as [x3 | e]; [ | discriminate].
    cbn [bind] in Ehv. injection Ehv as <-. reflexivity.
Qed.

(** A series of 22 returns, all zero: its rolling 21-day volatility has two
    defined points, both zero. *)
Definition flat_returns_22 : Volatility.VolatilityAnalyzer :=
  Volatility.init (repeat (Some 0) 22).

Lemma sum_zeros (k : nat) : Volatility.sum (repeat 0 k) = 0.
Proof.
  unfold Volatility.sum.
  induction k as [ | k IH]; simpl; [reflexivity | rewrite IH; ring].
Qed.

Lemma std_zeros (k : nat) : Volatility.std (repeat 0 k) = 0.
Proof.
  unfold Volatility.std, Volatility.mean. rewrite sum_zeros.
  assert (E : forall m j, m = 0 ->
                map (fun x => (x - m) ^ 2) (repeat 0 j) = repeat 0 j).
  { intros m j ->. induction j as [ | j IH]; cbn [map repeat]; [reflexivity | ].
    rewrite IH. f_equal. ring. }
  rewrite (E _ k) by (unfold Rdiv; ring).
  rewrite sum_zeros. unfold Rdiv. rewrite Rmult_0_l. apply sqrt_0.
Qed.

Lemma flat_rolling_vol :
  Volatility.rolling_vol 21 (Volatility.returns flat_returns_22)
  = repeat None 20 ++ [Some 0; Some 0].
Proof.
  unfold Volatility.rolling_vol, Volatility.rolling_std. simpl.
  change (Volatility.window_at 21 20 _) with (repeat 0 21).
  change (Volatility.window_at 21 21 _) with (repeat 0 21).
  rewrite std_zeros. rewrite Rmult_0_l. reflexivity.
Qed.

Lemma flat_analyze :
  exists m,
    Volatility.analyze flat_returns_22 = Ok m /\
    Volatility.m_hv_21d m = Some 0 /\
    Volatility.m_percentile m
    = Volatility.percentile
        (Volatility._determine_regime flat_returns_22 (Some 0)).
Proof.
  unfold Volatility.analyze, Volatility._calculate_historical_vol.
  cbn [Volatility.col_hv_21d Volatility.col_hv_63d Volatility.col_hv_252d].
  rewrite flat_rolling_vol.
  change (Volatility.iloc_last (repeat None 20 ++ [Some 0; Some 0]))
    with (@Ok (option R) (Some 0)).
  cbn [bind].
  change (Volatility.iloc_last
            (Volatility.rolling_vol 63 (Volatility.returns flat_returns_22)))
    with (@Ok (option R) None).
  change (Volatility.iloc_last
            (Volatility.rolling_vol 252 (Volatility.returns flat_returns_22)))
    with (@Ok (option R) None).
  cbn [bind]. eexists. split; [reflexivity | ]. split; reflexivity.
Qed.

Lemma flat_all_hv :
  Volatility.dropna
    (Volatility.rolling_vol 21 (Volatility.returns flat_returns_22)) = [0; 0].
Proof. rewrite flat_rolling_vol. reflexivity. Qed.

Lemma flat_counts :
  count_lt 0 [0; 0] = 0%nat /\ count_eq 0 [0; 0] = 2%nat.
Proof.
  unfold count_lt, count_eq. simpl.
  destruct (Rlt_dec 0 0); [lra | ].
  destruct (Req_dec_T 0 0); [ | contradiction]. split; reflexivity.
Qed.

Lemma regime_spec_witness :
  Volatility.percentile
    (Volatility._determine_regime flat_returns_22 (Some 0))
  = Some (100 * (INR 2 - INR 2) / INR 2).
Proof.
  destruct (regime_spec flat_returns_22 0) as [_ [H _]].
  rewrite flat_all_hv in H. destruct flat_counts as [_ Ek].
  rewrite Ek in H. apply H.
  - discriminate.
  - intros x [<- | [<- | []]]; lra.
Defined.

(** C5 as stated fails when the maximum is attained more than once: on 22
    zero returns the rolling history has [n = 2] defined points, the current
    value [0] equals their maximum, and the percentile is [0], not
    [100 * (2 - 1) / 2 = 50]. *)
Lemma regime_counterexample :
  exists m,
    Volatility.analyze flat_returns_22 = Ok m /\
    Volatility.m_hv_21d m = Some 0 /\
    Volatility.dropna
      (Volatility.rolling_vol 21 (Volatility.returns flat_returns_22))
    = [0; 0] /\
    Volatility.m_percentile m = Some 0 /\
    Volatility.m_percentile m <> Some (100 * (2 - 1) / 2).
Proof.
  destruct flat_analyze as [m [E1 [E2 E3]]].
  exists m. split; [exact E1 | ]. split; [exact E2 | ].
  split; [exact flat_all_hv | ].
  assert (Ep : Volatility.m_percentile m = Some 0).
  { rewrite E3. unfold Volatility._determine_regime.
    cbn [Volatility.percentile]. rewrite flat_all_hv.
    rewrite percentile_of_some by discriminate.
    destruct flat_counts as [El _]. rewrite El. simpl INR.
    f_equal. unfold Rdiv. ring. }
  split; [exact Ep | ].
  rewrite Ep. intro H. injection H as H. lra.
Qed.

(** ** Contract selection: the first greatest score *)

Section Selection.

Import DataLoader.

(** [x] is the first row of [l] holding the greatest score. *)
Definition first_best (x : scored_row) (l : list scored_row) : Prop :=
  exists l1 l2, l = l1 ++ x :: l2 /\
    (forall y, In y l1 -> score y < score x) /\
    (forall y, In y l2 -> score y <= score x).

Lemma first_best_greatest x l :
  first_best x l -> In x l /\ forall y, In y l -> score y <= score x.
Proof.
  intros [l1 [l2 [E [H1 H2]]]]. subst l. split.
  - apply in_or_app. right. now left.
  - intros y Hy. apply in_app_or in Hy. destruct Hy as [Hy | [<- | Hy]].
    + left. now apply H1.
    + lra.
    + now apply H2.
Qed.

Lemma argmax_from_first_best best l :
  first_best (argmax_from best l) (best :: l).
Proof.
  revert best. induction l as [ | a l IH]; intro best; simpl.
  - exists [], []. repeat split; intros y [].
  - destruct (Rlt_dec (score best) (score a)) as [L | N].
    + specialize (IH a).
      destruct (first_best_greatest _ _ IH) as [_ Hg].
      destruct IH as [l1 [l2 [E [H1 H2]]]].
      exists (best :: l1), l2. rewrite E. repeat split; try assumption.
      intros y [<- | Hy]; [ | now apply H1].
      specialize (Hg a (or_introl eq_refl)). lra.
    + specialize (IH best).
      destruct IH as [l1 [l2 [E [H1 H2]]]].
      destruct l1 as [ | b l1]; simpl in E.
      * injection E as E1 E2. exists [], (a :: l).
        rewrite <- E1. repeat split; [intros y [] | ].
        intros y [<- | Hy]; [lra | ]. rewrite E1. apply H2.
        rewrite <- E2. exact Hy.
      * injection E as E1 E2. subst b.
        exists (best :: a :: l1), l2.
        split; [simpl; do 2 f_equal; exact E2 | split; [ | exact H2]].
        intros y [<- | [<- | Hy]].
        -- apply H1. now left.
        -- assert (score best < score (argmax_from best l))
             by (apply H1; now left). lra.
        -- apply H1. now right.
Qed.

Lemma strict_iff cfg o :
  strict cfg o = true <->
  MIN_OTM_PCT cfg <= pct_otm o <= MAX_OTM_PCT cfg /\
  (openInterest (row o) > MIN_OPEN_INTEREST cfg)%Z.
Proof.
  unfold strict.
  destruct (Rge_dec (pct_otm o) (MIN_OTM_PCT cfg)),
           (Rle_dec (pct_otm o) (MAX_OTM_PCT cfg)); simpl;
    try (split; [discriminate | intros [[? ?] _]; lra]).
  rewrite Z.ltb_lt. split; [intro; split; [lra | lia] | intros [_ ?]; lia].
Qed.

Lemma relaxed_iff o : relaxed o = true <-> (openInterest (row o) > 50)%Z.
Proof. unfold relaxed. rewrite Z.ltb_lt. lia. Qed.

Lemma filtered_cases cfg otm :
  (filter (strict cfg) otm <> [] /\
   filtered cfg otm = filter (strict cfg) otm)
  \/ (filter (strict cfg) otm = [] /\ filtered cfg otm = filter relaxed otm).
Proof.
  unfold filtered. destruct (filter (strict cfg) otm) eqn:E; simpl.
  - right. split; reflexivity.
  - left. split; [discriminate | reflexivity].
Qed.

End Selection.

(** ** Calculus of the pricing formula *)

Section PricingCalculus.

Import ErrorFunction BlackScholes.

Lemma sqrt_2_pos : 0 < sqrt 2.0.
Proof. apply sqrt_lt_R0. lra. Qed.

Lemma sqrt_2_sqr : sqrt 2.0 * sqrt 2.0 = 2.
Proof. rewrite sqrt_sqrt; lra. Qed.

(** The density is the derivative of the distribution function. *)
Lemma derivable_pt_lim_norm_cdf (x : R) :
  derivable_pt_lim norm_cdf x (norm_pdf x).
Proof.
  pose proof sqrt_2_pos as H2. pose proof sqrt_2_sqr as Q2.
  pose proof sqrt_PI_pos as Hp.
  assert (D1 : derivable_pt_lim (fun y => y / sqrt 2.0) x (1 / sqrt 2.0)).
  { apply (derivable_pt_lim_div_scal id x 1 (sqrt 2.0)), derivable_pt_lim_id. }
  assert (D2 : derivable_pt_lim (fun y => erf (y / sqrt 2.0)) x
                 (2 / sqrt PI * gauss (x / sqrt 2.0) * (1 / sqrt 2.0))).
  { apply (derivable_pt_lim_comp (fun y => y / sqrt 2.0) erf);
      [exact D1 | apply derivable_pt_lim_erf]. }
  assert (D3 : derivable_pt_lim (fun y => 1.0 + erf (y / sqrt 2.0)) x
                 (0 + 2 / sqrt PI * gauss (x / sqrt 2.0) * (1 / sqrt 2.0))).
  { apply (derivable_pt_lim_plus (fct_cte 1.0)
                                 (fun y => erf (y / sqrt 2.0)));
      [apply derivable_pt_lim_const | exact D2]. }
  replace (norm_pdf x)
    with (0.5 * (0 + 2 / sqrt PI * gauss (x / sqrt 2.0) * (1 / sqrt 2.0))).
  - apply (derivable_pt_lim_scal (fun y => 1.0 + erf (y / sqrt 2.0)) 0.5).
    exact D3.
  - unfold norm_pdf, gauss.
    rewrite sqrt_mult by (pose proof PI_RGT_0; lra).
    replace (- (x / sqrt 2.0 * (x / sqrt 2.0))) with (- 0.5 * x * x).
    + replace 0.5 with (/ 2) by lra. field. lra.
    + replace (x / sqrt 2.0 * (x / sqrt 2.0))
        with (x * x / (sqrt 2.0 * sqrt 2.0)) by (field; lra).
      rewrite Q2. lra.
Qed.

(** The price in terms of the spot [s], the discounted strike [k] and the
    total volatility [w]. *)
Definition core (s k w : R) : R :=
  s * norm_cdf (ln (s / k) / w + w / 2)
  - k * norm_cdf (ln (s / k) / w - w / 2).

Lemma call_core (S K T r sigma : R) :
  0 < S -> 0 < K -> 0 < T -> 0 < sigma ->
  Formula.call S K T r sigma = core S (K * exp (- r * T)) (sigma * sqrt T).
Proof.
  intros HS HK HT Hs.
  assert (Hq : 0 < sqrt T) by now apply sqrt_lt_R0.
  assert (Q : sqrt T * sqrt T = T) by (apply sqrt_sqrt; lra).
  pose proof (exp_pos (- r * T)) as He.
  assert (El : ln (S / (K * exp (- r * T))) = ln (S / K) + r * T).
  { replace (S / (K * exp (- r * T))) with ((S / K) * exp (r * T)).
    - rewrite ln_mult; [now rewrite ln_exp | | apply exp_pos].
      now apply Rdiv_lt_0_compat.
    - replace (- r * T) with (- (r * T)) by ring. rewrite exp_Ropp.
      field. split; [ | lra]. pose proof (exp_pos (r * T)). lra. }
  unfold Formula.call, Formula.d2, Formula.d1, core. rewrite El.
  assert (E1 : (ln (S / K) + (r + 0.5 * sigma ^ 2) * T) / (sigma * sqrt T)
               = (ln (S / K) + r * T) / (sigma * sqrt T)
                 + sigma * sqrt T / 2).
  { set (q := sqrt T) in *. clearbody q. rewrite <- Q.
    replace 0.5 with (/ 2) by lra. field. lra. }
  rewrite E1. do 3 f_equal. lra.
Qed.

(** The identity [s * pdf d1 = k * pdf d2]. *)
Lemma pdf_identity (s k w : R) :
  0 < s -> 0 < k -> 0 < w ->
  s * norm_pdf (ln (s / k) / w + w / 2)
  = k * norm_pdf (ln (s / k) / w - w / 2).
Proof.
  intros Hs Hk Hw. unfold norm_pdf.
  set (L := ln (s / k)).
  assert (Hq : 0 < sqrt (2.0 * PI)).
  { apply sqrt_lt_R0. pose proof PI_RGT_0. lra. }
  assert (E : exp (- 0.5 * (L / w - w / 2) * (L / w - w / 2))
              = exp (- 0.5 * (L / w + w / 2) * (L / w + w / 2)) * (s / k)).
  { replace (s / k) with (exp L)
      by (unfold L; apply exp_ln; now apply Rdiv_lt_0_compat).
    rewrite <- exp_plus. f_equal.
    replace (- 0.5) with (- / 2) by lra. field. lra. }
  rewrite E. field. lra.
Qed.

(** The derivative of the price along a differentiable path of spot,
    discounted strike and total volatility. *)
Section CorePath.

Variables s k w : R -> R.
Variables t s' k' w' : R.
Hypothesis Ds : derivable_pt_lim s t s'.
Hypothesis Dk : derivable_pt_lim k t k'.
Hypothesis Dw : derivable_pt_lim w t w'.
Hypothesis Hs : 0 < s t.
Hypothesis Hk : 0 < k t.
Hypothesis Hw : 0 < w t.

Let L : R := ln (s t / k t).
Let u' : R := ((s' / s t - k' / k t) * w t - w' * L) / Rsqr (w t).

Lemma derivable_pt_lim_log_moneyness :
  derivable_pt_lim (fun y => ln (s y / k y)) t (s' / s t - k' / k t).
Proof.
  replace (s' / s t - k' / k t)
    with (/ (s t / k t) * ((s' * k t - k' * s t) / Rsqr (k t)))
    by (unfold Rsqr; field; lra).
  apply (derivable_pt_lim_comp (fun y => s y / k y) ln).
  - apply (derivable_pt_lim_div s k); [exact Ds | exact Dk | lra].
  - apply derivable_pt_lim_ln. now apply Rdiv_lt_0_compat.
Qed.

Lemma derivable_pt_lim_ratio :
  derivable_pt_lim (fun y => ln (s y / k y) / w y) t u'.
Proof.
  unfold u', L.
  apply (derivable_pt_lim_div (fun y => ln (s y / k y)) w);
    [apply derivable_pt_lim_log_moneyness | exact Dw | lra].
Qed.

Lemma derivable_pt_lim_half :
  derivable_pt_lim (fun y => w y / 2) t (w' / 2).
Proof. apply (derivable_pt_lim_div_scal w t w' 2), Dw. Qed.

Lemma derivable_pt_lim_core :
  derivable_pt_lim (fun y => core (s y) (k y) (w y)) t
    (s' * norm_cdf (L / w t + w t / 2)
     - k' * norm_cdf (L / w t - w t / 2)
     + s t * norm_pdf (L / w t + w t / 2) * w').
Proof.
  set (x1 := L / w t + w t / 2). set (x2 := L / w t - w t / 2).
  assert (D1 : derivable_pt_lim
                 (fun y => norm_cdf (ln (s y / k y) / w y + w y / 2)) t
                 (norm_pdf x1 * (u' + w' / 2))).
  { apply (derivable_pt_lim_comp
             (fun y => ln (s y / k y) / w y + w y / 2) norm_cdf).
    - apply (derivable_pt_lim_plus (fun y => ln (s y / k y) / w y)
                                   (fun y => w y / 2));
        [apply derivable_pt_lim_ratio | apply derivable_pt_lim_half].
    - apply derivable_pt_lim_norm_cdf. }
  assert (D2 : derivable_pt_lim
                 (fun y => norm_cdf (ln (s y / k y) / w y - w y / 2)) t
                 (norm_pdf x2 * (u' - w' / 2))).
  { apply (derivable_pt_lim_comp
             (fun y => ln (s y / k y) / w y - w y / 2) norm_cdf).
    - apply (derivable_pt_lim_minus (fun y => ln (s y / k y) / w y)
                                    (fun y => w y / 2));
        [apply derivable_pt_lim_ratio | apply derivable_pt_lim_half].
    - apply derivable_pt_lim_norm_cdf. }
  pose proof (pdf_identity (s t) (k t) (w t) Hs Hk Hw) as Hid.
  fold L in Hid. fold x1 x2 in Hid.
  replace (s' * norm_cdf x1 - k' * norm_cdf x2 + s t * norm_pdf x1 * w')
    with ((s' * norm_cdf x1 + s t * (norm_pdf x1 * (u' + w' / 2)))
          - (k' * norm_cdf x2 + k t * (norm_pdf x2 * (u' - w' / 2)))).
  - unfold core.
    apply (derivable_pt_lim_minus
             (fun y => s y * norm_cdf (ln (s y / k y) / w y + w y / 2))
             (fun y => k y * norm_cdf (ln (s y / k y) / w y - w y / 2))).
    + apply (derivable_pt_lim_mult s
               (fun y => norm_cdf (ln (s y / k y) / w y + w y / 2)));
        [exact Ds | exact D1].
    + apply (derivable_pt_lim_mult k
               (fun y => norm_cdf (ln (s y / k y) / w y - w y / 2)));
        [exact Dk | exact D2].
  - replace (k t * (norm_pdf x2 * (u' - w' / 2)))
      with ((k t * norm_pdf x2) * (u' - w' / 2)) by ring.
    rewrite <- Hid. field.
Qed.

End CorePath.

(** For a fixed spot and discounted strike the price increases strictly
    with the total volatility. *)
Lemma core_increasing_w (s k w1 w2 : R) :
  0 < s -> 0 < k -> 0 < w1 -> w1 < w2 -> core s k w1 < core s k w2.
Proof.
  intros Hs Hk H1 H12.
  destruct (MVT_cor2 (fun y => core s k y)
              (fun c => 0 * norm_cdf (ln (s / k) / c + c / 2)
                        - 0 * norm_cdf (ln (s / k) / c - c / 2)
                        + s * norm_pdf (ln (s / k) / c + c / 2) * 1)
              w1 w2 H12) as [c [Ec Hc]].
  - intros c Hc.
    apply (derivable_pt_lim_core (fun _ => s) (fun _ => k) id c 0 0 1).
    + apply derivable_pt_lim_const.
    + apply derivable_pt_lim_const.
    + apply derivable_pt_lim_id.
    + exact Hs.
    + exact Hk.
    + unfold id. lra.
  - pose proof (norm_pdf_pos (ln (s / k) / c + c / 2)) as Hp.
    assert (0 < s * norm_pdf (ln (s / k) / c + c / 2) * (w2 - w1)).
    { apply Rmult_lt_0_compat; [apply Rmult_lt_0_compat | ]; lra. }
    lra.
Qed.

Lemma call_increasing_sigma (S K T r sigma1 sigma2 : R) :
  0 < S -> 0 < K -> 0 < T -> 0 < sigma1 -> sigma1 < sigma2 ->
  Formula.call S K T r sigma1 < Formula.call S K T r sigma2.
Proof.
  intros HS HK HT H1 H12.
  rewrite !call_core by lra.
  assert (Hq : 0 < sqrt T) by now apply sqrt_lt_R0.
  apply core_increasing_w; try assumption.
  - apply Rmult_lt_0_compat; [exact HK | apply exp_pos].
  - now apply Rmult_lt_0_compat.
  - now apply Rmult_lt_compat_r.
Qed.

End PricingCalculus.

(** ** C4: the Flat scenario and theta *)

Section FlatScenario.

Import ErrorFunction BlackScholes.

(** The annual theta of a call divided by 365, as [_theta] computes it. *)
Definition theta_call (S K T r sigma : R) : R :=
  (- (S * norm_pdf (Formula.d1 S K T r sigma) * sigma) / (2 * sqrt T)
   - r * K * exp (- r * T) * norm_cdf (Formula.d2 S K T r sigma)) / 365.


(** With a non-negative rate the theta of a call is negative. *)
Lemma theta_call_neg (S K T r sigma : R) :
  0 < S -> 0 < K -> 0 < T -> 0 < sigma -> 0 <= r ->
  theta_call S K T r sigma < 0.
Proof.
  intros HS HK HT Hs Hr. unfold theta_call.
  assert (Hq : 0 < sqrt T) by now apply sqrt_lt_R0.
  pose proof (norm_pdf_pos (Formula.d1 S K T r sigma)) as Hp.
  pose proof (norm_cdf_bounds (Formula.d2 S K T r sigma)) as [Hc _].
  pose proof (exp_pos (- r * T)) as He.
  assert (A : 0 < S * norm_pdf (Formula.d1 S K T r sigma) * sigma / (2 * sqrt T)).
  { apply Rdiv_lt_0_compat; [ | lra].
    apply Rmult_lt_0_compat; [apply Rmult_lt_0_compat | ]; lra. }
  assert (B : 0 <= r * K * exp (- r * T) * norm_cdf (Formula.d2 S K T r sigma)).
  { apply Rmult_le_pos; [ | exact Hc].
    apply Rmult_le_pos; [ | lra]. apply Rmult_le_pos; lra. }
  assert (E : - (S * norm_pdf (Formula.d1 S K T r sigma) * sigma) / (2 * sqrt T)
              = - (S * norm_pdf (Formula.d1 S K T r sigma) * sigma / (2 * sqrt T))).
  { unfold Rdiv. ring. }
  rewrite E. lra.
Qed.

Lemma d1_core (S K T r sigma : R) :
  0 < S -> 0 < K -> 0 < T -> 0 < sigma ->
  Formula.d1 S K T r sigma
  = ln (S / (K * exp (- r * T))) / (sigma * sqrt T) + sigma * sqrt T / 2.
Proof.
  intros HS HK HT Hs.
  assert (Hq : 0 < sqrt T) by now apply sqrt_lt_R0.
  assert (Q : sqrt T * sqrt T = T) by (apply sqrt_sqrt; lra).
  assert (El : ln (S / (K * exp (- r * T))) = ln (S / K) + r * T).
  { replace (S / (K * exp (- r * T))) with ((S / K) * exp (r * T)).
    - rewrite ln_mult; [now rewrite ln_exp | | apply exp_pos].
      now apply Rdiv_lt_0_compat.
    - replace (- r * T) with (- (r * T)) by ring. rewrite exp_Ropp.
      field. split; [ | lra]. pose proof (exp_pos (r * T)). lra. }
  unfold Formula.d1. rewrite El.
  set (q := sqrt T) in *. clearbody q. rewrite <- Q.
  replace 0.5 with (/ 2) by lra. field. lra.
Qed.

Lemma d2_core (S K T r sigma : R) :
  0 < S -> 0 < K -> 0 < T -> 0 < sigma ->
  Formula.d2 S K T r sigma
  = ln (S / (K * exp (- r * T))) / (sigma * sqrt T) - sigma * sqrt T / 2.
Proof.
  intros. unfold Formula.d2. rewrite d1_core by assumption. lra.
Qed.

(** The derivative of the call price in the time to expiry is minus the
    annual theta. *)
Lemma derivable_pt_lim_call_T (S K r sigma c : R) :
  0 < S -> 0 < K -> 0 < sigma -> 0 < c ->
  derivable_pt_lim (fun y => core S (K * exp (- r * y)) (sigma * sqrt y)) c
                   (- 365 * theta_call S K c r sigma).
Proof.
  intros HS HK Hs Hc.
  assert (Hq : 0 < sqrt c) by now apply sqrt_lt_R0.
  unfold theta_call.
  rewrite d1_core, d2_core by assumption.
  set (k := fun y => K * exp (- r * y)).
  set (w := fun y => sigma * sqrt y).
  change (K * exp (- r * c)) with (k c). change (sigma * sqrt c) with (w c).
  replace (- 365 *
           ((- (S * norm_pdf (ln (S / k c) / w c + w c / 2) * sigma)
             / (2 * sqrt c)
             - r * K * exp (- r * c)
               * norm_cdf (ln (S / k c) / w c - w c / 2)) / 365))
    with (0 * norm_cdf (ln (S / k c) / w c + w c / 2)
          - (K * (exp (- r * c) * (- r)))
            * norm_cdf (ln (S / k c) / w c - w c / 2)
          + S * norm_pdf (ln (S / k c) / w c + w c / 2)
            * (sigma * / (2 * sqrt c)))
    by (field; lra).
  apply (derivable_pt_lim_core (fun _ => S) k w c 0
           (K * (exp (- r * c) * (- r))) (sigma * / (2 * sqrt c))).
  - apply derivable_pt_lim_const.
  - unfold k. apply (derivable_pt_lim_scal (fun y => exp (- r * y)) K).
    apply (derivable_pt_lim_comp (fun y => - r * y) exp).
    + assert (D : derivable_pt_lim (fun y => - r * y) c (- r * 1))
        by apply (derivable_pt_lim_scal id (- r) c 1), derivable_pt_lim_id.
      rewrite Rmult_1_r in D. exact D.
    + apply derivable_pt_lim_exp.
  - unfold w. apply (derivable_pt_lim_scal sqrt sigma).
    now apply derivable_pt_lim_sqrt.
  - exact HS.
  - unfold k. apply Rmult_lt_0_compat; [exact HK | apply exp_pos].
  - unfold w. apply Rmult_lt_0_compat; [exact Hs | exact Hq].
Qed.

(** Where theta is non-positive over an interval of times to expiry, the
    call price is non-decreasing over it. *)
Lemma call_monotone_T_theta (S K r sigma T1 T2 : R) :
  0 < S -> 0 < K -> 0 < sigma -> 0 < T1 -> T1 <= T2 ->
  (forall t, T1 <= t <= T2 -> theta_call S K t r sigma <= 0) ->
  Formula.call S K T1 r sigma <= Formula.call S K T2 r sigma.
Proof.
  intros HS HK Hs H1 [H12 | ->] Hth; [ | lra].
  rewrite !call_core by lra.
  destruct (MVT_cor2
              (fun y => core S (K * exp (- r * y)) (sigma * sqrt y))
              (fun c => - 365 * theta_call S K c r sigma)
              T1 T2 H12) as [c [Ec Hc]].
  - intros c Hc. apply derivable_pt_lim_call_T; lra.
  - specialize (Hth c ltac:(lra)). simpl in Ec. nra.
Qed.

(** With a non-negative rate the call price is non-decreasing in the time
    to expiry. *)
Lemma call_monotone_T (S K r sigma T1 T2 : R) :
  0 < S -> 0 < K -> 0 < sigma -> 0 <= r -> 0 < T1 -> T1 <= T2 ->
  Formula.call S K T1 r sigma <= Formula.call S K T2 r sigma.
Proof.
  intros HS HK Hs Hr H1 H12.
  apply call_monotone_T_theta; try assumption.
  intros t Ht. left. apply theta_call_neg; lra.
Qed.

End FlatScenario.







(** At the money with a zero rate the price is [S * erf (w / 2 / sqrt 2)]. *)
Lemma core_atm (s w : R) :
  0 < s ->
  core s s w = s * ErrorFunction.erf (w / 2 / sqrt 2.0).
Proof.
  intro Hs. unfold core.
  replace (s / s) with 1 by (field; lra). rewrite ln_1.
  replace (0 / w + w / 2) with (w / 2) by (unfold Rdiv; ring).
  replace (0 / w - w / 2) with (- (w / 2)) by (unfold Rdiv; ring).
  rewrite norm_cdf_sym. unfold BlackScholes.norm_cdf. lra.
Qed.

Lemma call_zero_rate (S K T sigma : R) :
  0 < S -> 0 < K -> 0 < T -> 0 < sigma ->
  Formula.call S K T 0 sigma = core S K (sigma * sqrt T).
Proof.
  intros. rewrite call_core by assumption.
  replace (- 0 * T) with 0 by ring. rewrite exp_0, Rmult_1_r. reflexivity.
Qed.


Lemma sqrt_2_bounds : 1.4 <= sqrt 2.0 <= 1.5.
Proof.
  pose proof sqrt_2_pos. pose proof sqrt_2_sqr. split; nra.
Qed.


(** ** C3, continued: a tie for the maximum inside [run] *)

(** For a fixed discounted strike and total volatility the price is
    non-decreasing and 1-Lipschitz in the spot: its derivative is the
    distribution function at [d1]. *)
Lemma core_spot_bounds (s1 s2 k w : R) :
  0 < s1 -> s1 <= s2 -> 0 < k -> 0 < w ->
  0 <= core s2 k w - core s1 k w <= s2 - s1.
Proof.
  intros H1 [H12 | ->] Hk Hw; [ | lra].
  destruct (MVT_cor2 (fun y => core y k w)
              (fun c => 1 * BlackScholes.norm_cdf (ln (c / k) / w + w / 2)
                        - 0 * BlackScholes.norm_cdf (ln (c / k) / w - w / 2)
                        + c * BlackScholes.norm_pdf (ln (c / k) / w + w / 2)
                          * 0)
              s1 s2 H12) as [c [Ec Hc]].
  - intros c Hc.
    apply (derivable_pt_lim_core id (fun _ => k) (fun _ => w) c 1 0 0).
    + apply derivable_pt_lim_id.
    + apply derivable_pt_lim_const.
    + apply derivable_pt_lim_const.
    + unfold id. lra.
    + exact Hk.
    + exact Hw.
  - pose proof (norm_cdf_bounds (ln (c / k) / w + w / 2)) as [B1 B2].
    split; nra.
Qed.

(** A lower bound of the increments of [erf]. *)
Lemma erf_increment (y1 y2 : R) :
  0 <= y1 -> y1 <= y2 ->
  (y2 - y1) * (1 - y2 * y2) <= ErrorFunction.erf y2 - ErrorFunction.erf y1.
Proof.
  intros H1 [H12 | ->]; [ | lra].
  destruct (MVT_cor2 ErrorFunction.erf
              (fun c => 2 / sqrt PI * ErrorFunction.gauss c) y1 y2 H12)
    as [c [Ec Hc]]; [intros; apply ErrorFunction.derivable_pt_lim_erf | ].
  pose proof ErrorFunction.sqrt_PI_pos as Hp.
  pose proof ErrorFunction.sqrt_PI_sqr as Hq.
  assert (Hs : sqrt PI <= 2) by (pose proof PI_4; nra).
  assert (Hk : 1 <= 2 / sqrt PI).
  { apply (Rmult_le_reg_r (sqrt PI)); [exact Hp | ].
    unfold Rdiv. rewrite Rmult_assoc, Rinv_l by lra. lra. }
  assert (Hg : 1 - y2 * y2 <= ErrorFunction.gauss c).
  { unfold ErrorFunction.gauss.
    pose proof (exp_ineq1_le (- (c * c))). nra. }
  pose proof (ErrorFunction.gauss_pos c) as Hg0.
  destruct (Rle_dec (1 - y2 * y2) 0) as [Neg | Pos].
  - assert (0 < 2 / sqrt PI * ErrorFunction.gauss c * (y2 - y1))
      by (repeat apply Rmult_lt_0_compat; lra).
    nra.
  - assert (1 - y2 * y2 <= 2 / sqrt PI * ErrorFunction.gauss c) by nra.
    nra.
Qed.

(** The results of [run_loop] carry the names of the scenarios and the
    P&L of [_calculate_scenario_pnl], in order. *)
Lemma run_loop_pnl eng l rs :
  Scenarios.run_loop eng l = Ok rs ->
  Forall2 (fun s x =>
             Scenarios.res_name x = Scenarios.name s /\
             Scenarios._calculate_scenario_pnl eng (Scenarios.stock_chg s)
               (Scenarios.vol_chg s) (Scenarios.days s)
             = Ok (Scenarios.pnl x)) l rs.
Proof.
  revert rs. induction l as [ | s l IH]; intros rs H; simpl in H.
  - injection H as <-. constructor.
  - destruct (Scenarios.run_scenario eng s) as [x | e] eqn:Ex; [ | discriminate].
    cbn [bind] in H.
    destruct (Scenarios.run_loop eng l) as [xs | e] eqn:Exs; [ | discriminate].
    cbn [bind] in H. injection H as <-. constructor; [ | now apply IH].
    unfold Scenarios.run_scenario in Ex.
    destruct (Scenarios._calculate_scenario_pnl _ _ _ _) as [v | e];
      [ | discriminate].
    cbn [bind] in Ex. destruct (Py.truediv _ _); [ | discriminate].
    cbn [bind] in Ex. injection Ex as <-. split; reflexivity.
Qed.

(** A short position of one contract in a sixteen-year option at the
    money, at [sigma = 0.05] and a zero rate, with a market price of [1]. *)
Definition short_engine : Scenarios.ScenarioEngine :=
  Scenarios.init (BlackScholes.init 100 100 (16 + 7 / 365) 0 0.05 0.05)
                 1 (-1).

Lemma short_engine_pnl (stock vol s w : R) :
  100 * (1 + stock) = s -> Py.max (0.05 + vol) 0.05 * 4 = w -> -1 < stock ->
  Scenarios._calculate_scenario_pnl short_engine stock vol 7
  = Ok ((core s 100 w - 1) * 100 * IZR (-1)).
Proof.
  intros Es Ew Hst. unfold Scenarios._calculate_scenario_pnl.
  rewrite new_price_ok by (simpl; lra). cbn [bind].
  unfold Scenarios.new_S, Scenarios.new_sigma, Scenarios.new_T.
  cbn [short_engine Scenarios.init Scenarios.S Scenarios.K Scenarios.T
       Scenarios.r Scenarios.sigma Scenarios.market_price
       Scenarios.num_contracts BlackScholes.init BlackScholes.S
       BlackScholes.K BlackScholes.T BlackScholes.r BlackScholes.sigma_iv].
  rewrite (max_left (16 + 7 / 365) 0.001) by lra.
  replace (16 + 7 / 365 - 7 / 365) with 16 by lra.
  rewrite (max_left 16 0.001) by lra.
  assert (Hw : 0.05 <= Py.max (0.05 + vol) 0.05) by apply max_ge_r.
  rewrite call_zero_rate by lra.
  replace (sqrt 16) with 4
    by (symmetry; replace 16 with (4 * 4) by lra; apply sqrt_square; lra).
  rewrite Es, Ew. reflexivity.
Qed.

(** The seven repriced values of [short_engine]: the Flat and Vol Crush
    values coincide and none of the others is smaller. *)
Lemma short_engine_prices :
  core 100 100 0.2 <= core 115 100 0.2 /\
  core 100 100 0.2 <= core 105 100 0.2 /\
  core 100 100 0.2 <= core 95 100 0.4 /\
  core 100 100 0.2 <= core 85 100 1 /\
  core 100 100 0.2 <= core 100 100 0.6.
Proof.
  pose proof sqrt_2_bounds as [R1 R2].
  set (a := 0.2 / 2 / sqrt 2.0).
  assert (Ea : a * sqrt 2.0 = 0.1).
  { unfold a. replace 0.2 with (2 / 10) by lra.
    replace 0.1 with (1 / 10) by lra. field. lra. }
  assert (Ha : 0.066 <= a <= 0.072) by (split; nra).
  assert (E2 : 0.4 / 2 / sqrt 2.0 = 2 * a).
  { unfold a. replace 0.4 with (4 / 10) by lra.
    replace 0.2 with (2 / 10) by lra. field. lra. }
  assert (E5 : 1 / 2 / sqrt 2.0 = 5 * a).
  { unfold a. replace 0.2 with (2 / 10) by lra. field. lra. }
  pose proof (core_atm 100 0.2 ltac:(lra)) as A1. fold a in A1.
  pose proof (core_atm 100 0.4 ltac:(lra)) as A2. rewrite E2 in A2.
  pose proof (core_atm 100 1 ltac:(lra)) as A5. rewrite E5 in A5.
  pose proof (erf_increment a (2 * a) ltac:(lra) ltac:(lra)) as I2.
  pose proof (erf_increment a (5 * a) ltac:(lra) ltac:(lra)) as I5.
  repeat split.
  - pose proof (core_spot_bounds 100 115 100 0.2). lra.
  - pose proof (core_spot_bounds 100 105 100 0.2). lra.
  - pose proof (core_spot_bounds 95 100 100 0.4).
    assert ((2 * a - a) * (1 - 2 * a * (2 * a)) >= 0.05) by nra.
    lra.
  - pose proof (core_spot_bounds 85 100 100 1).
    assert ((5 * a - a) * (1 - 5 * a * (5 * a)) >= 0.15) by nra.
    lra.
  - left. apply core_increasing_w; lra.
Qed.

Lemma last_max_is_last (l : list Scenarios.scenario_result)
      (x z : Scenarios.scenario_result) :
  last_max x (l ++ [z]) ->
  (forall y, In y l -> Scenarios.pnl y <= Scenarios.pnl z) ->
  x = z.
Proof.
  intros [l1 [l2 [E [H1 H2]]]] Hz.
  destruct (exists_last (l := x :: l2)) as [l2' [z' E']]; [discriminate | ].
  assert (E'' : l ++ [z] = (l1 ++ l2') ++ [z']).
  { rewrite E, <- app_assoc, <- E'. reflexivity. }
  apply app_inj_tail in E''. destruct E'' as [El Ez]. subst z'.
  destruct l2' as [ | x' l2'].
  - simpl in E'. destruct l2; [ | destruct l2; discriminate].
    injection E' as ->. reflexivity.
  - simpl in E'. injection E' as <- E2.
    assert (In1 : In z l2) by (rewrite E2; apply in_or_app; right; now left).
    assert (In2 : In x l) by (rewrite El; apply in_or_app; right; now left).
    specialize (H2 z In1). specialize (Hz x In2). lra.
Qed.

(** The results of [run] for [short_engine]. *)
Lemma short_engine_results :
  exists x1 x2 x3 x4 x5 x6 x7,
    Scenarios.run_loop short_engine Scenarios.scenarios
    = Ok [x1; x2; x3; x4; x5; x6; x7] /\
    Scenarios.res_name x1 = "Bull Rally"%string /\
    Scenarios.res_name x2 = "Moderate Up"%string /\
    Scenarios.res_name x3 = "Flat"%string /\
    Scenarios.res_name x7 = "Vol Crush"%string /\
    Scenarios.pnl x3 = Scenarios.pnl x7 /\
    (forall y, In y [x1; x2; x3; x4; x5; x6] ->
               Scenarios.pnl y <= Scenarios.pnl x7).
Proof.
  destruct (run_loop_ok short_engine Scenarios.scenarios)
    as [rs [Ers _]]; try (simpl; lra); [auto | ].
  pose proof (run_loop_pnl _ _ _ Ers) as HF.
  unfold Scenarios.scenarios in HF.
  repeat match goal with
         | H : Forall2 _ (_ :: _) _ |- _ => inversion H; subst; clear H
         | H : Forall2 _ [] _ |- _ => inversion H; subst; clear H
         end.
  repeat match goal with
         | H : _ /\ _ |- _ => destruct H
         end.
  cbn [Scenarios.name Scenarios.stock_chg Scenarios.vol_chg Scenarios.days]
    in *.
  repeat match goal with
         | H : Scenarios._calculate_scenario_pnl short_engine ?st ?v 7
               = Ok _ |- _ =>
             first
               [ rewrite (short_engine_pnl st v 115 0.2) in H
                   by (rewrite ?max_right by lra; rewrite ?max_left by lra; lra)
               | rewrite (short_engine_pnl st v 105 0.2) in H
                   by (rewrite ?max_right by lra; rewrite ?max_left by lra; lra)
               | rewrite (short_engine_pnl st v 100 0.2) in H
                   by (rewrite ?max_right by lra; rewrite ?max_left by lra; lra)
               | rewrite (short_engine_pnl st v 95 0.4) in H
                   by (rewrite ?max_right by lra; rewrite ?max_left by lra; lra)
               | rewrite (short_engine_pnl st v 85 1) in H
                   by (rewrite ?max_right by lra; rewrite ?max_left by lra; lra)
               | rewrite (short_engine_pnl st v 100 0.6) in H
                   by (rewrite ?max_right by lra; rewrite ?max_left by lra; lra) ];
             injection H as H
         end.
  pose proof short_engine_prices as [P1 [P2 [P4 [P5 P6]]]].
  do 7 eexists. split; [exact Ers | ].
  repeat (split; [assumption || lra | ]).
  intros z Hz. simpl in Hz.
  repeat (destruct Hz as [<- | Hz]; [lra | ]). destruct Hz.
Qed.

(** C3 as stated fails on ties for the maximum.  For [short_engine] the
    Flat and Vol Crush scenarios reprice to the same value, the least of the
    seven, hence tie for the maximum P&L of the short position; [run]
    reports ["Vol Crush"], the later of the two, as best.  The same happens
    in the tail of [run] on [tied_results], where all seven results tie:
    ["Vol Crush"] is reported, not the first result ["Bull Rally"]. *)
Lemma best_tie_counterexample :
  (exists rep y,
     Scenarios.run short_engine = Ok rep /\
     Scenarios.res_name (Scenarios.best rep) = "Vol Crush"%string /\
     In y (Scenarios.all rep) /\
     Scenarios.res_name y = "Flat"%string /\
     Scenarios.pnl y = Scenarios.pnl (Scenarios.best rep) /\
     ~ first_max (Scenarios.best rep) (Scenarios.all rep)) /\
  (exists rep,
     Scenarios.select tied_results = Ok rep /\
     Scenarios.res_name (Scenarios.best rep) = "Vol Crush"%string /\
     ~ first_max (Scenarios.best rep) tied_results).
Proof.
  split.
  - destruct short_engine_results
      as [x1 [x2 [x3 [x4 [x5 [x6 [x7 [Ers [N1 [N2 [N3 [N7 [Et Hmax]]]]]]]]]]]]].
    set (rs := [x1; x2; x3; x4; x5; x6; x7]) in *.
    destruct (select_ok rs) as [rep Erep]; [discriminate | ].
    exists rep, x3. unfold Scenarios.run. rewrite Ers. cbn [bind].
    split; [exact Erep | ].
    unfold Scenarios.select in Erep.
    destruct (Scenarios.first_of (Scenarios.sorted rs)) as [w | e];
      [ | discriminate].
    cbn [bind] in Erep.
    destruct (Scenarios.last_of (Scenarios.sorted rs)) as [b | e] eqn:Eb;
      [ | discriminate].
    cbn [bind] in Erep. injection Erep as <-.
    cbn [Scenarios.all Scenarios.best].
    pose proof (best_last_max rs b Eb) as Hb.
    assert (Eb7 : b = x7).
    { apply (last_max_is_last [x1; x2; x3; x4; x5; x6]); assumption. }
    subst b.
    split; [exact N7 | ].
    split; [unfold rs; simpl; tauto | ].
    split; [exact N3 | ]. split; [exact Et | ].
    intros [l1 [l2 [E [H1 _]]]]. unfold rs in E.
    destruct l1 as [ | a1 l1]; simpl in E.
    { injection E as E _. rewrite E, N7 in N1. discriminate. }
    destruct l1 as [ | a2 l1]; simpl in E.
    { injection E as _ E _. rewrite E, N7 in N2. discriminate. }
    destruct l1 as [ | a3 l1]; simpl in E.
    { injection E as _ _ E _. rewrite E, N7 in N3. discriminate. }
    injection E as _ _ E _. subst a3.
    assert (Scenarios.pnl x3 < Scenarios.pnl x7)
      by (apply H1; simpl; tauto).
    lra.
  - destruct tied_results_best as [rep [E [Hb [_ [_ Hn]]]]].
    exists rep. repeat split; assumption.
Qed.

(* ================================================================= *)
(** * Part IV.  Further properties of the engine *)
(* ================================================================= *)

(** ** Strict bounds and tails of the distribution function *)

(** The lemmas of this part and the bounds of the next are facts of the
    formula in exact arithmetic: the distribution function lies strictly
    between 0 and 1, the call price is positive and strictly increasing in
    the volatility.  The double-precision [norm_cdf] does not keep them
    far in the tail: [0.5 * (1.0 + erf (x / sqrt 2))] cancels for [x]
    below about [-8], where it returns [0.0] or [1.1102230246251565e-16]
    whatever [x] is, so a computed price can be zero or slightly negative.
    The properties below that rest on the range of [norm_cdf] (the ranges
    of delta and rho, the direction of the hedge) therefore use its bounds
    in their non-strict form. *)

Lemma J_pos (x : R) : 0 < ErrorFunction.J x.
Proof.
  destruct (ErrorFunction.integral_bound (ErrorFunction.j x)
              (ErrorFunction.j_continuity x) 0 1
              (exp (- (x * x) * 2) / 2) 1) as [B _]; [lra | | ].
  - intros t Ht. unfold ErrorFunction.j.
    assert (Hp : 0 < 1 + t * t) by apply ErrorFunction.one_plus_sqr_pos.
    assert (Hu : 1 + t * t <= 2) by nra.
    pose proof (exp_pos (- (x * x) * (1 + t * t))) as He.
    pose proof (exp_pos (- (x * x) * 2)) as He2.
    assert (Hm : exp (- (x * x) * 2) <= exp (- (x * x) * (1 + t * t))).
    { destruct (Req_dec (x * x * (1 - t * t)) 0) as [Z | N].
      - right. f_equal. nra.
      - left. apply exp_increasing. nra. }
    assert (Hl : exp (- (x * x) * (1 + t * t)) <= 1).
    { apply Rle_trans with (exp 0); [ | rewrite exp_0; lra].
      destruct (Req_dec (x * x * (1 + t * t)) 0) as [Z | N].
      - right. f_equal. nra.
      - left. apply exp_increasing. nra. }
    split.
    + apply Rle_trans with (exp (- (x * x) * (1 + t * t)) / 2).
      * lra.
      * unfold Rdiv. apply Rmult_le_compat_l; [lra | ].
        apply Rinv_le_contravar; nra.
    + apply Rle_trans with (exp (- (x * x) * (1 + t * t)) / 1); [ | lra].
      unfold Rdiv. apply Rmult_le_compat_l; [lra | ].
      apply Rinv_le_contravar; nra.
  - pose proof (exp_pos (- (x * x) * 2)). unfold ErrorFunction.J. lra.
Qed.

(** [erf] stays strictly inside [(-1, 1)]. *)
Lemma erf_strict_bounds (x : R) : -1 < ErrorFunction.erf x < 1.
Proof.
  pose proof (ErrorFunction.gauss_int_sqr x) as E. pose proof (J_pos x) as HJ.
  pose proof ErrorFunction.sqrt_PI_pos as Hs.
  pose proof ErrorFunction.sqrt_PI_sqr as Hq.
  assert (B : - (sqrt PI / 2) < ErrorFunction.gauss_int x < sqrt PI / 2)
    by (split; nra).
  unfold ErrorFunction.erf.
  assert (Hk : 0 < 2 / sqrt PI) by (apply Rdiv_lt_0_compat; lra).
  assert (Ek : 2 / sqrt PI * (sqrt PI / 2) = 1) by (field; lra).
  split.
  - apply Rle_lt_trans with (2 / sqrt PI * - (sqrt PI / 2)); [lra | ].
    apply Rmult_lt_compat_l; lra.
  - apply Rlt_le_trans with (2 / sqrt PI * (sqrt PI / 2)); [ | lra].
    apply Rmult_lt_compat_l; lra.
Qed.

Lemma norm_cdf_strict_bounds (x : R) : 0 < BlackScholes.norm_cdf x < 1.
Proof.
  unfold BlackScholes.norm_cdf.
  pose proof (erf_strict_bounds (x / sqrt 2.0)). lra.
Qed.

(** The upper tail of [erf]. *)
Lemma erf_tail (x : R) :
  0 <= x -> 1 - ErrorFunction.erf x <= 4 / PI * ErrorFunction.gauss x.
Proof.
  intro Hx.
  pose proof (ErrorFunction.gauss_int_sqr x) as E.
  pose proof (ErrorFunction.J_bounds x) as [_ HJ].
  pose proof ErrorFunction.sqrt_PI_pos as Hs.
  pose proof ErrorFunction.sqrt_PI_sqr as Hq.
  pose proof PI_RGT_0 as Hpi.
  assert (E0 : 0 <= ErrorFunction.erf x).
  { rewrite <- ErrorFunction.erf_0. now apply ErrorFunction.erf_monotone. }
  pose proof (ErrorFunction.erf_bounds x) as [_ E1].
  assert (Esq : ErrorFunction.erf x * ErrorFunction.erf x
                = 1 - 4 / PI * ErrorFunction.J x).
  { unfold ErrorFunction.erf.
    replace (2 / sqrt PI * ErrorFunction.gauss_int x
             * (2 / sqrt PI * ErrorFunction.gauss_int x))
      with (4 / (sqrt PI * sqrt PI)
            * (ErrorFunction.gauss_int x * ErrorFunction.gauss_int x))
      by (field; lra).
    rewrite Hq.
    replace (ErrorFunction.gauss_int x * ErrorFunction.gauss_int x)
      with (PI / 4 - ErrorFunction.J x) by lra.
    field. lra. }
  assert (Hk : 0 < 4 / PI) by (apply Rdiv_lt_0_compat; lra).
  assert (Hg : 4 / PI * ErrorFunction.J x <= 4 / PI * ErrorFunction.gauss x)
    by (apply Rmult_le_compat_l; lra).
  nra.
Qed.

(** The lower tail of the distribution function. *)
Lemma norm_cdf_tail (y : R) :
  0 < y -> BlackScholes.norm_cdf (- y) <= 2 / (y * y).
Proof.
  intro Hy. pose proof sqrt_2_pos as H2. pose proof sqrt_2_sqr as Q2.
  rewrite norm_cdf_sym. unfold BlackScholes.norm_cdf.
  assert (Hz : 0 <= y / sqrt 2.0).
  { left. now apply Rdiv_lt_0_compat. }
  pose proof (erf_tail _ Hz) as Ht.
  assert (Eg : ErrorFunction.gauss (y / sqrt 2.0) = exp (- (y * y / 2))).
  { unfold ErrorFunction.gauss. f_equal.
    replace (y / sqrt 2.0 * (y / sqrt 2.0))
      with (y * y / (sqrt 2.0 * sqrt 2.0)) by (field; lra).
    now rewrite Q2. }
  rewrite Eg in Ht.
  set (u := y * y / 2) in *.
  assert (Hu : 0 < u) by (unfold u; nra).
  assert (He : exp (- u) <= / u).
  { rewrite exp_Ropp. apply Rinv_le_contravar; [exact Hu | ].
    pose proof (exp_ineq1_le u). lra. }
  assert (Hpi : 4 / PI <= 2).
  { pose proof PI2_1. pose proof PI_RGT_0.
    apply (Rmult_le_reg_r PI); [lra | ].
    unfold Rdiv. rewrite Rmult_assoc, Rinv_l by lra. lra. }
  pose proof (exp_pos (- u)) as Hp.
  assert (Eu : / u = 2 / (y * y)) by (unfold u; field; lra).
  rewrite <- Eu.
  assert (4 / PI * exp (- u) <= 2 * exp (- u))
    by (apply Rmult_le_compat_r; lra).
  lra.
Qed.

(** Exchanging spot and discounted strike turns the call into the put. *)
Lemma core_swap (s k w : R) :
  0 < s -> 0 < k -> 0 < w -> core s k w = core k s w + (s - k).
Proof.
  intros Hs Hk Hw. unfold core.
  assert (El : ln (k / s) = - ln (s / k)).
  { rewrite <- ln_Rinv by now apply Rdiv_lt_0_compat.
    f_equal. field. lra. }
  rewrite El.
  replace (- ln (s / k) / w + w / 2) with (- (ln (s / k) / w - w / 2))
    by (field; lra).
  replace (- ln (s / k) / w - w / 2) with (- (ln (s / k) / w + w / 2))
    by (field; lra).
  rewrite !norm_cdf_sym. ring.
Qed.

Lemma core_monotone_w (s k w1 w2 : R) :
  0 < s -> 0 < k -> 0 < w1 -> w1 <= w2 -> core s k w1 <= core s k w2.
Proof.
  intros Hs Hk H1 [H12 | ->]; [left; now apply core_increasing_w | lra].
Qed.

(** Out of the money the price is not negative. *)
Lemma core_nonneg_otm (s k w : R) :
  0 < s -> s < k -> 0 < w -> 0 <= core s k w.
Proof.
  intros Hs Hsk Hw.
  assert (Hk : 0 < k) by lra.
  set (L := ln (s / k)).
  assert (HL : L < 0).
  { unfold L. rewrite <- ln_1. apply ln_increasing.
    - now apply Rdiv_lt_0_compat.
    - apply (Rmult_lt_reg_r k); [exact Hk | ].
      unfold Rdiv. rewrite Rmult_assoc, Rinv_l by lra. lra. }
  assert (low : forall v, 0 < v -> - (2 * k * (v * v) / (L * L)) <= core s k v).
  { intros v Hv. unfold core. fold L.
    pose proof (norm_cdf_bounds (L / v + v / 2)) as [B1 _].
    set (y := - (L / v - v / 2)).
    assert (Hy : - L / v <= y).
    { unfold y. replace (- (L / v - v / 2)) with (- L / v + v / 2)
        by (field; lra). lra. }
    assert (Hq : 0 < - L / v) by (apply Rdiv_lt_0_compat; lra).
    replace (L / v - v / 2) with (- y) by (unfold y; ring).
    pose proof (norm_cdf_tail y ltac:(lra)) as Ht.
    assert (Hyy : 2 / (y * y) <= 2 * (v * v) / (L * L)).
    { replace (2 * (v * v) / (L * L)) with (2 / (- L / v * (- L / v)))
        by (field; lra).
      unfold Rdiv at 1 3. apply Rmult_le_compat_l; [lra | ].
      apply Rinv_le_contravar; nra. }
    assert (k * BlackScholes.norm_cdf (- y) <= k * (2 * (v * v) / (L * L)))
      by (apply Rmult_le_compat_l; lra).
    assert (0 <= s * BlackScholes.norm_cdf (L / v + v / 2))
      by (apply Rmult_le_pos; lra).
    replace (2 * k * (v * v) / (L * L)) with (k * (2 * (v * v) / (L * L)))
      by (field; lra).
    lra. }
  destruct (Rle_dec 0 (core s k w)) as [P | N]; [exact P | exfalso].
  set (eps := - core s k w). assert (He : 0 < eps) by (unfold eps; lra).
  set (c := eps * (L * L) / (4 * k)).
  assert (Hc : 0 < c).
  { unfold c. apply Rdiv_lt_0_compat; [ | lra].
    apply Rmult_lt_0_compat; nra. }
  set (v := Rmin w (Rmin 1 c)).
  assert (Hv : 0 < v) by (unfold v; repeat apply Rmin_pos; lra).
  assert (Hvw : v <= w) by apply Rmin_l.
  assert (Hv1 : v <= 1).
  { unfold v. eapply Rle_trans; [apply Rmin_r | apply Rmin_l]. }
  assert (Hvc : v <= c).
  { unfold v. eapply Rle_trans; [apply Rmin_r | apply Rmin_r]. }
  pose proof (low v Hv) as Hlow.
  pose proof (core_monotone_w s k v w Hs Hk Hv Hvw) as Hmon.
  assert (Hb : 2 * k * (v * v) / (L * L) <= eps / 2).
  { assert (v * v <= c) by nra.
    apply Rle_trans with (2 * k * c / (L * L)).
    - unfold Rdiv. apply Rmult_le_compat_r.
      + left. apply Rinv_0_lt_compat. nra.
      + apply Rmult_le_compat_l; lra.
    - right. unfold c. field. split; lra. }
  unfold eps in *. lra.
Qed.

Lemma core_nonneg_le (s k w : R) :
  0 < s -> 0 < k -> 0 < w -> s <= k -> 0 <= core s k w.
Proof.
  intros Hs Hk Hw [Hlt | ->].
  - now apply core_nonneg_otm.
  - rewrite core_atm by exact Hk.
    apply Rmult_le_pos; [lra | ].
    rewrite <- ErrorFunction.erf_0. apply ErrorFunction.erf_monotone.
    pose proof sqrt_2_pos. left.
    apply Rdiv_lt_0_compat; [lra | assumption].
Qed.

Lemma core_pos_le (s k w : R) :
  0 < s -> 0 < k -> 0 < w -> s <= k -> 0 < core s k w.
Proof.
  intros Hs Hk Hw Hsk.
  pose proof (core_nonneg_le s k (w / 2) Hs Hk ltac:(lra) Hsk).
  pose proof (core_increasing_w s k (w / 2) w Hs Hk ltac:(lra) ltac:(lra)).
  lra.
Qed.

(** The no-arbitrage bounds of the call, in core form. *)
Lemma core_bounds (s k w : R) :
  0 < s -> 0 < k -> 0 < w ->
  0 < core s k w /\ s - k < core s k w /\ core s k w < s.
Proof.
  intros Hs Hk Hw.
  pose proof (core_swap s k w Hs Hk Hw) as Esw.
  assert (Hup : core k s w < k).
  { unfold core.
    pose proof (norm_cdf_strict_bounds (ln (k / s) / w + w / 2)) as [_ B1].
    pose proof (norm_cdf_strict_bounds (ln (k / s) / w - w / 2)) as [B2 _].
    assert (k * BlackScholes.norm_cdf (ln (k / s) / w + w / 2) < k * 1)
      by (apply Rmult_lt_compat_l; lra).
    assert (0 < s * BlackScholes.norm_cdf (ln (k / s) / w - w / 2))
      by (apply Rmult_lt_0_compat; lra).
    lra. }
  destruct (Rle_dec s k) as [Hsk | Hks].
  - pose proof (core_pos_le s k w Hs Hk Hw Hsk). repeat split; lra.
  - pose proof (core_pos_le k s w Hk Hs Hw ltac:(lra)). repeat split; lra.
Qed.

(** ** black_scholes.py: bounds of the exact formula and the valuation
       label *)

Lemma call_bounds (S K T r sigma : R) :
  0 < S -> 0 < K -> 0 < T -> 0 < sigma ->
  0 < Formula.call S K T r sigma /\
  S - K * exp (- r * T) < Formula.call S K T r sigma /\
  Formula.call S K T r sigma < S.
Proof.
  intros HS HK HT Hs. rewrite call_core by assumption.
  apply core_bounds; try assumption.
  - apply Rmult_lt_0_compat; [assumption | apply exp_pos].
  - apply Rmult_lt_0_compat; [assumption | now apply sqrt_lt_R0].
Qed.

Lemma put_bounds (S K T r sigma : R) :
  0 < S -> 0 < K -> 0 < T -> 0 < sigma ->
  0 < Formula.put S K T r sigma /\
  K * exp (- r * T) - S < Formula.put S K T r sigma /\
  Formula.put S K T r sigma < K * exp (- r * T).
Proof.
  intros HS HK HT Hs.
  pose proof (parity_formula S K T r sigma) as P.
  pose proof (call_bounds S K T r sigma HS HK HT Hs) as [B1 [B2 B3]].
  repeat split; lra.
Qed.

Lemma put_increasing_sigma (S K T r sigma1 sigma2 : R) :
  0 < S -> 0 < K -> 0 < T -> 0 < sigma1 -> sigma1 < sigma2 ->
  Formula.put S K T r sigma1 < Formula.put S K T r sigma2.
Proof.
  intros HS HK HT H1 H12.
  pose proof (parity_formula S K T r sigma1) as P1.
  pose proof (parity_formula S K T r sigma2) as P2.
  pose proof (call_increasing_sigma S K T r sigma1 sigma2 HS HK HT H1 H12).
  lra.
Qed.

(** What the label tells about the two prices, whatever their signs. *)
Lemma valuation_cases (ph pi : R) :
  (BlackScholes._get_valuation ph pi = BlackScholes.EXPENSIVE ->
   0 < ph /\ 0 < pi - ph) /\
  (BlackScholes._get_valuation ph pi = BlackScholes.CHEAP ->
   0 < ph /\ pi - ph < 0) /\
  (pi = ph ->
   BlackScholes.mispricing_pct_of ph pi = 0 /\
   BlackScholes._get_valuation ph pi = BlackScholes.FAIR).
Proof.
  assert (Z : pi = ph -> BlackScholes.mispricing_pct_of ph pi = 0).
  { intros ->. unfold BlackScholes.mispricing_pct_of.
    destruct (Rgt_dec ph 0); [ | reflexivity].
    replace (ph - ph) with 0 by ring. unfold Rdiv. ring. }
  unfold BlackScholes._get_valuation.
  unfold BlackScholes.mispricing_pct_of in *.
  destruct (Rgt_dec ph 0) as [P | P].
  - assert (Hd : (pi - ph) / ph * 100 * ph = (pi - ph) * 100)
      by (field; lra).
    set (d := (pi - ph) / ph * 100) in *.
    destruct (Rgt_dec d 20) as [G | G];
      [ | destruct (Rlt_dec d (-20)) as [L | L]].
    + split; [intros _; split; nra | ].
      split; [discriminate | ]. intro E. specialize (Z E). lra.
    + split; [discriminate | ].
      split; [intros _; split; nra | ]. intro E. specialize (Z E). lra.
    + split; [discriminate | ]. split; [discriminate | ].
      intro E. split; [now apply Z | reflexivity].
  - destruct (Rgt_dec 0 20) as [G | G]; [lra | ].
    destruct (Rlt_dec 0 (-20)) as [L | L]; [lra | ].
    split; [discriminate | ]. split; [discriminate | ].
    intros _. split; reflexivity.
Qed.

(** X3.  In the result of [calculate], for a pricer built from [S > 0],
    [K > 0] and positive volatilities: the entry [mispricing] is
    [price_iv - price_hv]; the label [EXPENSIVE] comes with a positive
    reference price [price_hv] and a positive mispricing, the label [CHEAP]
    with a positive reference price and a negative mispricing; and equal
    volatilities give equal prices, a zero mispricing, a zero percentage
    and the label [FAIR]. *)
Theorem calculate_mispricing (S K T r sigma_hv sigma_iv : R) :
  0 < S -> 0 < K -> 0 < sigma_hv -> 0 < sigma_iv ->
  exists res,
    BlackScholes.calculate (BlackScholes.init S K T r sigma_hv sigma_iv)
    = Ok res /\
    BlackScholes.mispricing res
    = BlackScholes.price_iv res - BlackScholes.price_hv res /\
    (BlackScholes.valuation_label res = BlackScholes.EXPENSIVE ->
     0 < BlackScholes.price_hv res /\ 0 < BlackScholes.mispricing res) /\
    (BlackScholes.valuation_label res = BlackScholes.CHEAP ->
     0 < BlackScholes.price_hv res /\ BlackScholes.mispricing res < 0) /\
    (sigma_iv = sigma_hv ->
     BlackScholes.price_iv res = BlackScholes.price_hv res /\
     BlackScholes.mispricing res = 0 /\
     BlackScholes.mispricing_pct res = 0 /\
     BlackScholes.valuation_label res = BlackScholes.FAIR).
Proof.
  intros HS HK Hhv Hiv.
  set (p := BlackScholes.init S K T r sigma_hv sigma_iv).
  assert (HT : 0 < BlackScholes.T p).
  { pose proof (init_T_pos S K T r sigma_hv sigma_iv). fold p in H. lra. }
  unfold BlackScholes.calculate.
  assert (Eh : BlackScholes._bs_call_price p (BlackScholes.sigma_hv p)
               = Ok (Formula.call S K (BlackScholes.T p) r sigma_hv))
    by apply (_bs_call_price_ok p sigma_hv HS HK HT Hhv).
  assert (Ei : BlackScholes._bs_call_price p (BlackScholes.sigma_iv p)
               = Ok (Formula.call S K (BlackScholes.T p) r sigma_iv))
    by apply (_bs_call_price_ok p sigma_iv HS HK HT Hiv).
  rewrite Eh, Ei. cbn [bind].
  eexists. split; [reflexivity | ].
  cbn [BlackScholes.price_hv BlackScholes.price_iv BlackScholes.mispricing
       BlackScholes.mispricing_pct BlackScholes.valuation_label].
  set (f := Formula.call S K (BlackScholes.T p) r).
  destruct (valuation_cases (f sigma_hv) (f sigma_iv)) as [HE [HC HF]].
  split; [reflexivity | ]. split; [exact HE | ]. split; [exact HC | ].
  intros ->. destruct (HF eq_refl) as [F1 F2].
  split; [reflexivity | ]. split; [ring | ]. split; assumption.
Qed.

Lemma calculate_mispricing_witness :
  exists res,
    BlackScholes.calculate
      (BlackScholes.init 100 110 (35 / 365) 0.045 0.30 0.30) = Ok res /\
    BlackScholes.mispricing res = 0 /\
    BlackScholes.valuation_label res = BlackScholes.FAIR.
Proof.
  assert (H1 : 0 < 100) by lra. assert (H2 : 0 < 110) by lra.
  assert (H3 : 0 < 0.30) by lra.
  destruct (calculate_mispricing 100 110 (35 / 365) 0.045 0.30 0.30
              H1 H2 H3 H3) as [res [E [_ [_ [_ Hq]]]]].
  destruct (Hq eq_refl) as [_ [M [_ L]]].
  exists res. split; [exact E | ]. split; assumption.
Defined.

(** X4.  [calculate_put] on a pricer built from [S > 0], [K > 0] and
    positive volatilities returns normally; its two prices are the put
    formula [K e^{-rT} N(-d2) - S N(-d1)] at [sigma_hv] and at [sigma_iv],
    at the floored time to expiry; [mispricing] is their difference; the
    percentage is [(price_iv - price_hv) / price_hv * 100] when
    [price_hv > 0] and [0] otherwise; the label is [EXPENSIVE] exactly
    when the percentage exceeds 20, [CHEAP] exactly when it is below -20,
    [FAIR] otherwise; and equal volatilities give a zero mispricing and
    [FAIR]. *)
Theorem calculate_put_spec (S K T r sigma_hv sigma_iv : R) :
  0 < S -> 0 < K -> 0 < sigma_hv -> 0 < sigma_iv ->
  let p := BlackScholes.init S K T r sigma_hv sigma_iv in
  let T' := BlackScholes.T p in
  exists res,
    BlackScholes.calculate_put p = Ok res /\
    BlackScholes.price_hv res = Formula.put S K T' r sigma_hv /\
    BlackScholes.price_iv res = Formula.put S K T' r sigma_iv /\
    BlackScholes.mispricing res
    = BlackScholes.price_iv res - BlackScholes.price_hv res /\
    (BlackScholes.price_hv res > 0 ->
     BlackScholes.mispricing_pct res
     = (BlackScholes.price_iv res - BlackScholes.price_hv res)
       / BlackScholes.price_hv res * 100) /\
    (BlackScholes.price_hv res <= 0 -> BlackScholes.mispricing_pct res = 0) /\
    (BlackScholes.valuation_label res = BlackScholes.EXPENSIVE
     <-> BlackScholes.mispricing_pct res > 20) /\
    (BlackScholes.valuation_label res = BlackScholes.CHEAP
     <-> BlackScholes.mispricing_pct res < -20) /\
    (BlackScholes.valuation_label res = BlackScholes.FAIR
     <-> -20 <= BlackScholes.mispricing_pct res <= 20) /\
    (sigma_iv = sigma_hv ->
     BlackScholes.mispricing res = 0 /\
     BlackScholes.valuation_label res = BlackScholes.FAIR).
Proof.
  intros HS HK Hhv Hiv p T'.
  assert (HT : 0 < BlackScholes.T p).
  { pose proof (init_T_pos S K T r sigma_hv sigma_iv). fold p in H. lra. }
  unfold BlackScholes.calculate_put.
  assert (Eh : BlackScholes._bs_put_price p (BlackScholes.sigma_hv p)
               = Ok (Formula.put S K T' r sigma_hv))
    by apply (_bs_put_price_ok p sigma_hv HS HK HT Hhv).
  assert (Ei : BlackScholes._bs_put_price p (BlackScholes.sigma_iv p)
               = Ok (Formula.put S K T' r sigma_iv))
    by apply (_bs_put_price_ok p sigma_iv HS HK HT Hiv).
  rewrite Eh, Ei. cbn [bind].
  eexists. split; [reflexivity | ].
  cbn [BlackScholes.price_hv BlackScholes.price_iv BlackScholes.mispricing
       BlackScholes.mispricing_pct BlackScholes.valuation_label].
  set (ph := Formula.put S K T' r sigma_hv).
  set (pi := Formula.put S K T' r sigma_iv).
  destruct (valuation_cases ph pi) as [_ [_ HF]].
  split; [reflexivity | ]. split; [reflexivity | ].
  split; [reflexivity | ].
  split.
  { intro H. unfold BlackScholes.mispricing_pct_of.
    destruct (Rgt_dec ph 0); [reflexivity | contradiction]. }
  split.
  { intro H. unfold BlackScholes.mispricing_pct_of.
    destruct (Rgt_dec ph 0); [lra | reflexivity]. }
  unfold BlackScholes._get_valuation in *.
  set (d := BlackScholes.mispricing_pct_of ph pi) in *.
  destruct (Rgt_dec d 20) as [G | G];
    [ | destruct (Rlt_dec d (-20)) as [L | L]].
  - split; [tauto | ]. split; [split; [discriminate | lra] | ].
    split; [split; [discriminate | lra] | ].
    intro E. subst pi ph. rewrite E in HF. destruct (HF eq_refl).
    discriminate.
  - split; [split; [discriminate | lra] | ]. split; [tauto | ].
    split; [split; [discriminate | lra] | ].
    intro E. subst pi ph. rewrite E in HF. destruct (HF eq_refl).
    discriminate.
  - split; [split; [discriminate | lra] | ].
    split; [split; [discriminate | lra] | ].
    split; [split; [intros _; lra | reflexivity] | ].
    intro E. split; [ | reflexivity]. subst pi ph. rewrite E. ring.
Qed.

Lemma calculate_put_spec_witness :
  exists res,
    BlackScholes.calculate_put
      (BlackScholes.init 100 90 (35 / 365) 0.045 0.30 0.25) = Ok res /\
    BlackScholes.mispricing res
    = BlackScholes.price_iv res - BlackScholes.price_hv res.
Proof.
  assert (H1 : 0 < 100) by lra. assert (H2 : 0 < 90) by lra.
  assert (H3 : 0 < 0.30) by lra. assert (H4 : 0 < 0.25) by lra.
  destruct (calculate_put_spec 100 90 (35 / 365) 0.045 0.30 0.25
              H1 H2 H3 H4) as [res [E [_ [_ [M _]]]]].
  exists res. split; assumption.
Defined.

(** ** black_scholes.py: which inputs raise *)

Lemma log_nonpos (x : R) : x <= 0 -> Py.log x = Raise ValueError.
Proof.
  intro H. unfold Py.log. destruct (Rlt_dec 0 x); [lra | reflexivity].
Qed.

Lemma _d1_cases (p : BlackScholes.OptionPricer) (sigma : R) :
  0 < BlackScholes.T p ->
  (BlackScholes.K p = 0 ->
   BlackScholes._d1 p sigma = Raise ZeroDivisionError) /\
  (BlackScholes.K p <> 0 -> BlackScholes.S p / BlackScholes.K p <= 0 ->
   BlackScholes._d1 p sigma = Raise ValueError) /\
  (BlackScholes.K p <> 0 -> 0 < BlackScholes.S p / BlackScholes.K p ->
   sigma = 0 -> BlackScholes._d1 p sigma = Raise ZeroDivisionError).
Proof.
  intro HT. unfold BlackScholes._d1.
  assert (Hq : 0 < sqrt (BlackScholes.T p)) by now apply sqrt_lt_R0.
  repeat split.
  - intros ->. rewrite truediv_zero. reflexivity.
  - intros HK Hle. rewrite truediv_ok by exact HK. cbn [bind].
    rewrite log_nonpos by exact Hle. reflexivity.
  - intros HK Hlt ->. rewrite truediv_ok by exact HK. cbn [bind].
    rewrite log_ok by exact Hlt. cbn [bind].
    rewrite sqrt_ok by lra. cbn [bind].
    rewrite Rmult_0_l. apply truediv_zero.
Qed.

(** X5.  The exceptions of the two pricing functions on a constructed
    pricer with built-in float inputs: a zero strike raises
    [ZeroDivisionError] (from [S / K]); a non-zero strike with a
    spot-to-strike ratio that is not positive raises [ValueError] (from
    the logarithm); with a positive ratio, a zero volatility raises
    [ZeroDivisionError] (from the division by [sigma * sqrt T]). *)
Theorem pricing_exceptions (S K T r sigma_hv sigma_iv sigma : R) :
  let p := BlackScholes.init S K T r sigma_hv sigma_iv in
  (K = 0 ->
   BlackScholes._bs_call_price p sigma = Raise ZeroDivisionError /\
   BlackScholes._bs_put_price p sigma = Raise ZeroDivisionError) /\
  (K <> 0 /\ S / K <= 0 ->
   BlackScholes._bs_call_price p sigma = Raise ValueError /\
   BlackScholes._bs_put_price p sigma = Raise ValueError) /\
  (K <> 0 /\ 0 < S / K /\ sigma = 0 ->
   BlackScholes._bs_call_price p sigma = Raise ZeroDivisionError /\
   BlackScholes._bs_put_price p sigma = Raise ZeroDivisionError).
Proof.
  intro p.
  assert (HT : 0 < BlackScholes.T p).
  { pose proof (init_T_pos S K T r sigma_hv sigma_iv). fold p in H. lra. }
  destruct (_d1_cases p sigma HT) as [C1 [C2 C3]].
  change (BlackScholes.K p) with K in *. change (BlackScholes.S p) with S in *.
  unfold BlackScholes._bs_call_price, BlackScholes._bs_put_price,
    BlackScholes._d2.
  repeat split.
  - rewrite (C1 H). reflexivity.
  - rewrite (C1 H). reflexivity.
  - destruct H as [H1 H2]. rewrite (C2 H1 H2). reflexivity.
  - destruct H as [H1 H2]. rewrite (C2 H1 H2). reflexivity.
  - destruct H as [H1 [H2 H3]]. rewrite (C3 H1 H2 H3). reflexivity.
  - destruct H as [H1 [H2 H3]]. rewrite (C3 H1 H2 H3). reflexivity.
Qed.

(** ** greeks.py: the Greeks are the sensitivities of the price *)

(** The float a call returns, [0] standing for an exception. *)
Definition value (m : result R) : R :=
  match m with Ok x => x | Raise _ => 0 end.

Definition is_put_type (option_type : string) : bool :=
  String.eqb (Py.lower option_type) "put".

(** The prices at the implied volatility, as functions of the inputs of
    the pricer. *)
Definition call_price (S K T r sigma_hv sigma_iv : R) : R :=
  value (BlackScholes.get_price_iv
           (BlackScholes.init S K T r sigma_hv sigma_iv)).

Definition put_price (S K T r sigma_hv sigma_iv : R) : R :=
  value (BlackScholes.get_put_price_iv
           (BlackScholes.init S K T r sigma_hv sigma_iv)).

Definition option_price (option_type : string)
           (S K T r sigma_hv sigma_iv : R) : R :=
  if is_put_type option_type
  then put_price S K T r sigma_hv sigma_iv
  else call_price S K T r sigma_hv sigma_iv.

(** [GreeksCalculator(pricer, option_type).calculate()] on a pricer built
    from the inputs. *)
Definition greeks_of (option_type : string)
           (S K T r sigma_hv sigma_iv : R) : result Greeks.greeks :=
  g <- Greeks.init (BlackScholes.init S K T r sigma_hv sigma_iv)
                   option_type ;;
  Greeks.calculate g.

(** One entry of the returned Greeks, [0] standing for an exception. *)
Definition greek (field : Greeks.greeks -> R) (m : result Greeks.greeks)
  : R :=
  match m with Ok g => field g | Raise _ => 0 end.

Lemma call_price_eq (S K T r sigma_hv sigma_iv : R) :
  0 < S -> 0 < K -> 0 < sigma_iv ->
  call_price S K T r sigma_hv sigma_iv
  = Formula.call S K (Py.max T 0.001) r sigma_iv.
Proof.
  intros HS HK Hiv. unfold call_price, BlackScholes.get_price_iv.
  set (p := BlackScholes.init S K T r sigma_hv sigma_iv).
  assert (HT : 0 < BlackScholes.T p).
  { pose proof (init_T_pos S K T r sigma_hv sigma_iv). fold p in H. lra. }
  change (BlackScholes.sigma_iv p) with sigma_iv.
  rewrite (_bs_call_price_ok p sigma_iv HS HK HT Hiv). reflexivity.
Qed.

Lemma put_price_eq (S K T r sigma_hv sigma_iv : R) :
  0 < S -> 0 < K -> 0 < sigma_iv ->
  put_price S K T r sigma_hv sigma_iv
  = Formula.put S K (Py.max T 0.001) r sigma_iv.
Proof.
  intros HS HK Hiv. unfold put_price, BlackScholes.get_put_price_iv.
  set (p := BlackScholes.init S K T r sigma_hv sigma_iv).
  assert (HT : 0 < BlackScholes.T p).
  { pose proof (init_T_pos S K T r sigma_hv sigma_iv). fold p in H. lra. }
  change (BlackScholes.sigma_iv p) with sigma_iv.
  rewrite (_bs_put_price_ok p sigma_iv HS HK HT Hiv). reflexivity.
Qed.

Lemma put_price_call_price (S K T r sigma_hv sigma_iv : R) :
  0 < S -> 0 < K -> 0 < sigma_iv ->
  put_price S K T r sigma_hv sigma_iv
  = call_price S K T r sigma_hv sigma_iv
    - S + K * exp (- r * Py.max T 0.001).
Proof.
  intros HS HK Hiv. rewrite put_price_eq, call_price_eq by assumption.
  pose proof (parity_formula S K (Py.max T 0.001) r sigma_iv). lra.
Qed.

(** The entries of the Greeks on valid inputs. *)
Lemma greeks_of_ok (option_type : string) (S K T r sigma_hv sigma_iv : R) :
  0 < S -> 0 < K -> 0 < sigma_iv ->
  exists g,
    greeks_of option_type S K T r sigma_hv sigma_iv = Ok g /\
    Greeks.delta g
    = (if is_put_type option_type
       then BlackScholes.norm_cdf
              (Formula.d1 S K (Py.max T 0.001) r sigma_iv) - 1
       else BlackScholes.norm_cdf
              (Formula.d1 S K (Py.max T 0.001) r sigma_iv)) /\
    Greeks.gamma g
    = BlackScholes.norm_pdf (Formula.d1 S K (Py.max T 0.001) r sigma_iv)
      / (S * sigma_iv * sqrt (Py.max T 0.001)) /\
    Greeks.theta g
    = (- (S * BlackScholes.norm_pdf
                (Formula.d1 S K (Py.max T 0.001) r sigma_iv) * sigma_iv)
       / (2 * sqrt (Py.max T 0.001))
       - (if is_put_type option_type
          then - r * K * exp (- r * Py.max T 0.001)
               * BlackScholes.norm_cdf
                   (- Formula.d2 S K (Py.max T 0.001) r sigma_iv)
          else r * K * exp (- r * Py.max T 0.001)
               * BlackScholes.norm_cdf
                   (Formula.d2 S K (Py.max T 0.001) r sigma_iv))) / 365 /\
    Greeks.vega g
    = S * sqrt (Py.max T 0.001)
      * BlackScholes.norm_pdf (Formula.d1 S K (Py.max T 0.001) r sigma_iv)
      / 100 /\
    Greeks.rho g
    = (if is_put_type option_type
       then - K * Py.max T 0.001 * exp (- r * Py.max T 0.001)
            * BlackScholes.norm_cdf
                (- Formula.d2 S K (Py.max T 0.001) r sigma_iv)
       else K * Py.max T 0.001 * exp (- r * Py.max T 0.001)
            * BlackScholes.norm_cdf
                (Formula.d2 S K (Py.max T 0.001) r sigma_iv)) / 100 /\
    Greeks.theta_daily g = Greeks.theta g /\
    Greeks.theta_weekly g = Greeks.theta g * 7 /\
    Greeks.vega_dollar g = Greeks.vega g * 100 /\
    Greeks.shares_equiv g = Greeks.delta g * 100.
Proof.
  intros HS HK Hiv.
  set (p := BlackScholes.init S K T r sigma_hv sigma_iv).
  assert (HT : 0 < BlackScholes.T p).
  { pose proof (init_T_pos S K T r sigma_hv sigma_iv). fold p in H. lra. }
  assert (Hq : 0 < sqrt (BlackScholes.T p)) by now apply sqrt_lt_R0.
  unfold greeks_of, Greeks.init, BlackScholes.get_d1, BlackScholes.get_d2.
  fold p. change (BlackScholes.sigma_iv p) with sigma_iv.
  rewrite (_d1_ok p sigma_iv HS HK HT Hiv).
  rewrite (_d2_ok p sigma_iv HS HK HT Hiv). cbn [bind].
  unfold Greeks.calculate, Greeks._gamma, Greeks._theta, Greeks._vega,
    Greeks._rho, Greeks._delta, Greeks.is_put.
  cbn [Greeks.gT Greeks.gS Greeks.gK Greeks.gr Greeks.gsigma Greeks.d1
       Greeks.d2 Greeks.option_type].
  rewrite sqrt_ok by lra. cbn [bind].
  rewrite truediv_ok
    by (apply Rgt_not_eq; repeat apply Rmult_lt_0_compat; assumption).
  cbn [bind].
  rewrite truediv_ok by lra. cbn [bind].
  eexists. split; [reflexivity | ].
  cbn [Greeks.delta Greeks.gamma Greeks.theta Greeks.vega Greeks.rho
       Greeks.theta_daily Greeks.theta_weekly Greeks.vega_dollar
       Greeks.shares_equiv].
  fold (is_put_type option_type).
  repeat split; reflexivity.
Qed.

(** *** Derivatives of the closed formula *)

Lemma discounted_strike_pos (K r T : R) : 0 < K -> 0 < K * exp (- r * T).
Proof. intro HK. apply Rmult_lt_0_compat; [exact HK | apply exp_pos]. Qed.

Lemma total_vol_pos (sigma T : R) : 0 < sigma -> 0 < T -> 0 < sigma * sqrt T.
Proof. intros Hs HT. apply Rmult_lt_0_compat; [exact Hs | now apply sqrt_lt_R0]. Qed.

Lemma derivable_pt_lim_call_S (S K T r sigma : R) :
  0 < S -> 0 < K -> 0 < T -> 0 < sigma ->
  derivable_pt_lim (fun s => Formula.call s K T r sigma) S
    (BlackScholes.norm_cdf (Formula.d1 S K T r sigma)).
Proof.
  intros HS HK HT Hs.
  pose proof (discounted_strike_pos K r T HK) as Hk.
  pose proof (total_vol_pos sigma T Hs HT) as Hw.
  apply (derivable_pt_lim_locally_ext
           (fun s => core s (K * exp (- r * T)) (sigma * sqrt T))
           _ S (S / 2) (2 * S)).
  - lra.
  - intros z Hz. symmetry. apply call_core; lra.
  - rewrite d1_core by assumption.
    set (k := K * exp (- r * T)) in *. set (w := sigma * sqrt T) in *.
    replace (BlackScholes.norm_cdf (ln (S / k) / w + w / 2))
      with (1 * BlackScholes.norm_cdf (ln (S / k) / w + w / 2)
            - 0 * BlackScholes.norm_cdf (ln (S / k) / w - w / 2)
            + S * BlackScholes.norm_pdf (ln (S / k) / w + w / 2) * 0)
      by ring.
    apply (derivable_pt_lim_core (fun y => y) (fun _ => k) (fun _ => w)
             S 1 0 0).
    + apply derivable_pt_lim_id.
    + apply derivable_pt_lim_const.
    + apply derivable_pt_lim_const.
    + exact HS.
    + exact Hk.
    + exact Hw.
Qed.

Lemma derivable_pt_lim_cdf_d1_S (S K T r sigma : R) :
  0 < S -> 0 < K -> 0 < T -> 0 < sigma ->
  derivable_pt_lim
    (fun s => BlackScholes.norm_cdf (Formula.d1 s K T r sigma)) S
    (BlackScholes.norm_pdf (Formula.d1 S K T r sigma)
     / (S * sigma * sqrt T)).
Proof.
  intros HS HK HT Hs.
  pose proof (total_vol_pos sigma T Hs HT) as Hw.
  assert (Hq : 0 < sqrt T) by now apply sqrt_lt_R0.
  replace (BlackScholes.norm_pdf (Formula.d1 S K T r sigma)
           / (S * sigma * sqrt T))
    with (BlackScholes.norm_pdf (Formula.d1 S K T r sigma)
          * ((/ (S / K) * (1 / K) + 0) / (sigma * sqrt T)))
    by (field; lra).
  apply (derivable_pt_lim_comp (fun s => Formula.d1 s K T r sigma)
                               BlackScholes.norm_cdf).
  - unfold Formula.d1.
    apply (derivable_pt_lim_div_scal
             (fun s => ln (s / K) + (r + 0.5 * sigma ^ 2) * T) S
             (/ (S / K) * (1 / K) + 0) (sigma * sqrt T)).
    apply (derivable_pt_lim_plus (fun s => ln (s / K))
                                 (fun _ => (r + 0.5 * sigma ^ 2) * T)).
    + apply (derivable_pt_lim_comp (fun s => s / K) ln).
      * apply (derivable_pt_lim_div_scal id S 1 K), derivable_pt_lim_id.
      * apply derivable_pt_lim_ln. now apply Rdiv_lt_0_compat.
    + apply derivable_pt_lim_const.
  - apply derivable_pt_lim_norm_cdf.
Qed.

Lemma derivable_pt_lim_call_sigma (S K T r sigma : R) :
  0 < S -> 0 < K -> 0 < T -> 0 < sigma ->
  derivable_pt_lim (fun v => Formula.call S K T r v) sigma
    (S * sqrt T * BlackScholes.norm_pdf (Formula.d1 S K T r sigma)).
Proof.
  intros HS HK HT Hs.
  pose proof (discounted_strike_pos K r T HK) as Hk.
  pose proof (total_vol_pos sigma T Hs HT) as Hw.
  apply (derivable_pt_lim_locally_ext
           (fun v => core S (K * exp (- r * T)) (v * sqrt T))
           _ sigma (sigma / 2) (2 * sigma)).
  - lra.
  - intros z Hz. symmetry. apply call_core; lra.
  - rewrite d1_core by assumption.
    set (k := K * exp (- r * T)) in *. set (w := sigma * sqrt T) in *.
    replace (S * sqrt T * BlackScholes.norm_pdf (ln (S / k) / w + w / 2))
      with (0 * BlackScholes.norm_cdf (ln (S / k) / w + w / 2)
            - 0 * BlackScholes.norm_cdf (ln (S / k) / w - w / 2)
            + S * BlackScholes.norm_pdf (ln (S / k) / w + w / 2)
              * (1 * sqrt T))
      by ring.
    apply (derivable_pt_lim_core (fun _ => S) (fun _ => k)
             (fun v => v * sqrt T) sigma 0 0 (1 * sqrt T)).
    + apply derivable_pt_lim_const.
    + apply derivable_pt_lim_const.
    + apply (derivable_pt_lim_scal_right id sigma 1 (sqrt T)),
        derivable_pt_lim_id.
    + exact HS.
    + exact Hk.
    + exact Hw.
Qed.

Lemma derivable_pt_lim_discount (K T r : R) :
  derivable_pt_lim (fun x => K * exp (- x * T)) r
                   (- (K * T * exp (- r * T))).
Proof.
  replace (- (K * T * exp (- r * T)))
    with (K * (exp (- r * T) * (- 1 * T))) by ring.
  apply (derivable_pt_lim_scal (fun x => exp (- x * T)) K).
  apply (derivable_pt_lim_comp (fun x => - x * T) exp).
  - apply (derivable_pt_lim_scal_right (fun x => - x) r (- 1) T).
    apply (derivable_pt_lim_opp id r 1), derivable_pt_lim_id.
  - apply derivable_pt_lim_exp.
Qed.

Lemma derivable_pt_lim_call_r (S K T r sigma : R) :
  0 < S -> 0 < K -> 0 < T -> 0 < sigma ->
  derivable_pt_lim (fun x => Formula.call S K T x sigma) r
    (K * T * exp (- r * T)
     * BlackScholes.norm_cdf (Formula.d2 S K T r sigma)).
Proof.
  intros HS HK HT Hs.
  pose proof (discounted_strike_pos K r T HK) as Hk.
  pose proof (total_vol_pos sigma T Hs HT) as Hw.
  apply (derivable_pt_lim_locally_ext
           (fun x => core S (K * exp (- x * T)) (sigma * sqrt T))
           _ r (r - 1) (r + 1)).
  - lra.
  - intros z Hz. symmetry. apply call_core; lra.
  - rewrite d2_core by assumption.
    set (k := K * exp (- r * T)) in *. set (w := sigma * sqrt T) in *.
    replace (K * T * exp (- r * T)
             * BlackScholes.norm_cdf (ln (S / k) / w - w / 2))
      with (0 * BlackScholes.norm_cdf (ln (S / k) / w + w / 2)
            - (- (K * T * exp (- r * T)))
              * BlackScholes.norm_cdf (ln (S / k) / w - w / 2)
            + S * BlackScholes.norm_pdf (ln (S / k) / w + w / 2) * 0)
      by ring.
    apply (derivable_pt_lim_core (fun _ => S) (fun x => K * exp (- x * T))
             (fun _ => w) r 0 (- (K * T * exp (- r * T))) 0).
    + apply derivable_pt_lim_const.
    + apply derivable_pt_lim_discount.
    + apply derivable_pt_lim_const.
    + exact HS.
    + exact Hk.
    + exact Hw.
Qed.

Lemma derivable_pt_lim_call_expiry (S K T r sigma : R) :
  0 < S -> 0 < K -> 0 < T -> 0 < sigma ->
  derivable_pt_lim (fun t => Formula.call S K t r sigma) T
    (- 365 * theta_call S K T r sigma).
Proof.
  intros HS HK HT Hs.
  apply (derivable_pt_lim_locally_ext
           (fun t => core S (K * exp (- r * t)) (sigma * sqrt t))
           _ T (T / 2) (2 * T)).
  - lra.
  - intros z Hz. symmetry. apply call_core; lra.
  - now apply derivable_pt_lim_call_T.
Qed.

(** *** Derivatives of the prices computed by the pricer *)

Lemma derivable_pt_lim_shift (f h : R -> R) (x a b l m : R) (g : R -> R) :
  a < x < b ->
  (forall z, a < z < b -> g z = f z + h z) ->
  derivable_pt_lim f x l -> derivable_pt_lim h x m ->
  derivable_pt_lim g x (l + m).
Proof.
  intros Hx E Df Dh.
  apply (derivable_pt_lim_locally_ext (fun z => f z + h z) g x a b).
  - exact Hx.
  - intros z Hz. symmetry. now apply E.
  - now apply (derivable_pt_lim_plus f h).
Qed.

(** The derivative of the option price in the spot. *)
Lemma option_price_spot_derivative
      (option_type : string) (S K T r sigma_hv sigma_iv : R) :
  0 < S -> 0 < K -> 0 < sigma_iv ->
  derivable_pt_lim
    (fun s => option_price option_type s K T r sigma_hv sigma_iv) S
    (if is_put_type option_type
     then BlackScholes.norm_cdf
            (Formula.d1 S K (Py.max T 0.001) r sigma_iv) - 1
     else BlackScholes.norm_cdf
            (Formula.d1 S K (Py.max T 0.001) r sigma_iv)).
Proof.
  intros HS HK Hiv.
  assert (HT : 0 < Py.max T 0.001) by (pose proof (max_ge_r T 0.001); lra).
  pose proof (derivable_pt_lim_call_S S K _ r sigma_iv HS HK HT Hiv) as D.
  assert (Dc : derivable_pt_lim
                 (fun s => call_price s K T r sigma_hv sigma_iv) S
                 (BlackScholes.norm_cdf
                    (Formula.d1 S K (Py.max T 0.001) r sigma_iv))).
  { apply (derivable_pt_lim_locally_ext
             (fun s => Formula.call s K (Py.max T 0.001) r sigma_iv)
             _ S (S / 2) (2 * S)); [lra | | exact D].
    intros z Hz. symmetry. apply call_price_eq; lra. }
  unfold option_price. destruct (is_put_type option_type).
  - replace (BlackScholes.norm_cdf
               (Formula.d1 S K (Py.max T 0.001) r sigma_iv) - 1)
      with (BlackScholes.norm_cdf
              (Formula.d1 S K (Py.max T 0.001) r sigma_iv)
            + (- 1 + 0)) by ring.
    apply (derivable_pt_lim_shift
             (fun s => call_price s K T r sigma_hv sigma_iv)
             (fun s => - s + K * exp (- r * Py.max T 0.001))
             S (S / 2) (2 * S)); [lra | | exact Dc | ].
    + intros z Hz. rewrite put_price_call_price by lra. ring.
    + apply (derivable_pt_lim_plus (fun s => - s)
               (fun _ => K * exp (- r * Py.max T 0.001))).
      * apply (derivable_pt_lim_opp id S 1), derivable_pt_lim_id.
      * apply derivable_pt_lim_const.
  - exact Dc.
Qed.

(** X6.  Delta is the derivative of the option price in the spot: of the
    call price for a call, of the put price for a put. *)
Theorem delta_is_spot_sensitivity
        (option_type : string) (S K T r sigma_hv sigma_iv : R) :
  0 < S -> 0 < K -> 0 < sigma_iv ->
  exists g,
    greeks_of option_type S K T r sigma_hv sigma_iv = Ok g /\
    derivable_pt_lim
      (fun s => option_price option_type s K T r sigma_hv sigma_iv) S
      (Greeks.delta g).
Proof.
  intros HS HK Hiv.
  destruct (greeks_of_ok option_type S K T r sigma_hv sigma_iv HS HK Hiv)
    as [g [E [Ed _]]].
  exists g. split; [exact E | ]. rewrite Ed.
  now apply option_price_spot_derivative.
Qed.

Lemma delta_is_spot_sensitivity_witness :
  0 < 100 /\ 0 < 110 /\ 0 < 0.35 /\
  exists g,
    greeks_of "put" 100 110 (35 / 365) 0.045 0.30 0.35 = Ok g /\
    derivable_pt_lim
      (fun s => option_price "put" s 110 (35 / 365) 0.045 0.30 0.35) 100
      (Greeks.delta g).
Proof.
  assert (H1 : 0 < 100) by lra. assert (H2 : 0 < 110) by lra.
  assert (H3 : 0 < 0.35) by lra.
  repeat split; try assumption.
  exact (delta_is_spot_sensitivity "put" 100 110 (35 / 365) 0.045 0.30 0.35
           H1 H2 H3).
Defined.

(** X7.  Gamma is the derivative of delta in the spot, for calls and for
    puts alike, and it is positive. *)
Theorem gamma_is_delta_sensitivity
        (option_type : string) (S K T r sigma_hv sigma_iv : R) :
  0 < S -> 0 < K -> 0 < sigma_iv ->
  exists g,
    greeks_of option_type S K T r sigma_hv sigma_iv = Ok g /\
    derivable_pt_lim
      (fun s => greek Greeks.delta
                  (greeks_of option_type s K T r sigma_hv sigma_iv)) S
      (Greeks.gamma g) /\
    0 < Greeks.gamma g.
Proof.
  intros HS HK Hiv.
  destruct (greeks_of_ok option_type S K T r sigma_hv sigma_iv HS HK Hiv)
    as [g [E [_ [Eg _]]]].
  exists g. split; [exact E | ]. rewrite Eg. clear E Eg.
  assert (HT : 0 < Py.max T 0.001) by (pose proof (max_ge_r T 0.001); lra).
  assert (Hq : 0 < sqrt (Py.max T 0.001)) by now apply sqrt_lt_R0.
  pose proof (derivable_pt_lim_cdf_d1_S S K _ r sigma_iv HS HK HT Hiv) as D.
  split.
  - set (l := BlackScholes.norm_pdf
                (Formula.d1 S K (Py.max T 0.001) r sigma_iv)
              / (S * sigma_iv * sqrt (Py.max T 0.001))) in *.
    apply (derivable_pt_lim_locally_ext
             (fun s => if is_put_type option_type
                       then BlackScholes.norm_cdf
                              (Formula.d1 s K (Py.max T 0.001) r sigma_iv)
                            - 1
                       else BlackScholes.norm_cdf
                              (Formula.d1 s K (Py.max T 0.001) r sigma_iv))
             _ S (S / 2) (2 * S)); [lra | | ].
    + intros z Hz.
      destruct (greeks_of_ok option_type z K T r sigma_hv sigma_iv
                  ltac:(lra) HK Hiv) as [gz [Ez [Edz _]]].
      rewrite Ez. cbn [greek]. now rewrite Edz.
    + destruct (is_put_type option_type); [ | exact D].
      replace l with (l - 0) by ring.
      apply (derivable_pt_lim_minus
               (fun s => BlackScholes.norm_cdf
                           (Formula.d1 s K (Py.max T 0.001) r sigma_iv))
               (fun _ => 1)); [exact D | apply derivable_pt_lim_const].
  - apply Rdiv_lt_0_compat; [apply norm_pdf_pos | ].
    repeat apply Rmult_lt_0_compat; assumption.
Qed.

Lemma gamma_is_delta_sensitivity_witness :
  0 < 100 /\ 0 < 110 /\ 0 < 0.35 /\
  exists g,
    greeks_of "call" 100 110 (35 / 365) 0.045 0.30 0.35 = Ok g /\
    0 < Greeks.gamma g.
Proof.
  assert (H1 : 0 < 100) by lra. assert (H2 : 0 < 110) by lra.
  assert (H3 : 0 < 0.35) by lra.
  repeat split; try assumption.
  destruct (gamma_is_delta_sensitivity "call" 100 110 (35 / 365) 0.045
              0.30 0.35 H1 H2 H3) as [g [E [_ P]]].
  exists g. split; assumption.
Defined.

(** X8.  Vega times 100 (the entry [vega_dollar]) is the derivative of the
    option price in the implied volatility, for calls and for puts alike,
    and it is positive. *)
Theorem vega_is_volatility_sensitivity
        (option_type : string) (S K T r sigma_hv sigma_iv : R) :
  0 < S -> 0 < K -> 0 < sigma_iv ->
  exists g,
    greeks_of option_type S K T r sigma_hv sigma_iv = Ok g /\
    derivable_pt_lim
      (fun v => option_price option_type S K T r sigma_hv v) sigma_iv
      (Greeks.vega_dollar g) /\
    Greeks.vega_dollar g = 100 * Greeks.vega g /\
    0 < Greeks.vega g.
Proof.
  intros HS HK Hiv.
  destruct (greeks_of_ok option_type S K T r sigma_hv sigma_iv HS HK Hiv)
    as [g [E [_ [_ [_ [Ev [_ [_ [_ [Evd _]]]]]]]]]].
  exists g. split; [exact E | ].
  assert (HT : 0 < Py.max T 0.001) by (pose proof (max_ge_r T 0.001); lra).
  assert (Hq : 0 < sqrt (Py.max T 0.001)) by now apply sqrt_lt_R0.
  pose proof (norm_pdf_pos (Formula.d1 S K (Py.max T 0.001) r sigma_iv))
    as Hp.
  pose proof (derivable_pt_lim_call_sigma S K _ r sigma_iv HS HK HT Hiv)
    as D.
  set (l := S * sqrt (Py.max T 0.001)
            * BlackScholes.norm_pdf
                (Formula.d1 S K (Py.max T 0.001) r sigma_iv)) in *.
  assert (Hl : 0 < l)
    by (unfold l; apply Rmult_lt_0_compat;
        [apply Rmult_lt_0_compat | ]; assumption).
  assert (El : Greeks.vega_dollar g = l) by (rewrite Evd, Ev; lra).
  assert (Dc : derivable_pt_lim
                 (fun v => call_price S K T r sigma_hv v) sigma_iv l).
  { apply (derivable_pt_lim_locally_ext
             (fun v => Formula.call S K (Py.max T 0.001) r v)
             _ sigma_iv (sigma_iv / 2) (2 * sigma_iv)); [lra | | exact D].
    intros z Hz. symmetry. apply call_price_eq; lra. }
  split; [ | split; [lra | lra]].
  rewrite El. unfold option_price. destruct (is_put_type option_type).
  - replace l with (l + 0) by ring.
    apply (derivable_pt_lim_shift
             (fun v => call_price S K T r sigma_hv v)
             (fun _ => - S + K * exp (- r * Py.max T 0.001))
             sigma_iv (sigma_iv / 2) (2 * sigma_iv)); [lra | | exact Dc | ].
    + intros z Hz. rewrite put_price_call_price by lra. ring.
    + apply derivable_pt_lim_const.
  - exact Dc.
Qed.

Lemma vega_is_volatility_sensitivity_witness :
  0 < 100 /\ 0 < 110 /\ 0 < 0.35 /\
  exists g,
    greeks_of "call" 100 110 (35 / 365) 0.045 0.30 0.35 = Ok g /\
    0 < Greeks.vega g.
Proof.
  assert (H1 : 0 < 100) by lra. assert (H2 : 0 < 110) by lra.
  assert (H3 : 0 < 0.35) by lra.
  repeat split; try assumption.
  destruct (vega_is_volatility_sensitivity "call" 100 110 (35 / 365) 0.045
              0.30 0.35 H1 H2 H3) as [g [E [_ [_ P]]]].
  exists g. split; assumption.
Defined.

(** X9.  Rho times 100 is the derivative of the option price in the
    interest rate; it is never negative for a call and never positive for
    a put. *)
Theorem rho_is_rate_sensitivity
        (option_type : string) (S K T r sigma_hv sigma_iv : R) :
  0 < S -> 0 < K -> 0 < sigma_iv ->
  exists g,
    greeks_of option_type S K T r sigma_hv sigma_iv = Ok g /\
    derivable_pt_lim
      (fun x => option_price option_type S K T x sigma_hv sigma_iv) r
      (100 * Greeks.rho g) /\
    (if is_put_type option_type
     then Greeks.rho g <= 0 else 0 <= Greeks.rho g).
Proof.
  intros HS HK Hiv.
  destruct (greeks_of_ok option_type S K T r sigma_hv sigma_iv HS HK Hiv)
    as [g [E [_ [_ [_ [_ [Er _]]]]]]].
  exists g. split; [exact E | ]. rewrite Er. clear E Er.
  assert (HT : 0 < Py.max T 0.001) by (pose proof (max_ge_r T 0.001); lra).
  pose proof (derivable_pt_lim_call_r S K _ r sigma_iv HS HK HT Hiv) as D.
  set (T' := Py.max T 0.001) in *.
  set (d2 := Formula.d2 S K T' r sigma_iv) in *.
  pose proof (norm_cdf_bounds d2) as [B1 B2].
  pose proof (exp_pos (- r * T')) as He.
  assert (Hc : 0 < K * T' * exp (- r * T'))
    by (repeat apply Rmult_lt_0_compat; lra).
  assert (Dc : derivable_pt_lim
                 (fun x => call_price S K T x sigma_hv sigma_iv) r
                 (K * T' * exp (- r * T') * BlackScholes.norm_cdf d2)).
  { apply (derivable_pt_lim_locally_ext
             (fun x => Formula.call S K T' x sigma_iv)
             _ r (r - 1) (r + 1)); [lra | | exact D].
    intros z Hz. symmetry. apply call_price_eq; lra. }
  unfold option_price. destruct (is_put_type option_type).
  - rewrite norm_cdf_sym. split.
    + replace (100 * (- K * T' * exp (- r * T')
                      * (1 - BlackScholes.norm_cdf d2) / 100))
        with (K * T' * exp (- r * T') * BlackScholes.norm_cdf d2
              + (0 + - (K * T' * exp (- r * T')))) by field.
      apply (derivable_pt_lim_shift
               (fun x => call_price S K T x sigma_hv sigma_iv)
               (fun x => - S + K * exp (- x * T'))
               r (r - 1) (r + 1)); [lra | | exact Dc | ].
      * intros z Hz. rewrite put_price_call_price by lra.
        fold T'. ring.
      * apply (derivable_pt_lim_plus (fun _ => - S)
                 (fun x => K * exp (- x * T'))).
        -- apply derivable_pt_lim_const.
        -- apply derivable_pt_lim_discount.
    + assert (0 <= K * T' * exp (- r * T') * (1 - BlackScholes.norm_cdf d2))
        by (apply Rmult_le_pos; lra).
      lra.
  - split.
    + replace (100 * (K * T' * exp (- r * T')
                      * BlackScholes.norm_cdf d2 / 100))
        with (K * T' * exp (- r * T') * BlackScholes.norm_cdf d2) by field.
      exact Dc.
    + assert (0 <= K * T' * exp (- r * T') * BlackScholes.norm_cdf d2)
        by (apply Rmult_le_pos; lra).
      lra.
Qed.

Lemma rho_is_rate_sensitivity_witness :
  0 < 100 /\ 0 < 110 /\ 0 < 0.35 /\
  exists g,
    greeks_of "call" 100 110 (35 / 365) 0.045 0.30 0.35 = Ok g /\
    0 <= Greeks.rho g.
Proof.
  assert (H1 : 0 < 100) by lra. assert (H2 : 0 < 110) by lra.
  assert (H3 : 0 < 0.35) by lra.
  repeat split; try assumption.
  destruct (rho_is_rate_sensitivity "call" 100 110 (35 / 365) 0.045
              0.30 0.35 H1 H2 H3) as [g [E [_ P]]].
  exists g. split; [exact E | exact P].
Defined.

Lemma derivable_pt_lim_discount_T (K T r : R) :
  derivable_pt_lim (fun t => K * exp (- r * t)) T
                   (- (r * K * exp (- r * T))).
Proof.
  replace (- (r * K * exp (- r * T)))
    with (K * (exp (- r * T) * (- r * 1))) by ring.
  apply (derivable_pt_lim_scal (fun t => exp (- r * t)) K).
  apply (derivable_pt_lim_comp (fun t => - r * t) exp).
  - apply (derivable_pt_lim_scal id (- r) T 1), derivable_pt_lim_id.
  - apply derivable_pt_lim_exp.
Qed.

(** X10.  Above the constructor's floor of [0.001] years, theta times 365
    is minus the derivative of the option price in the time to expiry, for
    calls and for puts; a call's theta is negative when the rate is not
    negative. *)
Theorem theta_is_time_decay
        (option_type : string) (S K T r sigma_hv sigma_iv : R) :
  0 < S -> 0 < K -> 0 < sigma_iv -> 0.001 < T ->
  exists g,
    greeks_of option_type S K T r sigma_hv sigma_iv = Ok g /\
    derivable_pt_lim
      (fun t => option_price option_type S K t r sigma_hv sigma_iv) T
      (- (365 * Greeks.theta g)) /\
    (is_put_type option_type = false -> 0 <= r -> Greeks.theta g < 0).
Proof.
  intros HS HK Hiv HT1.
  destruct (greeks_of_ok option_type S K T r sigma_hv sigma_iv HS HK Hiv)
    as [g [E [_ [_ [Et _]]]]].
  exists g. split; [exact E | ]. rewrite Et. clear E Et.
  assert (ET : Py.max T 0.001 = T) by (apply max_left; lra).
  rewrite ET.
  assert (HT : 0 < T) by lra.
  assert (Hq : 0 < sqrt T) by now apply sqrt_lt_R0.
  pose proof (derivable_pt_lim_call_expiry S K T r sigma_iv HS HK HT Hiv)
    as D.
  assert (Dc : derivable_pt_lim
                 (fun t => call_price S K t r sigma_hv sigma_iv) T
                 (- 365 * theta_call S K T r sigma_iv)).
  { apply (derivable_pt_lim_locally_ext
             (fun t => Formula.call S K t r sigma_iv)
             _ T ((T + 0.001) / 2) (T + 1)); [lra | | exact D].
    intros z Hz. rewrite call_price_eq by lra.
    rewrite max_left by lra. reflexivity. }
  unfold option_price. destruct (is_put_type option_type).
  - split; [ | discriminate].
    rewrite norm_cdf_sym.
    replace (- (365 * _))
      with (- 365 * theta_call S K T r sigma_iv
            + (0 + - (r * K * exp (- r * T))))
      by (unfold theta_call; field; lra).
    apply (derivable_pt_lim_shift
             (fun t => call_price S K t r sigma_hv sigma_iv)
             (fun t => - S + K * exp (- r * t))
             T ((T + 0.001) / 2) (T + 1)); [lra | | exact Dc | ].
    + intros z Hz. rewrite put_price_call_price by lra.
      rewrite max_left by lra. ring.
    + apply (derivable_pt_lim_plus (fun _ => - S)
               (fun t => K * exp (- r * t))).
      * apply derivable_pt_lim_const.
      * apply derivable_pt_lim_discount_T.
  - split.
    + replace (- (365 * _)) with (- 365 * theta_call S K T r sigma_iv)
        by (unfold theta_call; field; lra).
      exact Dc.
    + intros _ Hr.
      pose proof (theta_call_neg S K T r sigma_iv HS HK HT Hiv Hr) as N.
      unfold theta_call in N. exact N.
Qed.

Lemma theta_is_time_decay_witness :
  0 < 100 /\ 0 < 110 /\ 0 < 0.35 /\ 0.001 < 35 / 365 /\
  exists g,
    greeks_of "call" 100 110 (35 / 365) 0.045 0.30 0.35 = Ok g /\
    Greeks.theta g < 0.
Proof.
  assert (H1 : 0 < 100) by lra. assert (H2 : 0 < 110) by lra.
  assert (H3 : 0 < 0.35) by lra. assert (H4 : 0.001 < 35 / 365) by lra.
  repeat split; try assumption.
  destruct (theta_is_time_decay "call" 100 110 (35 / 365) 0.045
              0.30 0.35 H1 H2 H3 H4) as [g [E [_ P]]].
  exists g. split; [exact E | ]. apply P; [reflexivity | lra].
Defined.

(** X11.  The Greeks of a call and of a put on the same inputs: the
    deltas differ by one, with the call's between 0 and 1 and the put's
    between -1 and 0 (bounds included); gamma and vega coincide; the rhos
    differ by [K T e^{-rT} / 100] and the thetas by [r K e^{-rT} / 365]. *)
Theorem greeks_call_put_relations
        (call_type put_type : string) (S K T r sigma_hv sigma_iv : R) :
  0 < S -> 0 < K -> 0 < sigma_iv ->
  is_put_type call_type = false -> is_put_type put_type = true ->
  exists c p,
    greeks_of call_type S K T r sigma_hv sigma_iv = Ok c /\
    greeks_of put_type S K T r sigma_hv sigma_iv = Ok p /\
    0 <= Greeks.delta c <= 1 /\
    -1 <= Greeks.delta p <= 0 /\
    Greeks.delta c - Greeks.delta p = 1 /\
    Greeks.gamma c = Greeks.gamma p /\
    Greeks.vega c = Greeks.vega p /\
    Greeks.rho c - Greeks.rho p
    = K * Py.max T 0.001 * exp (- r * Py.max T 0.001) / 100 /\
    Greeks.theta p - Greeks.theta c
    = r * K * exp (- r * Py.max T 0.001) / 365.
Proof.
  intros HS HK Hiv Hc Hp.
  destruct (greeks_of_ok call_type S K T r sigma_hv sigma_iv HS HK Hiv)
    as [c [Ec [Dc [Gc [Tc [Vc [Rc _]]]]]]].
  destruct (greeks_of_ok put_type S K T r sigma_hv sigma_iv HS HK Hiv)
    as [p [Ep [Dp [Gp [Tp [Vp [Rp _]]]]]]].
  rewrite Hc in *. rewrite Hp in *.
  exists c, p. split; [exact Ec | ]. split; [exact Ep | ].
  rewrite Dc, Dp, Gc, Gp, Vc, Vp, Rc, Rp, Tc, Tp.
  rewrite norm_cdf_sym.
  pose proof (norm_cdf_bounds
                (Formula.d1 S K (Py.max T 0.001) r sigma_iv)) as [B1 B2].
  repeat split; lra.
Qed.

Lemma greeks_call_put_relations_witness :
  0 < 100 /\ 0 < 110 /\ 0 < 0.35 /\
  is_put_type "call" = false /\ is_put_type "Put" = true /\
  exists c p,
    greeks_of "call" 100 110 (35 / 365) 0.045 0.30 0.35 = Ok c /\
    greeks_of "Put" 100 110 (35 / 365) 0.045 0.30 0.35 = Ok p /\
    Greeks.delta c - Greeks.delta p = 1.
Proof.
  assert (H1 : 0 < 100) by lra. assert (H2 : 0 < 110) by lra.
  assert (H3 : 0 < 0.35) by lra.
  assert (H4 : is_put_type "call" = false) by reflexivity.
  assert (H5 : is_put_type "Put" = true) by reflexivity.
  repeat split; try assumption.
  destruct (greeks_call_put_relations "call" "Put" 100 110 (35 / 365) 0.045
              0.30 0.35 H1 H2 H3 H4 H5)
    as [c [p [Ec [Ep [_ [_ [D _]]]]]]].
  exists c, p. repeat split; assumption.
Defined.

(** X12.  The option type is matched after lower-casing and never
    rejected: every spelling of "put" gives the put Greeks, and every other
    string gives the call Greeks, on all inputs (exceptions included). *)
Theorem option_type_dispatch
        (option_type : string) (S K T r sigma_hv sigma_iv : R) :
  greeks_of option_type S K T r sigma_hv sigma_iv
  = greeks_of (if is_put_type option_type then "put" else "call")
              S K T r sigma_hv sigma_iv.
Proof.
  unfold greeks_of, Greeks.init.
  destruct (BlackScholes.get_d1 _) as [d1 | e]; [ | reflexivity].
  destruct (BlackScholes.get_d2 _) as [d2 | e]; [ | reflexivity].
  cbn [bind].
  unfold Greeks.calculate, Greeks._delta, Greeks._gamma, Greeks._theta,
    Greeks._vega, Greeks._rho, Greeks.is_put.
  cbn [Greeks.gT Greeks.gS Greeks.gK Greeks.gr Greeks.gsigma Greeks.d1
       Greeks.d2 Greeks.option_type].
  fold (is_put_type option_type).
  destruct (is_put_type option_type) eqn:E.
  - change (String.eqb (Py.lower "put") "put") with true. reflexivity.
  - change (String.eqb (Py.lower "call") "put") with false. reflexivity.
Qed.

(** ** hedging.py *)

(** X13.  The hedge of a long option position, from the delta the Greeks
    engine returns: the exposure is [delta * num_contracts * 100] and the
    hedge is the opposite number of shares; the direction is [SHORT]
    exactly when the delta is positive and [LONG] otherwise, a zero delta
    included; for puts the direction is always [LONG], with between 0 and
    [100 * num_contracts] shares; for calls the shares lie between
    [- 100 * num_contracts] and 0; the capital is the absolute number of
    shares times the stock price, at most [100 * num_contracts * S]. *)
Theorem hedge_direction
        (option_type : string) (S K T r sigma_hv sigma_iv : R)
        (num_contracts : Z) :
  0 < S -> 0 < K -> 0 < sigma_iv -> (0 < num_contracts)%Z ->
  exists g,
    greeks_of option_type S K T r sigma_hv sigma_iv = Ok g /\
    let h := Hedging.calculate (Hedging.init g S num_contracts) in
    Hedging.delta_per_contract h = Greeks.delta g /\
    Hedging.delta_exposure h = Greeks.delta g * IZR num_contracts * 100 /\
    Hedging.shares h = - Hedging.delta_exposure h /\
    (Hedging.direction h = Hedging.SHORT <-> 0 < Greeks.delta g) /\
    (Hedging.direction h = Hedging.LONG <-> Greeks.delta g <= 0) /\
    (is_put_type option_type = true ->
     Hedging.direction h = Hedging.LONG /\
     0 <= Hedging.shares h <= 100 * IZR num_contracts) /\
    (is_put_type option_type = false ->
     - (100 * IZR num_contracts) <= Hedging.shares h <= 0) /\
    Hedging.capital h = Rabs (Hedging.shares h) * S /\
    0 <= Hedging.capital h <= 100 * IZR num_contracts * S.
Proof.
  intros HS HK Hiv Hn.
  destruct (greeks_of_ok option_type S K T r sigma_hv sigma_iv HS HK Hiv)
    as [g [E [Ed _]]].
  exists g. split; [exact E | ].
  pose proof (norm_cdf_bounds
                (Formula.d1 S K (Py.max T 0.001) r sigma_iv)) as [B1 B2].
  assert (Hn' : 0 < IZR num_contracts) by now apply IZR_lt.
  unfold Hedging.calculate, Hedging.init.
  cbn [Hedging.delta Hedging.stock_price Hedging.num_contracts
       Hedging.shares_per_contract Hedging.direction Hedging.shares
       Hedging.delta_exposure Hedging.capital Hedging.delta_per_contract].
  set (d := Greeks.delta g) in *.
  set (n := IZR num_contracts) in *.
  assert (Hd : -1 <= d <= 1) by (destruct (is_put_type option_type); lra).
  assert (Ha : Rabs (- (d * n * 100)) <= 100 * n).
  { apply Rabs_le. nra. }
  pose proof (Rabs_pos (- (d * n * 100))) as Hp.
  split; [reflexivity | ]. split; [reflexivity | ].
  split; [reflexivity | ].
  split.
  { destruct (Rlt_dec (- (d * n * 100)) 0) as [L | L].
    - split; [intros _; nra | reflexivity].
    - split; [discriminate | intro; exfalso; nra]. }
  split.
  { destruct (Rlt_dec (- (d * n * 100)) 0) as [L | L].
    - split; [discriminate | intro; exfalso; nra].
    - split; [intros _; nra | reflexivity]. }
  split.
  { intro Ep. rewrite Ep in Ed.
    destruct (Rlt_dec (- (d * n * 100)) 0) as [L | L]; [exfalso; nra | ].
    split; [reflexivity | ]. split; nra. }
  split.
  { intro Ec. rewrite Ec in Ed. split; nra. }
  split; [reflexivity | ]. split; nra.
Qed.

Lemma hedge_direction_witness :
  exists g,
    greeks_of "put" 100 90 (35 / 365) 0.045 0.30 0.35 = Ok g /\
    Hedging.direction (Hedging.calculate (Hedging.init g 100 10))
    = Hedging.LONG /\
    0 <= Hedging.shares (Hedging.calculate (Hedging.init g 100 10))
      <= 100 * IZR 10.
Proof.
  assert (H1 : 0 < 100) by lra. assert (H2 : 0 < 90) by lra.
  assert (H3 : 0 < 0.35) by lra. assert (H4 : (0 < 10)%Z) by lia.
  destruct (hedge_direction "put" 100 90 (35 / 365) 0.045 0.30 0.35 10
              H1 H2 H3 H4) as [g [E [_ [_ [_ [_ [_ [P _]]]]]]]].
  exists g. split; [exact E | ]. apply P. reflexivity.
Defined.

(** X14.  The hedged position is delta neutral: the value of the option
    contracts together with the hedge shares has derivative zero in the
    spot, at the spot the hedge was computed for. *)
Theorem hedge_is_delta_neutral
        (option_type : string) (S K T r sigma_hv sigma_iv : R)
        (num_contracts : Z) :
  0 < S -> 0 < K -> 0 < sigma_iv ->
  exists g,
    greeks_of option_type S K T r sigma_hv sigma_iv = Ok g /\
    let h := Hedging.calculate (Hedging.init g S num_contracts) in
    derivable_pt_lim
      (fun s => option_price option_type s K T r sigma_hv sigma_iv
                * (IZR num_contracts * 100)
                + Hedging.shares h * s) S 0.
Proof.
  intros HS HK Hiv.
  destruct (greeks_of_ok option_type S K T r sigma_hv sigma_iv HS HK Hiv)
    as [g [E [Ed _]]].
  pose proof (option_price_spot_derivative option_type S K T r sigma_hv
                sigma_iv HS HK Hiv) as D.
  rewrite <- Ed in D.
  exists g. split; [exact E | ].
  unfold Hedging.calculate, Hedging.init.
  cbn [Hedging.delta Hedging.stock_price Hedging.num_contracts
       Hedging.shares_per_contract Hedging.shares].
  set (n := IZR num_contracts).
  replace 0 with (Greeks.delta g * (n * 100)
                  + - (Greeks.delta g * n * 100) * 1) by ring.
  apply (derivable_pt_lim_plus
           (fun s => option_price option_type s K T r sigma_hv sigma_iv
                     * (n * 100))
           (fun s => - (Greeks.delta g * n * 100) * s)).
  - apply (derivable_pt_lim_scal_right
             (fun s => option_price option_type s K T r sigma_hv sigma_iv)
             S (Greeks.delta g) (n * 100)).
    exact D.
  - apply (derivable_pt_lim_scal id (- (Greeks.delta g * n * 100)) S 1),
      derivable_pt_lim_id.
Qed.

Lemma hedge_is_delta_neutral_witness :
  0 < 100 /\ 0 < 110 /\ 0 < 0.35 /\
  exists g,
    greeks_of "call" 100 110 (35 / 365) 0.045 0.30 0.35 = Ok g /\
    derivable_pt_lim
      (fun s => option_price "call" s 110 (35 / 365) 0.045 0.30 0.35
                * (IZR 10 * 100)
                + Hedging.shares
                    (Hedging.calculate (Hedging.init g 100 10)) * s)
      100 0.
Proof.
  assert (H1 : 0 < 100) by lra. assert (H2 : 0 < 110) by lra.
  assert (H3 : 0 < 0.35) by lra.
  repeat split; try assumption.
  exact (hedge_is_delta_neutral "call" 100 110 (35 / 365) 0.045 0.30 0.35
           10 H1 H2 H3).
Defined.

(** X15.  The hedge profit for a relative price move is the number of
    hedge shares times the move in the price; in size it is the hedge
    capital times the size of the move, a short hedge gaining exactly when
    the price falls. *)
Theorem hedge_pnl_capital (greeks : Greeks.greeks) (stock_price : R)
        (num_contracts : Z) (pct : R) :
  0 <= stock_price ->
  let self := Hedging.init greeks stock_price num_contracts in
  let h := Hedging.calculate self in
  Hedging.get_hedge_pnl self pct
  = Hedging.shares h * (stock_price * pct) /\
  Rabs (Hedging.get_hedge_pnl self pct) = Hedging.capital h * Rabs pct /\
  (Hedging.direction h = Hedging.SHORT ->
   Hedging.get_hedge_pnl self pct = - (Hedging.capital h * pct)) /\
  (Hedging.direction h = Hedging.LONG ->
   Hedging.get_hedge_pnl self pct = Hedging.capital h * pct).
Proof.
  intros HS self h. unfold h, self.
  unfold Hedging.calculate, Hedging.get_hedge_pnl, Hedging.init.
  cbn [Hedging.direction Hedging.shares Hedging.capital Hedging.delta
       Hedging.stock_price Hedging.num_contracts
       Hedging.shares_per_contract].
  set (d := Greeks.delta greeks). set (n := IZR num_contracts).
  set (s := stock_price) in *.
  assert (E : - d * n * 100 * (s * (1 + pct) - s)
              = - (d * n * 100) * (s * pct)) by ring.
  rewrite E. split; [reflexivity | ].
  split.
  - rewrite !Rabs_mult. rewrite (Rabs_pos_eq s) by exact HS. ring.
  - destruct (Rlt_dec (- (d * n * 100)) 0) as [L | L].
    + split; [ | discriminate]. intros _. rewrite Rabs_left by exact L. ring.
    + split; [discriminate | ]. intros _.
      rewrite Rabs_pos_eq by lra. ring.
Qed.

(** Greeks with a delta of one half, for the example below. *)
Definition half_delta : Greeks.greeks :=
  {| Greeks.delta := 0.5; Greeks.gamma := 0; Greeks.theta := 0;
     Greeks.theta_daily := 0; Greeks.theta_weekly := 0; Greeks.vega := 0;
     Greeks.vega_dollar := 0; Greeks.rho := 0; Greeks.shares_equiv := 50 |}.

Lemma hedge_pnl_capital_witness :
  0 <= 100 /\
  Hedging.get_hedge_pnl (Hedging.init half_delta 100 10) 0.01
  = Hedging.shares (Hedging.calculate (Hedging.init half_delta 100 10))
    * (100 * 0.01).
Proof.
  assert (H1 : 0 <= 100) by lra.
  split; [exact H1 | ].
  exact (proj1 (hedge_pnl_capital half_delta 100 10 0.01 H1)).
Defined.

(** ** scenarios.py: the results of [run] *)

(** The call price increases strictly with the spot. *)
Lemma call_increasing_S (S1 S2 K T r sigma : R) :
  0 < S1 -> S1 < S2 -> 0 < K -> 0 < T -> 0 < sigma ->
  Formula.call S1 K T r sigma < Formula.call S2 K T r sigma.
Proof.
  intros H1 H12 HK HT Hs.
  destruct (MVT_cor2 (fun s => Formula.call s K T r sigma)
              (fun s => BlackScholes.norm_cdf (Formula.d1 s K T r sigma))
              S1 S2 H12) as [c [Ec Hc]].
  - intros c Hc. apply derivable_pt_lim_call_S; lra.
  - pose proof (norm_cdf_strict_bounds (Formula.d1 c K T r sigma)) as [B _].
    assert (0 < BlackScholes.norm_cdf (Formula.d1 c K T r sigma) * (S2 - S1))
      by (apply Rmult_lt_0_compat; lra).
    lra.
Qed.

(** What one iteration of the loop of [run] records. *)
Definition records (eng : Scenarios.ScenarioEngine) (s : Scenarios.scenario)
           (x : Scenarios.scenario_result) : Prop :=
  let price :=
    Formula.call (Scenarios.new_S eng (Scenarios.stock_chg s))
                 (Scenarios.K eng) (Scenarios.new_T eng (Scenarios.days s))
                 (Scenarios.r eng)
                 (Scenarios.new_sigma eng (Scenarios.vol_chg s)) in
  Scenarios.res_name x = Scenarios.name s /\
  Scenarios.stock_change x = Scenarios.stock_chg s * 100 /\
  Scenarios.vol_change x = Scenarios.vol_chg s * 100 /\
  Scenarios.pnl x
  = (price - Scenarios.market_price eng) * 100
    * IZR (Scenarios.num_contracts eng) /\
  Scenarios.pnl_pct x
  = (price - Scenarios.market_price eng) / Scenarios.market_price eng * 100.

Lemma run_scenario_records eng s :
  In s Scenarios.scenarios ->
  0 < Scenarios.S eng -> 0 < Scenarios.K eng ->
  Scenarios.market_price eng <> 0 -> Scenarios.num_contracts eng <> 0%Z ->
  exists x, Scenarios.run_scenario eng s = Ok x /\ records eng s x.
Proof.
  intros Hin HS HK Hm Hn.
  assert (Hn' : IZR (Scenarios.num_contracts eng) <> 0)
    by (apply not_0_IZR; exact Hn).
  unfold Scenarios.run_scenario, Scenarios._calculate_scenario_pnl.
  pose proof (scenarios_stock_chg s Hin) as Hchg.
  rewrite new_price_ok by (try assumption; lra).
  cbn [bind]. rewrite truediv_ok.
  - cbn [bind]. eexists. split; [reflexivity | ].
    unfold records.
    cbn [Scenarios.res_name Scenarios.stock_change Scenarios.vol_change
         Scenarios.pnl Scenarios.pnl_pct].
    repeat split. field. split; assumption.
  - apply Rmult_integral_contrapositive_currified; [ | assumption].
    apply Rmult_integral_contrapositive_currified; [assumption | lra].
Qed.

Lemma run_loop_records eng l :
  (forall s, In s l -> In s Scenarios.scenarios) ->
  0 < Scenarios.S eng -> 0 < Scenarios.K eng ->
  Scenarios.market_price eng <> 0 -> Scenarios.num_contracts eng <> 0%Z ->
  exists rs, Scenarios.run_loop eng l = Ok rs /\
             Forall2 (records eng) l rs.
Proof.
  intros Hl HS HK Hm Hn. induction l as [ | s l IH].
  - exists []. split; [reflexivity | constructor].
  - destruct (run_scenario_records eng s (Hl s (or_introl eq_refl))
                HS HK Hm Hn) as [x [Ex Rx]].
    destruct IH as [rs [Ers Rrs]];
      [intros s' Hs'; apply Hl; now right | ].
    exists (x :: rs). cbn [Scenarios.run_loop]. rewrite Ex, Ers.
    split; [reflexivity | now constructor].
Qed.

Lemma run_records eng :
  0 < Scenarios.S eng -> 0 < Scenarios.K eng ->
  Scenarios.market_price eng <> 0 -> Scenarios.num_contracts eng <> 0%Z ->
  exists rep, Scenarios.run eng = Ok rep /\
    Forall2 (records eng) Scenarios.scenarios (Scenarios.all rep) /\
    (In (Scenarios.worst rep) (Scenarios.all rep) /\
     forall y, In y (Scenarios.all rep) ->
               Scenarios.pnl (Scenarios.worst rep) <= Scenarios.pnl y) /\
    (In (Scenarios.best rep) (Scenarios.all rep) /\
     forall y, In y (Scenarios.all rep) ->
               Scenarios.pnl y <= Scenarios.pnl (Scenarios.best rep)).
Proof.
  intros HS HK Hm Hn.
  destruct (run_loop_records eng Scenarios.scenarios) as [rs [Ers Rrs]];
    try assumption; [auto | ].
  unfold Scenarios.run. rewrite Ers. cbn [bind].
  destruct (select_ok rs) as [rep Erep].
  { intro E. subst rs. inversion Rrs. }
  exists rep. split; [exact Erep | ].
  unfold Scenarios.select in Erep.
  destruct (Scenarios.first_of (Scenarios.sorted rs)) as [w | e] eqn:Ew;
    [ | discriminate].
  cbn [bind] in Erep.
  destruct (Scenarios.last_of (Scenarios.sorted rs)) as [b | e] eqn:Eb;
    [ | discriminate].
  cbn [bind] in Erep. injection Erep as <-.
  cbn [Scenarios.all Scenarios.best Scenarios.worst].
  split; [exact Rrs | ]. split.
  - apply first_min_least, worst_first_min, Ew.
  - apply last_max_greatest, best_last_max, Eb.
Qed.



(** X17.  For a valid position with a non-zero market price and number of
    contracts, [run] returns one result per scenario, in order, holding the
    scenario's name, its shocks in percent, the P&L
    [(price - market_price) * 100 * num_contracts] and the percentage
    [(price - market_price) / market_price * 100]: the return on the
    premium, whatever the number of contracts. *)
Theorem run_results (eng : Scenarios.ScenarioEngine) :
  0 < Scenarios.S eng -> 0 < Scenarios.K eng ->
  Scenarios.market_price eng <> 0 -> Scenarios.num_contracts eng <> 0%Z ->
  exists rep, Scenarios.run eng = Ok rep /\
    Forall2 (records eng) Scenarios.scenarios (Scenarios.all rep).
Proof.
  intros HS HK Hm Hn.
  destruct (run_records eng HS HK Hm Hn) as [rep [E [R _]]].
  exists rep. split; assumption.
Qed.

(** A position of ten contracts bought at 2.5. *)
Definition long_engine : Scenarios.ScenarioEngine :=
  {| Scenarios.S := 100; Scenarios.K := 110; Scenarios.T := 35 / 365;
     Scenarios.r := 0.045; Scenarios.sigma := 0.35;
     Scenarios.market_price := 2.5; Scenarios.num_contracts := 10 |}.

Lemma run_results_witness :
  exists rep, Scenarios.run long_engine = Ok rep /\
    Forall2 (records long_engine) Scenarios.scenarios (Scenarios.all rep).
Proof.
  apply run_results; cbn; try lra. discriminate.
Defined.

Lemma Forall2_seven {A B : Type} (P : A -> B -> Prop)
      (a1 a2 a3 a4 a5 a6 a7 : A) (l : list B) :
  Forall2 P [a1; a2; a3; a4; a5; a6; a7] l ->
  exists x1 x2 x3 x4 x5 x6 x7,
    l = [x1; x2; x3; x4; x5; x6; x7] /\
    P a1 x1 /\ P a2 x2 /\ P a3 x3 /\ P a4 x4 /\ P a5 x5 /\ P a6 x6 /\
    P a7 x7.
Proof.
  intro H.
  inversion H as [ | ? x1 ? l1 P1 H1]; subst.
  inversion H1 as [ | ? x2 ? l2 P2 H2]; subst.
  inversion H2 as [ | ? x3 ? l3 P3 H3]; subst.
  inversion H3 as [ | ? x4 ? l4 P4 H4]; subst.
  inversion H4 as [ | ? x5 ? l5 P5 H5]; subst.
  inversion H5 as [ | ? x6 ? l6 P6 H6]; subst.
  inversion H6 as [ | ? x7 ? l7 P7 H7]; subst.
  inversion H7; subst.
  exists x1, x2, x3, x4, x5, x6, x7. repeat split; assumption.
Qed.

Lemma call_monotone_sigma (S K T r sigma1 sigma2 : R) :
  0 < S -> 0 < K -> 0 < T -> 0 < sigma1 -> sigma1 <= sigma2 ->
  Formula.call S K T r sigma1 <= Formula.call S K T r sigma2.
Proof.
  intros HS HK HT H1 [H12 | ->]; [ | lra].
  left. now apply call_increasing_sigma.
Qed.

Lemma new_T_pos (eng : Scenarios.ScenarioEngine) (days : Z) :
  0 < Scenarios.new_T eng days.
Proof.
  unfold Scenarios.new_T.
  pose proof (max_ge_r (Scenarios.T eng - IZR days / 365) 0.001). lra.
Qed.

(** ** scenarios.py: the sensitivity sweeps *)

Lemma for_each_map {A B : Type} (f : A -> result B) (g : A -> B)
      (l : list A) :
  (forall a, In a l -> f a = Ok (g a)) ->
  Scenarios.for_each f l = Ok (map g l).
Proof.
  induction l as [ | a l IH]; intro H; [reflexivity | ].
  cbn [Scenarios.for_each map].
  rewrite (H a (or_introl eq_refl)). cbn [bind].
  rewrite IH by (intros b Hb; apply H; now right). reflexivity.
Qed.

Lemma in_range (n : nat) (i : Z) :
  In i (Py.range n) <-> (0 <= i < Z.of_nat n)%Z.
Proof.
  unfold Py.range. rewrite in_map_iff. split.
  - intros [k [<- Hk]]. apply in_seq in Hk. lia.
  - intro H. exists (Z.to_nat i). split; [lia | ].
    apply in_seq. lia.
Qed.

Lemma nth_error_range (n k : nat) :
  (k < n)%nat -> nth_error (Py.range n) k = Some (Z.of_nat k).
Proof.
  intro H. unfold Py.range. rewrite nth_error_map, nth_error_seq.
  destruct (k <? n)%nat eqn:E; [reflexivity | ].
  apply Nat.ltb_ge in E. lia.
Qed.

Lemma length_range (n : nat) : List.length (Py.range n) = n.
Proof. unfold Py.range. now rewrite length_map, length_seq. Qed.

(** The multiplier of step [i] of the volatility loop. *)
Definition mult_at (i : Z) : R := 0.5 + 1.5 * IZR i / 19.

Lemma vol_multipliers_eq :
  Scenarios.vol_multipliers = map mult_at (Py.range 20).
Proof. reflexivity. Qed.

Lemma mult_at_pos (i : Z) : (0 <= i)%Z -> 0 < mult_at i.
Proof. intro H. apply IZR_le in H. unfold mult_at. lra. Qed.

Lemma mult_at_increasing (i j : Z) : (i < j)%Z -> mult_at i < mult_at j.
Proof. intro H. apply IZR_lt in H. unfold mult_at. lra. Qed.

(** The point the volatility loop appends for the multiplier [mult]. *)
Definition vol_point_at (eng : Scenarios.ScenarioEngine) (mult : R)
  : Scenarios.vol_point :=
  let price :=
    Formula.call (Scenarios.S eng) (Scenarios.K eng) (Scenarios.T eng)
                 (Scenarios.r eng) (Scenarios.sigma eng * mult) in
  {| Scenarios.vol_pct := Scenarios.sigma eng * mult * 100;
     Scenarios.vol_mult := mult;
     Scenarios.vol_price := price;
     Scenarios.vol_pnl := (price - Scenarios.market_price eng) * 100
                          * IZR (Scenarios.num_contracts eng) |}.

Lemma vol_sweep_point_ok (eng : Scenarios.ScenarioEngine) (mult : R) :
  0 < Scenarios.S eng -> 0 < Scenarios.K eng -> 0 < Scenarios.T eng ->
  0 < Scenarios.sigma eng -> 0 < mult ->
  Scenarios.vol_sweep_point eng mult = Ok (vol_point_at eng mult).
Proof.
  intros HS HK HT Hs Hm. unfold Scenarios.vol_sweep_point.
  rewrite _bs_call_ok; try assumption; [reflexivity | ].
  now apply Rmult_lt_0_compat.
Qed.

(** The [dte] of step [i] of the time loop, without its guard. *)
Lemma dte_at_eq (current_dte i : Z) :
  (1 <= current_dte)%Z -> (0 <= i <= 29)%Z ->
  Scenarios.dte_at current_dte i
  = IZR current_dte - (IZR current_dte - 1) * IZR i / 29.
Proof.
  intros Hc Hi. unfold Scenarios.dte_at, Scenarios.time_points.
  change (30 - 1)%Z with 29%Z.
  rewrite mult_IZR, minus_IZR.
  apply IZR_le in Hc. destruct Hi as [Hi1 Hi2].
  apply IZR_le in Hi1, Hi2.
  apply max_right. nra.
Qed.

Lemma current_dte_of_ge (eng : Scenarios.ScenarioEngine) :
  (2 <= Scenarios.current_dte_of eng)%Z.
Proof.
  unfold Scenarios.current_dte_of.
  destruct (Py.int (Scenarios.T eng * 365) <? 2)%Z eqn:E.
  - lia.
  - apply Z.ltb_ge in E. exact E.
Qed.

(** The point the time loop appends at step [i]. *)
Definition time_point_at (eng : Scenarios.ScenarioEngine) (i : Z)
  : Scenarios.time_point :=
  let dte := Scenarios.dte_at (Scenarios.current_dte_of eng) i in
  let price :=
    Formula.call (Scenarios.S eng) (Scenarios.K eng) (dte / 365)
                 (Scenarios.r eng) (Scenarios.sigma eng) in
  {| Scenarios.dte := dte;
     Scenarios.time_price := price;
     Scenarios.time_pnl := (price - Scenarios.market_price eng) * 100
                           * IZR (Scenarios.num_contracts eng) |}.

Lemma dte_at_ge_1 (current_dte i : Z) : 1 <= Scenarios.dte_at current_dte i.
Proof. unfold Scenarios.dte_at. apply max_ge_l. Qed.

Lemma time_sweep_point_ok (eng : Scenarios.ScenarioEngine) (i : Z) :
  0 < Scenarios.S eng -> 0 < Scenarios.K eng -> 0 < Scenarios.sigma eng ->
  Scenarios.time_sweep_point eng (Scenarios.current_dte_of eng) i
  = Ok (time_point_at eng i).
Proof.
  intros HS HK Hs. unfold Scenarios.time_sweep_point.
  pose proof (dte_at_ge_1 (Scenarios.current_dte_of eng) i).
  rewrite _bs_call_ok; try assumption; [reflexivity | lra].
Qed.

Lemma generate_sensitivity_analysis_ok (eng : Scenarios.ScenarioEngine) :
  0 < Scenarios.S eng -> 0 < Scenarios.K eng -> 0 < Scenarios.T eng ->
  0 < Scenarios.sigma eng ->
  Scenarios.generate_sensitivity_analysis eng
  = Ok {| Scenarios.vol_sweep :=
            map (fun i => vol_point_at eng (mult_at i)) (Py.range 20);
          Scenarios.time_sweep := map (time_point_at eng) (Py.range 30);
          Scenarios.current_vol := Scenarios.sigma eng * 100;
          Scenarios.current_dte := Scenarios.current_dte_of eng |}.
Proof.
  intros HS HK HT Hs. unfold Scenarios.generate_sensitivity_analysis.
  rewrite vol_multipliers_eq.
  rewrite (for_each_map _ (vol_point_at eng)).
  - cbn [bind].
    change (Z.to_nat Scenarios.time_points) with 30%nat.
    rewrite (for_each_map _ (time_point_at eng)).
    + cbn [bind]. rewrite map_map. reflexivity.
    + intros i _. now apply time_sweep_point_ok.
  - intros m Hm. apply in_map_iff in Hm. destruct Hm as [i [<- Hi]].
    apply in_range in Hi.
    apply vol_sweep_point_ok; try assumption. apply mult_at_pos. lia.
Qed.

(** X19.  On a valid position the sensitivity analysis returns a
    volatility sweep of 20 points; point [i] has the multiplier
    [0.5 + 1.5 * i / 19], so the multipliers and the volatilities tested
    rise strictly from 0.5 to 2.0 times the current volatility; each point
    holds the call formula at the multiplied volatility, and the P&L
    [(price - market_price) * 100 * num_contracts]. *)
Theorem vol_sweep_spec (eng : Scenarios.ScenarioEngine) :
  0 < Scenarios.S eng -> 0 < Scenarios.K eng -> 0 < Scenarios.T eng ->
  0 < Scenarios.sigma eng ->
  exists sens,
    Scenarios.generate_sensitivity_analysis eng = Ok sens /\
    List.length (Scenarios.vol_sweep sens) = 20%nat /\
    Scenarios.current_vol sens = Scenarios.sigma eng * 100 /\
    (forall i p, nth_error (Scenarios.vol_sweep sens) i = Some p ->
       Scenarios.vol_mult p = 0.5 + 1.5 * INR i / 19 /\
       Scenarios.vol_pct p
       = Scenarios.sigma eng * Scenarios.vol_mult p * 100 /\
       Scenarios.vol_price p
       = Formula.call (Scenarios.S eng) (Scenarios.K eng) (Scenarios.T eng)
           (Scenarios.r eng) (Scenarios.sigma eng * Scenarios.vol_mult p) /\
       Scenarios.vol_pnl p
       = (Scenarios.vol_price p - Scenarios.market_price eng) * 100
         * IZR (Scenarios.num_contracts eng)) /\
    (forall p, nth_error (Scenarios.vol_sweep sens) 0 = Some p ->
       Scenarios.vol_mult p = 0.5) /\
    (forall p, nth_error (Scenarios.vol_sweep sens) 19 = Some p ->
       Scenarios.vol_mult p = 2) /\
    (forall i j p q, (i < j)%nat ->
       nth_error (Scenarios.vol_sweep sens) i = Some p ->
       nth_error (Scenarios.vol_sweep sens) j = Some q ->
       Scenarios.vol_mult p < Scenarios.vol_mult q /\
       Scenarios.vol_pct p < Scenarios.vol_pct q).
Proof.
  intros HS HK HT Hs.
  rewrite (generate_sensitivity_analysis_ok eng HS HK HT Hs).
  eexists. split; [reflexivity | ].
  cbn [Scenarios.vol_sweep Scenarios.current_vol].
  assert (nth : forall i p,
             nth_error (map (fun i => vol_point_at eng (mult_at i))
                            (Py.range 20)) i = Some p ->
             (i < 20)%nat /\ p = vol_point_at eng (mult_at (Z.of_nat i))).
  { intros i p H.
    assert (Hi : (i < 20)%nat).
    { destruct (Nat.lt_ge_cases i 20) as [L | G]; [exact L | ].
      assert (N : nth_error (map (fun i => vol_point_at eng (mult_at i))
                                 (Py.range 20)) i = None)
        by (apply nth_error_None; rewrite length_map, length_range; exact G).
      congruence. }
    split; [exact Hi | ].
    rewrite nth_error_map, (nth_error_range 20 i Hi) in H.
    cbn [option_map] in H. congruence. }
  split; [now rewrite length_map, length_range | ].
  split; [reflexivity | ].
  split; [ | split; [ | split]].
  - intros i p H. destruct (nth i p H) as [Hi ->].
    cbn [vol_point_at Scenarios.vol_mult Scenarios.vol_pct
         Scenarios.vol_price Scenarios.vol_pnl].
    repeat split. unfold mult_at. now rewrite INR_IZR_INZ.
  - intros p H. destruct (nth 0%nat p H) as [_ ->].
    cbn [vol_point_at Scenarios.vol_mult]. unfold mult_at. simpl. lra.
  - intros p H. destruct (nth 19%nat p H) as [_ ->].
    cbn [vol_point_at Scenarios.vol_mult]. unfold mult_at. simpl. lra.
  - intros i j p q Hij Hp Hq.
    destruct (nth i p Hp) as [Hi ->]. destruct (nth j q Hq) as [Hj ->].
    cbn [vol_point_at Scenarios.vol_mult Scenarios.vol_pct].
    pose proof (mult_at_increasing (Z.of_nat i) (Z.of_nat j) ltac:(lia))
      as M2.
    split; [exact M2 | nra].
Qed.

Lemma vol_sweep_spec_witness :
  exists sens,
    Scenarios.generate_sensitivity_analysis long_engine = Ok sens /\
    List.length (Scenarios.vol_sweep sens) = 20%nat /\
    Scenarios.current_vol sens = Scenarios.sigma long_engine * 100.
Proof.
  assert (H1 : 0 < Scenarios.S long_engine) by (cbn; lra).
  assert (H2 : 0 < Scenarios.K long_engine) by (cbn; lra).
  assert (H3 : 0 < Scenarios.T long_engine) by (cbn; lra).
  assert (H4 : 0 < Scenarios.sigma long_engine) by (cbn; lra).
  destruct (vol_sweep_spec long_engine H1 H2 H3 H4)
    as (sens & E & L & V & _).
  exists sens. split; [exact E | ]. split; [exact L | exact V].
Defined.

(** X20.  On a valid position the time sweep has 30 points.  The starting
    day count [current_dte] it reports is never below 2; point [i] has the
    day count [current_dte - (current_dte - 1) * i / 29], so the day
    counts fall strictly from [current_dte] down to exactly 1 (the guard
    [max(1, .)] is never needed); each point holds the call formula at
    [dte / 365] years and the P&L
    [(price - market_price) * 100 * num_contracts]. *)
Theorem time_sweep_spec (eng : Scenarios.ScenarioEngine) :
  0 < Scenarios.S eng -> 0 < Scenarios.K eng -> 0 < Scenarios.T eng ->
  0 < Scenarios.sigma eng ->
  exists sens,
    Scenarios.generate_sensitivity_analysis eng = Ok sens /\
    List.length (Scenarios.time_sweep sens) = 30%nat /\
    (2 <= Scenarios.current_dte sens)%Z /\
    (forall i p, nth_error (Scenarios.time_sweep sens) i = Some p ->
       Scenarios.dte p
       = IZR (Scenarios.current_dte sens)
         - (IZR (Scenarios.current_dte sens) - 1) * INR i / 29 /\
       1 <= Scenarios.dte p <= IZR (Scenarios.current_dte sens) /\
       Scenarios.time_price p
       = Formula.call (Scenarios.S eng) (Scenarios.K eng)
           (Scenarios.dte p / 365) (Scenarios.r eng) (Scenarios.sigma eng) /\
       Scenarios.time_pnl p
       = (Scenarios.time_price p - Scenarios.market_price eng) * 100
         * IZR (Scenarios.num_contracts eng)) /\
    (forall p, nth_error (Scenarios.time_sweep sens) 0 = Some p ->
       Scenarios.dte p = IZR (Scenarios.current_dte sens)) /\
    (forall p, nth_error (Scenarios.time_sweep sens) 29 = Some p ->
       Scenarios.dte p = 1) /\
    (forall i j p q, (i < j)%nat ->
       nth_error (Scenarios.time_sweep sens) i = Some p ->
       nth_error (Scenarios.time_sweep sens) j = Some q ->
       Scenarios.dte q < Scenarios.dte p).
Proof.
  intros HS HK HT Hs.
  rewrite (generate_sensitivity_analysis_ok eng HS HK HT Hs).
  eexists. split; [reflexivity | ].
  cbn [Scenarios.time_sweep Scenarios.current_dte].
  pose proof (current_dte_of_ge eng) as Hcd.
  set (cd := Scenarios.current_dte_of eng) in *.
  assert (Hcd' : 2 <= IZR cd) by (apply IZR_le in Hcd; exact Hcd).
  assert (nth : forall i p,
             nth_error (map (time_point_at eng) (Py.range 30)) i = Some p ->
             (i < 30)%nat /\ p = time_point_at eng (Z.of_nat i)).
  { intros i p H.
    assert (Hi : (i < 30)%nat).
    { destruct (Nat.lt_ge_cases i 30) as [L | G]; [exact L | ].
      assert (N : nth_error (map (time_point_at eng) (Py.range 30)) i = None)
        by (apply nth_error_None; rewrite length_map, length_range; exact G).
      congruence. }
    split; [exact Hi | ].
    rewrite nth_error_map, (nth_error_range 30 i Hi) in H.
    cbn [option_map] in H. congruence. }
  assert (dte_eq : forall i, (i < 30)%nat ->
             Scenarios.dte (time_point_at eng (Z.of_nat i))
             = IZR cd - (IZR cd - 1) * INR i / 29).
  { intros i Hi. cbn [time_point_at Scenarios.dte]. fold cd.
    rewrite dte_at_eq by lia. now rewrite INR_IZR_INZ. }
  assert (Hi29 : forall i, (i < 30)%nat -> 0 <= INR i <= 29).
  { intros i Hi. split; [apply pos_INR | ].
    replace 29 with (INR 29) by (simpl; lra). apply le_INR. lia. }
  split; [now rewrite length_map, length_range | ].
  split; [exact Hcd | ].
  split; [ | split; [ | split]].
  - intros i p H. destruct (nth i p H) as [Hi ->].
    pose proof (dte_eq i Hi) as D. pose proof (Hi29 i Hi) as B.
    split; [exact D | ]. split; [rewrite D; nra | ].
    split; reflexivity.
  - intros p H. destruct (nth 0%nat p H) as [Hi ->].
    rewrite (dte_eq 0%nat Hi). simpl. lra.
  - intros p H. destruct (nth 29%nat p H) as [Hi ->].
    rewrite (dte_eq 29%nat Hi).
    replace (INR 29) with 29 by (simpl; lra). field.
  - intros i j p q Hij Hp Hq.
    destruct (nth i p Hp) as [Hi ->]. destruct (nth j q Hq) as [Hj ->].
    pose proof (dte_eq i Hi) as Di. pose proof (dte_eq j Hj) as Dj.
    pose proof (Hi29 i Hi) as Bi. pose proof (Hi29 j Hj) as Bj.
    assert (Lij : INR i < INR j) by (apply lt_INR; exact Hij).
    rewrite Di, Dj. nra.
Qed.

Lemma time_sweep_spec_witness :
  exists sens,
    Scenarios.generate_sensitivity_analysis long_engine = Ok sens /\
    List.length (Scenarios.time_sweep sens) = 30%nat /\
    (2 <= Scenarios.current_dte sens)%Z.
Proof.
  assert (H1 : 0 < Scenarios.S long_engine) by (cbn; lra).
  assert (H2 : 0 < Scenarios.K long_engine) by (cbn; lra).
  assert (H3 : 0 < Scenarios.T long_engine) by (cbn; lra).
  assert (H4 : 0 < Scenarios.sigma long_engine) by (cbn; lra).
  destruct (time_sweep_spec long_engine H1 H2 H3 H4)
    as (sens & E & L & C & _).
  exists sens. split; [exact E | ]. split; [exact L | exact C].
Defined.

(** ** volatility.py: short and long histories *)

Lemma dropna_app (a b : Volatility.series) :
  Volatility.dropna (a ++ b) = Volatility.dropna a ++ Volatility.dropna b.
Proof.
  induction a as [ | [x | ] a IH]; simpl; [reflexivity | | exact IH].
  now rewrite IH.
Qed.

(** The annualised volatility of the window ending at position [i]. *)
Definition vol_at (w : nat) (l : list R) (i : nat) : R :=
  Volatility.std (Volatility.window_at w i l) * sqrt 252.

Lemma rolling_vol_eq (w : nat) (l : list R) :
  Volatility.rolling_vol w l
  = map (fun i => if (w <=? i + 1)%nat then Some (vol_at w l i) else None)
        (seq 0 (List.length l)).
Proof.
  unfold Volatility.rolling_vol, Volatility.rolling_std.
  rewrite map_map. apply map_ext. intro i.
  destruct (w <=? i + 1)%nat; reflexivity.
Qed.

Lemma dropna_undefined (w : nat) (l : list R) (a k : nat) :
  (a + k < w)%nat ->
  Volatility.dropna
    (map (fun i => if (w <=? i + 1)%nat then Some (vol_at w l i) else None)
         (seq a k)) = [].
Proof.
  revert a. induction k as [ | k IH]; intros a H; [reflexivity | ].
  cbn [seq map].
  destruct (w <=? a + 1)%nat eqn:E; [apply Nat.leb_le in E; lia | ].
  cbn [Volatility.dropna]. apply IH. lia.
Qed.

Lemma dropna_defined (w : nat) (l : list R) (a k : nat) :
  (w <= a + 1)%nat ->
  Volatility.dropna
    (map (fun i => if (w <=? i + 1)%nat then Some (vol_at w l i) else None)
         (seq a k)) = map (vol_at w l) (seq a k).
Proof.
  revert a. induction k as [ | k IH]; intros a H; [reflexivity | ].
  cbn [seq map].
  destruct (w <=? a + 1)%nat eqn:E; [ | apply Nat.leb_gt in E; lia].
  cbn [Volatility.dropna]. f_equal. apply IH. lia.
Qed.

(** The defined points of a rolling column. *)
Lemma dropna_rolling_vol (w : nat) (l : list R) :
  (1 <= w)%nat ->
  Volatility.dropna (Volatility.rolling_vol w l)
  = map (vol_at w l) (seq (w - 1) (List.length l - (w - 1))).
Proof.
  intro Hw. rewrite rolling_vol_eq.
  destruct (Nat.le_gt_cases (w - 1) (List.length l)) as [L | G].
  - replace (List.length l) with ((w - 1) + (List.length l - (w - 1)))%nat
      at 1 by lia.
    rewrite seq_app, map_app, dropna_app.
    rewrite dropna_undefined by lia.
    rewrite dropna_defined by lia. reflexivity.
  - rewrite dropna_undefined by lia.
    replace (List.length l - (w - 1))%nat with 0%nat by lia. reflexivity.
Qed.

(** The last entry of a rolling column. *)
Lemma iloc_last_rolling_vol (w : nat) (l : list R) :
  l <> [] ->
  Volatility.iloc_last (Volatility.rolling_vol w l)
  = Ok (if (w <=? List.length l)%nat
        then Some (vol_at w l (List.length l - 1)) else None).
Proof.
  intro Hn.
  assert (Hlen : (0 < List.length l)%nat)
    by (destruct l; [contradiction | simpl; lia]).
  destruct (iloc_last_ok (Volatility.rolling_vol w l)) as [x [E N]].
  { intro E. apply (f_equal (@List.length _)) in E.
    rewrite rolling_vol_length in E. simpl in E. lia. }
  rewrite E. f_equal.
  rewrite rolling_vol_length, rolling_vol_nth in N by lia.
  injection N as <-.
  replace (List.length l - 1 + 1)%nat with (List.length l) by lia.
  reflexivity.
Qed.

Lemma count_lt_in (c : R) (l : list R) :
  In c l -> (count_lt c l < List.length l)%nat.
Proof.
  unfold count_lt. induction l as [ | a l IH]; intro H; [contradiction | ].
  cbn [filter Volatility.lt_current].
  destruct H as [-> | H].
  - destruct (Rlt_dec c c) as [L | _]; [lra | ].
    pose proof (filter_length_le (Volatility.lt_current (Some c)) l).
    simpl. lia.
  - specialize (IH H). cbn [Volatility.lt_current] in IH.
    destruct (Rlt_dec a c); simpl; lia.
Qed.

(** X21.  [analyze] on a short history: with no return at all it raises
    [IndexError]; with 1 to 20 returns it returns normally, every
    historical volatility and the percentile being NaN and the regime
    [NORMAL]. *)
Theorem analyze_short_history (self : Volatility.VolatilityAnalyzer) :
  (Volatility.returns self = [] ->
   Volatility.analyze self = Raise IndexError) /\
  ((0 < List.length (Volatility.returns self) < 21)%nat ->
   exists m,
     Volatility.analyze self = Ok m /\
     Volatility.m_hv_21d m = None /\
     Volatility.m_hv_63d m = None /\
     Volatility.m_hv_252d m = None /\
     Volatility.m_percentile m = None /\
     Volatility.m_regime m = Volatility.NORMAL).
Proof.
  split.
  - intro E. unfold Volatility.analyze, Volatility._calculate_historical_vol.
    rewrite E. reflexivity.
  - intro Hn. set (l := Volatility.returns self) in *.
    assert (Hne : l <> []) by (destruct l; [simpl in Hn; lia | discriminate]).
    unfold Volatility.analyze, Volatility._calculate_historical_vol.
    cbn [Volatility.col_hv_21d Volatility.col_hv_63d Volatility.col_hv_252d].
    fold l. rewrite !iloc_last_rolling_vol by exact Hne.
    destruct (21 <=? List.length l)%nat eqn:E1;
      [apply Nat.leb_le in E1; lia | ].
    destruct (63 <=? List.length l)%nat eqn:E2;
      [apply Nat.leb_le in E2; lia | ].
    destruct (252 <=? List.length l)%nat eqn:E3;
      [apply Nat.leb_le in E3; lia | ].
    cbn [bind]. eexists. split; [reflexivity | ].
    cbn [Volatility.m_hv_21d Volatility.m_hv_63d Volatility.m_hv_252d
         Volatility.m_percentile Volatility.m_regime Volatility.hv_21d
         Volatility.hv_63d Volatility.hv_252d].
    unfold Volatility._determine_regime. fold l.
    rewrite dropna_rolling_vol by lia.
    replace (List.length l - (21 - 1))%nat with 0%nat by lia.
    repeat split.
Qed.

(** X22.  [analyze] on a history of [n >= 21] returns: the 21-day
    volatility is the annualised deviation of the last 21 returns and is
    not negative; the percentile is a number between 0 and
    [100 (n - 21) / (n - 20)], hence below 100, since the current value is
    itself one of the [n - 20] points it is ranked in; the 63-day and
    252-day figures are NaN exactly below 63 and 252 returns; and with at
    most 25 returns the regime is never [HIGH]. *)
Theorem analyze_long_history (self : Volatility.VolatilityAnalyzer) :
  let l := Volatility.returns self in
  let n := List.length l in
  (21 <= n)%nat ->
  exists m v p,
    Volatility.analyze self = Ok m /\
    Volatility.m_hv_21d m = Some v /\
    v = Volatility.std (skipn (n - 21) l) * sqrt 252 /\
    0 <= v /\
    Volatility.m_percentile m = Some p /\
    0 <= p <= 100 * (INR n - 21) / (INR n - 20) /\
    p < 100 /\
    (Volatility.m_hv_63d m = None <-> (n < 63)%nat) /\
    (Volatility.m_hv_252d m = None <-> (n < 252)%nat) /\
    ((n <= 25)%nat -> Volatility.m_regime m <> Volatility.HIGH).
Proof.
  intros l n Hn.
  assert (Hne : l <> []) by (destruct l; [simpl in n; lia | discriminate]).
  unfold Volatility.analyze, Volatility._calculate_historical_vol.
  cbn [Volatility.col_hv_21d Volatility.col_hv_63d Volatility.col_hv_252d].
  fold l. rewrite !iloc_last_rolling_vol by exact Hne. fold n.
  assert (E1 : (21 <=? n)%nat = true) by (apply Nat.leb_le; exact Hn).
  rewrite E1. cbn [bind].
  set (c := vol_at 21 l (n - 1)).
  set (all_hv := Volatility.dropna (Volatility.rolling_vol 21 l)).
  assert (Eall : all_hv = map (vol_at 21 l) (seq 20 (n - 20))).
  { unfold all_hv. rewrite dropna_rolling_vol by lia. reflexivity. }
  assert (Hlen : List.length all_hv = (n - 20)%nat)
    by (rewrite Eall, length_map, length_seq; reflexivity).
  assert (Hin : In c all_hv).
  { rewrite Eall. apply in_map_iff. exists (n - 1)%nat.
    split; [reflexivity | ]. apply in_seq. lia. }
  assert (Hall : all_hv <> [])
    by (intro E; rewrite E in Hin; contradiction).
  pose proof (count_lt_in c all_hv Hin) as Hc. rewrite Hlen in Hc.
  assert (Ep : Volatility.percentile_of all_hv (Some c)
               = Some (INR (count_lt c all_hv) / INR (n - 20) * 100))
    by (rewrite percentile_of_some by exact Hall; now rewrite Hlen).
  assert (Hm : INR (n - 20) = INR n - 20).
  { rewrite minus_INR by lia. simpl. lra. }
  assert (Hmpos : 1 <= INR n - 20).
  { rewrite <- Hm. replace 1 with (INR 1) by reflexivity.
    apply le_INR. lia. }
  assert (Hk : 0 <= INR (count_lt c all_hv) <= INR n - 21).
  { split; [apply pos_INR | ].
    replace (INR n - 21) with (INR (n - 21))
      by (rewrite minus_INR by lia; simpl; lra).
    apply le_INR. lia. }
  set (k := INR (count_lt c all_hv)) in *.
  assert (Hp : 0 <= k / (INR n - 20) * 100
               <= 100 * (INR n - 21) / (INR n - 20)).
  { split.
    - apply Rmult_le_pos; [ | lra].
      apply Rmult_le_pos; [lra | ]. left. apply Rinv_0_lt_compat. lra.
    - replace (100 * (INR n - 21) / (INR n - 20))
        with ((INR n - 21) / (INR n - 20) * 100) by (field; lra).
      apply Rmult_le_compat_r; [lra | ].
      apply Rmult_le_compat_r; [ | lra].
      left. apply Rinv_0_lt_compat. lra. }
  assert (Hlt : 100 * (INR n - 21) / (INR n - 20) < 100).
  { apply (Rmult_lt_reg_r (INR n - 20)); [lra | ].
    unfold Rdiv. rewrite Rmult_assoc, Rinv_l by lra. lra. }
  eexists. exists c, (k / (INR n - 20) * 100).
  split; [reflexivity | ].
  cbn [Volatility.m_hv_21d Volatility.m_hv_63d Volatility.m_hv_252d
       Volatility.m_percentile Volatility.m_regime Volatility.hv_21d
       Volatility.hv_63d Volatility.hv_252d].
  unfold Volatility._determine_regime. fold l. fold all_hv.
  cbn [Volatility.percentile Volatility.label].
  rewrite Ep, Hm.
  split; [reflexivity | ]. split.
  { unfold c, vol_at, Volatility.window_at.
    replace (n - 1 + 1 - 21)%nat with (n - 21)%nat by lia.
    rewrite firstn_all2; [reflexivity | ].
    rewrite length_skipn. fold n. lia. }
  split.
  { unfold c, vol_at. apply Rmult_le_pos; [ | apply sqrt_pos].
    unfold Volatility.std. apply sqrt_pos. }
  split; [reflexivity | ]. split; [exact Hp | ]. split; [lra | ].
  split; [ | split].
  - destruct (63 <=? n)%nat eqn:E.
    + apply Nat.leb_le in E. split; [discriminate | lia].
    + apply Nat.leb_gt in E. split; [trivial | reflexivity].
  - destruct (252 <=? n)%nat eqn:E.
    + apply Nat.leb_le in E. split; [discriminate | lia].
    + apply Nat.leb_gt in E. split; [trivial | reflexivity].
  - intros H25 Hhigh.
    apply (proj1 (label_of_high _)) in Hhigh.
    destruct Hhigh as [v' [Ev Hv]]. injection Ev as <-.
    assert (Hn25 : INR n <= 25).
    { replace 25 with (INR 25) by (simpl; lra). apply le_INR. exact H25. }
    assert (100 * (INR n - 21) / (INR n - 20) <= 80).
    { apply (Rmult_le_reg_r (INR n - 20)); [lra | ].
      unfold Rdiv. rewrite Rmult_assoc, Rinv_l by lra. lra. }
    lra.
Qed.

Lemma analyze_long_history_witness :
  exists m p,
    Volatility.analyze flat_returns_22 = Ok m /\
    Volatility.m_percentile m = Some p /\ p < 100.
Proof.
  assert (H : (21 <= List.length (Volatility.returns flat_returns_22))%nat)
    by (simpl; lia).
  destruct (analyze_long_history flat_returns_22 H)
    as (m & v & p & E & _ & _ & _ & Ep & _ & Hp & _).
  exists m, p. split; [exact E | ]. split; [exact Ep | exact Hp].
Defined.

(** ** data_loader.py: the contract returned by the selection *)

(** The frame [otm] of [select_option] and [select_put_option]: the rows
    kept by the moneyness test, with their [pct_otm] column. *)
Definition otm_of (keep : DataLoader.quote -> bool)
           (pct : DataLoader.quote -> R) (chain : list DataLoader.quote)
  : list DataLoader.otm_row :=
  map (fun q => {| DataLoader.row := q; DataLoader.pct_otm := pct q |})
      (filter keep chain).

Lemma in_otm_of keep pct chain o :
  In o (otm_of keep pct chain) <->
  exists q, In q chain /\ keep q = true /\
            o = {| DataLoader.row := q; DataLoader.pct_otm := pct q |}.
Proof.
  unfold otm_of. rewrite in_map_iff. split.
  - intros [q [<- Hq]]. apply filter_In in Hq. exists q. tauto.
  - intros [q [H1 [H2 ->]]]. exists q. split; [reflexivity | ].
    apply filter_In. tauto.
Qed.

Lemma filter_and_score_sound cfg otm sel :
  DataLoader._filter_and_score cfg otm = Some sel ->
  exists o, In o (DataLoader.filtered cfg otm) /\
            sel = DataLoader.selection_of (DataLoader.add_score cfg o) /\
            forall o', In o' (DataLoader.filtered cfg otm) ->
              DataLoader.score (DataLoader.add_score cfg o')
              <= DataLoader.score (DataLoader.add_score cfg o).
Proof.
  unfold DataLoader._filter_and_score. intro H.
  destruct (map (DataLoader.add_score cfg) (DataLoader.filtered cfg otm))
    as [ | x l] eqn:E; [discriminate | ].
  injection H as <-.
  destruct (first_best_greatest _ _ (argmax_from_first_best x l))
    as [Hin Hmax].
  rewrite <- E in Hin, Hmax. apply in_map_iff in Hin.
  destruct Hin as [o [Eo Ho]]. exists o.
  split; [exact Ho | ]. split; [now rewrite Eo | ].
  intros o' Ho'. rewrite Eo. apply Hmax. now apply in_map.
Qed.

(** The selected contract is a kept row of the chain with open interest
    above 50, and it meets the strict criteria whenever some kept row
    does. *)
Lemma selection_sound cfg keep pct chain sel :
  (50 <= DataLoader.MIN_OPEN_INTEREST cfg)%Z ->
  DataLoader._filter_and_score cfg (otm_of keep pct chain) = Some sel ->
  exists q,
    In q chain /\ keep q = true /\
    (DataLoader.openInterest q > 50)%Z /\
    sel = DataLoader.selection_of
            (DataLoader.add_score cfg
               {| DataLoader.row := q; DataLoader.pct_otm := pct q |}) /\
    ((exists q', In q' chain /\ keep q' = true /\
                 DataLoader.MIN_OTM_PCT cfg <= pct q'
                   <= DataLoader.MAX_OTM_PCT cfg /\
                 (DataLoader.openInterest q'
                  > DataLoader.MIN_OPEN_INTEREST cfg)%Z) ->
     DataLoader.MIN_OTM_PCT cfg <= pct q <= DataLoader.MAX_OTM_PCT cfg /\
     (DataLoader.openInterest q > DataLoader.MIN_OPEN_INTEREST cfg)%Z).
Proof.
  intros Hmin H.
  destruct (filter_and_score_sound _ _ _ H) as [o [Ho [Es _]]].
  destruct (filtered_cases cfg (otm_of keep pct chain)) as [[Hne Ef] | [He Ef]];
    rewrite Ef in Ho; apply filter_In in Ho; destruct Ho as [Ho Hc];
    apply in_otm_of in Ho; destruct Ho as [q [Hq [Hk ->]]];
    exists q.
  - apply (proj1 (strict_iff _ _)) in Hc.
    cbn [DataLoader.row DataLoader.pct_otm] in Hc. destruct Hc as [Hp Hoi].
    split; [exact Hq | ]. split; [exact Hk | ]. split; [lia | ].
    split; [exact Es | ]. intros _. split; assumption.
  - apply (proj1 (relaxed_iff _)) in Hc. cbn [DataLoader.row] in Hc.
    split; [exact Hq | ]. split; [exact Hk | ]. split; [exact Hc | ].
    split; [exact Es | ].
    intros [q' [Hq' [Hk' [Hp' Ho']]]]. exfalso.
    assert (Hin : In {| DataLoader.row := q'; DataLoader.pct_otm := pct q' |}
                     (filter (DataLoader.strict cfg)
                             (otm_of keep pct chain))).
    { apply filter_In. split; [apply in_otm_of; exists q'; tauto | ].
      apply strict_iff. cbn [DataLoader.row DataLoader.pct_otm]. tauto. }
    rewrite He in Hin. contradiction.
Qed.

Lemma selection_none cfg keep pct chain :
  (50 <= DataLoader.MIN_OPEN_INTEREST cfg)%Z ->
  DataLoader._filter_and_score cfg (otm_of keep pct chain) = None <->
  forall q, In q chain -> keep q = true ->
            (DataLoader.openInterest q <= 50)%Z.
Proof.
  intro Hmin. unfold DataLoader._filter_and_score. split.
  - intros H q Hq Hk.
    destruct (map (DataLoader.add_score cfg)
                  (DataLoader.filtered cfg (otm_of keep pct chain)))
      as [ | x l] eqn:E; [ | discriminate].
    apply map_eq_nil in E.
    destruct (Z_le_gt_dec (DataLoader.openInterest q) 50) as [L | G];
      [exact L | exfalso].
    assert (Hin : In {| DataLoader.row := q; DataLoader.pct_otm := pct q |}
                     (filter DataLoader.relaxed (otm_of keep pct chain))).
    { apply filter_In. split; [apply in_otm_of; exists q; tauto | ].
      apply relaxed_iff. exact G. }
    destruct (filtered_cases cfg (otm_of keep pct chain))
      as [[Hne Ef] | [He Ef]]; rewrite Ef in E.
    + contradiction.
    + rewrite E in Hin. contradiction.
  - intro H.
    assert (E : DataLoader.filtered cfg (otm_of keep pct chain) = []).
    { destruct (DataLoader.filtered cfg (otm_of keep pct chain))
        as [ | o l] eqn:E; [reflexivity | exfalso].
      assert (Ho : In o (DataLoader.filtered cfg (otm_of keep pct chain)))
        by (rewrite E; now left).
      destruct (filtered_cases cfg (otm_of keep pct chain))
        as [[Hne Ef] | [He Ef]];
        rewrite Ef in Ho; apply filter_In in Ho; destruct Ho as [Ho Hc];
        apply in_otm_of in Ho; destruct Ho as [q [Hq [Hk ->]]];
        specialize (H q Hq Hk).
      - apply (proj1 (strict_iff _ _)) in Hc.
        cbn [DataLoader.row] in Hc. lia.
      - apply (proj1 (relaxed_iff _)) in Hc.
        cbn [DataLoader.row] in Hc. lia. }
    rewrite E. reflexivity.
Qed.

(** X23.  For a positive current price and a configuration whose
    [MIN_OPEN_INTEREST] is at least 50, the call [select_option] returns
    comes from a row of the chain whose strike is above the current price
    and whose open interest is above 50: the returned fields are that
    row's, [mid_price] the mean of
    its bid and ask, [pct_otm] its positive distance out of the money in
    percent.  Whenever some out-of-the-money row meets the strict criteria
    ([MIN_OTM_PCT <= pct_otm <= MAX_OTM_PCT] and
    [openInterest > MIN_OPEN_INTEREST]) the returned one meets them. *)
Theorem select_option_sound
        (cfg : DataLoader.Config) (chain : list DataLoader.quote)
        (current_price : R) (sel : DataLoader.selection) :
  0 < current_price ->
  (50 <= DataLoader.MIN_OPEN_INTEREST cfg)%Z ->
  DataLoader.select_option cfg chain current_price = Some sel ->
  exists q,
    In q chain /\
    current_price < DataLoader.strike q /\
    (DataLoader.openInterest q > 50)%Z /\
    DataLoader.contract sel = DataLoader.contractSymbol q /\
    DataLoader.sel_strike sel = DataLoader.strike q /\
    DataLoader.last_price sel = DataLoader.lastPrice q /\
    DataLoader.sel_bid sel = DataLoader.bid q /\
    DataLoader.sel_ask sel = DataLoader.ask q /\
    DataLoader.mid_price sel = (DataLoader.bid q + DataLoader.ask q) / 2 /\
    DataLoader.open_interest sel = DataLoader.openInterest q /\
    DataLoader.sel_volume sel = DataLoader.volume q /\
    DataLoader.implied_volatility sel = DataLoader.impliedVolatility q /\
    DataLoader.sel_pct_otm sel
    = (DataLoader.strike q - current_price) / current_price * 100 /\
    0 < DataLoader.sel_pct_otm sel /\
    ((exists q', In q' chain /\ current_price < DataLoader.strike q' /\
        DataLoader.MIN_OTM_PCT cfg
        <= (DataLoader.strike q' - current_price) / current_price * 100
        <= DataLoader.MAX_OTM_PCT cfg /\
        (DataLoader.openInterest q' > DataLoader.MIN_OPEN_INTEREST cfg)%Z) ->
     DataLoader.MIN_OTM_PCT cfg <= DataLoader.sel_pct_otm sel
       <= DataLoader.MAX_OTM_PCT cfg /\
     (DataLoader.open_interest sel > DataLoader.MIN_OPEN_INTEREST cfg)%Z).
Proof.
  intros Hp Hmin H.
  set (keep := fun q => if Rgt_dec (DataLoader.strike q) current_price
                        then true else false).
  set (pct := fun q => (DataLoader.strike q - current_price)
                       / current_price * 100).
  assert (Hkeep : forall q, keep q = true <->
                            current_price < DataLoader.strike q).
  { intro q. unfold keep.
    destruct (Rgt_dec (DataLoader.strike q) current_price);
      split; try discriminate; try reflexivity; lra. }
  change (DataLoader._filter_and_score cfg (otm_of keep pct chain) = Some sel)
    in H.
  destruct (selection_sound cfg keep pct chain sel Hmin H)
    as [q [Hq [Hk [Ho [Es Hs]]]]].
  apply Hkeep in Hk. exists q. subst sel.
  cbn [DataLoader.selection_of DataLoader.add_score DataLoader.base
       DataLoader.row DataLoader.pct_otm DataLoader.contract
       DataLoader.sel_strike DataLoader.last_price DataLoader.sel_bid
       DataLoader.sel_ask DataLoader.mid_price DataLoader.open_interest
       DataLoader.sel_volume DataLoader.implied_volatility
       DataLoader.sel_pct_otm].
  repeat (split; [first [assumption | reflexivity] | ]).
  split.
  - unfold pct. apply Rmult_lt_0_compat; [ | lra].
    apply Rdiv_lt_0_compat; lra.
  - intros [q' [Hq' [Hk' Hc']]]. apply Hs.
    exists q'. split; [exact Hq' | ]. split; [now apply Hkeep | exact Hc'].
Qed.

(** X24.  For a positive current price and a configuration whose
    [MIN_OPEN_INTEREST] is at least 50, the put [select_put_option]
    returns comes from a row of the put chain whose strike is below the
    current price and whose open interest is above 50, [pct_otm] being the
    positive distance of the strike below the price in percent (below 100
    for a positive strike); it meets the strict criteria whenever some
    such row does. *)
Theorem select_put_option_sound
        (cfg : DataLoader.Config) (chain : list DataLoader.quote)
        (current_price : R) (sel : DataLoader.selection) :
  0 < current_price ->
  (50 <= DataLoader.MIN_OPEN_INTEREST cfg)%Z ->
  DataLoader.select_put_option cfg chain current_price = Some sel ->
  exists q,
    In q chain /\
    DataLoader.strike q < current_price /\
    (DataLoader.openInterest q > 50)%Z /\
    DataLoader.contract sel = DataLoader.contractSymbol q /\
    DataLoader.sel_strike sel = DataLoader.strike q /\
    DataLoader.mid_price sel = (DataLoader.bid q + DataLoader.ask q) / 2 /\
    DataLoader.open_interest sel = DataLoader.openInterest q /\
    DataLoader.implied_volatility sel = DataLoader.impliedVolatility q /\
    DataLoader.sel_pct_otm sel
    = (current_price - DataLoader.strike q) / current_price * 100 /\
    0 < DataLoader.sel_pct_otm sel /\
    (0 < DataLoader.strike q -> DataLoader.sel_pct_otm sel < 100) /\
    ((exists q', In q' chain /\ DataLoader.strike q' < current_price /\
        DataLoader.MIN_OTM_PCT cfg
        <= (current_price - DataLoader.strike q') / current_price * 100
        <= DataLoader.MAX_OTM_PCT cfg /\
        (DataLoader.openInterest q' > DataLoader.MIN_OPEN_INTEREST cfg)%Z) ->
     DataLoader.MIN_OTM_PCT cfg <= DataLoader.sel_pct_otm sel
       <= DataLoader.MAX_OTM_PCT cfg /\
     (DataLoader.open_interest sel > DataLoader.MIN_OPEN_INTEREST cfg)%Z).
Proof.
  intros Hp Hmin H.
  set (keep := fun q => if Rlt_dec (DataLoader.strike q) current_price
                        then true else false).
  set (pct := fun q => (current_price - DataLoader.strike q)
                       / current_price * 100).
  assert (Hkeep : forall q, keep q = true <->
                            DataLoader.strike q < current_price).
  { intro q. unfold keep.
    destruct (Rlt_dec (DataLoader.strike q) current_price);
      split; try discriminate; try reflexivity; lra. }
  change (DataLoader._filter_and_score cfg (otm_of keep pct chain) = Some sel)
    in H.
  destruct (selection_sound cfg keep pct chain sel Hmin H)
    as [q [Hq [Hk [Ho [Es Hs]]]]].
  apply Hkeep in Hk. exists q. subst sel.
  cbn [DataLoader.selection_of DataLoader.add_score DataLoader.base
       DataLoader.row DataLoader.pct_otm DataLoader.contract
       DataLoader.sel_strike DataLoader.last_price DataLoader.sel_bid
       DataLoader.sel_ask DataLoader.mid_price DataLoader.open_interest
       DataLoader.sel_volume DataLoader.implied_volatility
       DataLoader.sel_pct_otm].
  repeat (split; [first [assumption | reflexivity] | ]).
  split; [ | split].
  - unfold pct. apply Rmult_lt_0_compat; [ | lra].
    apply Rdiv_lt_0_compat; lra.
  - intro Hk0. unfold pct.
    assert ((current_price - DataLoader.strike q) / current_price < 1).
    { apply (Rmult_lt_reg_r current_price); [exact Hp | ].
      unfold Rdiv. rewrite Rmult_assoc, Rinv_l by lra. lra. }
    lra.
  - intros [q' [Hq' [Hk' Hc']]]. apply Hs.
    exists q'. split; [exact Hq' | ]. split; [now apply Hkeep | exact Hc'].
Qed.

(** X25.  For a configuration whose [MIN_OPEN_INTEREST] is at least 50,
    [select_option] and [select_put_option] return [None] exactly when no
    out-of-the-money row of the chain has an open interest above 50. *)
Theorem selection_none_iff
        (cfg : DataLoader.Config) (chain : list DataLoader.quote)
        (current_price : R) :
  (50 <= DataLoader.MIN_OPEN_INTEREST cfg)%Z ->
  (DataLoader.select_option cfg chain current_price = None <->
   forall q, In q chain -> current_price < DataLoader.strike q ->
             (DataLoader.openInterest q <= 50)%Z) /\
  (DataLoader.select_put_option cfg chain current_price = None <->
   forall q, In q chain -> DataLoader.strike q < current_price ->
             (DataLoader.openInterest q <= 50)%Z).
Proof.
  intros Hmin. split.
  - set (keep := fun q => if Rgt_dec (DataLoader.strike q) current_price
                          then true else false).
    set (pct := fun q => (DataLoader.strike q - current_price)
                         / current_price * 100).
    change (DataLoader.select_option cfg chain current_price)
      with (DataLoader._filter_and_score cfg (otm_of keep pct chain)).
    rewrite (selection_none cfg keep pct chain Hmin).
    assert (Hkeep : forall q, keep q = true <->
                              current_price < DataLoader.strike q).
    { intro q. unfold keep.
      destruct (Rgt_dec (DataLoader.strike q) current_price);
        split; try discriminate; try reflexivity; lra. }
    split; intros H q Hq Hk; apply (H q Hq); now apply Hkeep.
  - set (keep := fun q => if Rlt_dec (DataLoader.strike q) current_price
                          then true else false).
    set (pct := fun q => (current_price - DataLoader.strike q)
                         / current_price * 100).
    change (DataLoader.select_put_option cfg chain current_price)
      with (DataLoader._filter_and_score cfg (otm_of keep pct chain)).
    rewrite (selection_none cfg keep pct chain Hmin).
    assert (Hkeep : forall q, keep q = true <->
                              DataLoader.strike q < current_price).
    { intro q. unfold keep.
      destruct (Rlt_dec (DataLoader.strike q) current_price);
        split; try discriminate; try reflexivity; lra. }
    split; intros H q Hq Hk; apply (H q Hq); now apply Hkeep.
Qed.

(** A chain with one call row above and one put row below a price of 100. *)
Definition quote_110 : DataLoader.quote :=
  {| DataLoader.contractSymbol := "NVDA-110";
     DataLoader.strike := 110; DataLoader.lastPrice := 1;
     DataLoader.bid := 0.95; DataLoader.ask := 1.05;
     DataLoader.volume := 300; DataLoader.openInterest := 500;
     DataLoader.impliedVolatility := 0.35 |}.

Definition quote_90 : DataLoader.quote :=
  {| DataLoader.contractSymbol := "NVDA-90";
     DataLoader.strike := 90; DataLoader.lastPrice := 1;
     DataLoader.bid := 0.9; DataLoader.ask := 1.1;
     DataLoader.volume := 200; DataLoader.openInterest := 400;
     DataLoader.impliedVolatility := 0.4 |}.

Definition sample_chain : list DataLoader.quote := [quote_110; quote_90].

Lemma select_option_sample :
  DataLoader.select_option DataLoader.config sample_chain 100
  = Some (DataLoader.selection_of
            (DataLoader.add_score DataLoader.config
               {| DataLoader.row := quote_110;
                  DataLoader.pct_otm := (110 - 100) / 100 * 100 |})).
Proof.
  unfold DataLoader.select_option, sample_chain.
  cbn [filter quote_110 quote_90 DataLoader.strike].
  destruct (Rgt_dec 110 100); [ | lra]. destruct (Rgt_dec 90 100); [lra | ].
  cbn [map]. unfold DataLoader._filter_and_score, DataLoader.filtered.
  cbn [filter]. unfold DataLoader.strict, DataLoader.config.
  cbn [DataLoader.pct_otm DataLoader.row DataLoader.MIN_OTM_PCT
       DataLoader.MAX_OTM_PCT DataLoader.MIN_OPEN_INTEREST
       DataLoader.openInterest].
  change (DataLoader.strike quote_110) with 110.
  destruct (Rge_dec ((110 - 100) / 100 * 100) 5.0); [ | lra].
  destruct (Rle_dec ((110 - 100) / 100 * 100) 20.0); [ | lra].
  change (100 <? DataLoader.openInterest quote_110)%Z with true.
  reflexivity.
Qed.

Lemma select_put_option_sample :
  DataLoader.select_put_option DataLoader.config sample_chain 100
  = Some (DataLoader.selection_of
            (DataLoader.add_score DataLoader.config
               {| DataLoader.row := quote_90;
                  DataLoader.pct_otm := (100 - 90) / 100 * 100 |})).
Proof.
  unfold DataLoader.select_put_option, sample_chain.
  cbn [filter quote_110 quote_90 DataLoader.strike].
  destruct (Rlt_dec 110 100); [lra | ]. destruct (Rlt_dec 90 100); [ | lra].
  cbn [map]. unfold DataLoader._filter_and_score, DataLoader.filtered.
  cbn [filter]. unfold DataLoader.strict, DataLoader.config.
  cbn [DataLoader.pct_otm DataLoader.row DataLoader.MIN_OTM_PCT
       DataLoader.MAX_OTM_PCT DataLoader.MIN_OPEN_INTEREST
       DataLoader.openInterest].
  change (DataLoader.strike quote_90) with 90.
  destruct (Rge_dec ((100 - 90) / 100 * 100) 5.0); [ | lra].
  destruct (Rle_dec ((100 - 90) / 100 * 100) 20.0); [ | lra].
  change (100 <? DataLoader.openInterest quote_90)%Z with true.
  reflexivity.
Qed.

Lemma select_option_sound_witness :
  exists q, In q sample_chain /\ 100 < DataLoader.strike q /\
            (DataLoader.openInterest q > 50)%Z.
Proof.
  assert (H1 : 0 < 100) by lra.
  assert (H2 : (50 <= DataLoader.MIN_OPEN_INTEREST DataLoader.config)%Z)
    by (cbn; lia).
  destruct (select_option_sound DataLoader.config sample_chain 100 _
              H1 H2 select_option_sample)
    as (q & Hq & Hs & Ho & _).
  exists q. split; [exact Hq | ]. split; [exact Hs | exact Ho].
Defined.

Lemma select_put_option_sound_witness :
  exists q, In q sample_chain /\ DataLoader.strike q < 100 /\
            (DataLoader.openInterest q > 50)%Z.
Proof.
  assert (H1 : 0 < 100) by lra.
  assert (H2 : (50 <= DataLoader.MIN_OPEN_INTEREST DataLoader.config)%Z)
    by (cbn; lia).
  destruct (select_put_option_sound DataLoader.config sample_chain 100 _
              H1 H2 select_put_option_sample)
    as (q & Hq & Hs & Ho & _).
  exists q. split; [exact Hq | ]. split; [exact Hs | exact Ho].
Defined.

Lemma selection_none_iff_witness :
  DataLoader.select_option DataLoader.config sample_chain 100 = None <->
  forall q, In q sample_chain -> 100 < DataLoader.strike q ->
            (DataLoader.openInterest q <= 50)%Z.
Proof.
  assert (H2 : (50 <= DataLoader.MIN_OPEN_INTEREST DataLoader.config)%Z)
    by (cbn; lia).
  exact (proj1 (selection_none_iff DataLoader.config sample_chain 100 H2)).
Defined.

(** ** data_loader.py: the selection rule of [_filter_and_score] *)

(** The score column of [_filter_and_score], as a function of the row. *)
Definition score_of (cfg : DataLoader.Config) (o : DataLoader.otm_row) : R :=
  let q := DataLoader.row o in
  - Rabs (DataLoader.pct_otm o - DataLoader.TARGET_OTM_PCT cfg) * 2
  + ln (1 + IZR (DataLoader.openInterest q)) * 1.5
  - (DataLoader.ask q - DataLoader.bid q) / DataLoader.lastPrice q * 100 * 0.5.

Lemma score_add_score cfg o :
  DataLoader.score (DataLoader.add_score cfg o) = score_of cfg o.
Proof. reflexivity. Qed.

(** The first greatest score of a frame, read on the rows themselves. *)
Lemma first_best_rows cfg best tier :
  first_best best (map (DataLoader.add_score cfg) tier) ->
  exists l1 o l2,
    tier = l1 ++ o :: l2 /\ best = DataLoader.add_score cfg o /\
    (forall o', In o' l1 -> score_of cfg o' < score_of cfg o) /\
    (forall o', In o' l2 -> score_of cfg o' <= score_of cfg o).
Proof.
  intros [m1 [m2 [E [H1 H2]]]].
  apply map_eq_app in E. destruct E as [l1 [l2' [Et [E1 E2]]]].
  apply map_eq_cons in E2. destruct E2 as [o [l2 [El [Eo E2]]]].
  subst l2' m1 m2 best. exists l1, o, l2.
  split; [exact Et | ]. split; [reflexivity | ]. split.
  - intros o' Ho'. rewrite <- !score_add_score. apply H1.
    now apply in_map.
  - intros o' Ho'. rewrite <- !score_add_score. apply H2.
    now apply in_map.
Qed.

(** X28.  [_filter_and_score] on a frame of candidate rows whose volume and
    open interest are integers and whose last prices are not zero (every
    score is then a number).  The strict tier keeps the rows with
    [MIN_OTM_PCT <= pct_otm <= MAX_OTM_PCT] and
    [openInterest > MIN_OPEN_INTEREST], the relaxed tier the rows with
    [openInterest > 50]; the result is [None] exactly when both are empty.
    Otherwise the tier used is the strict one unless it is empty, and the
    dictionary returned is built from the row [o] of that tier whose score
    [-|pct_otm - TARGET_OTM_PCT| * 2 + ln (1 + openInterest) * 1.5
     - (ask - bid) / lastPrice * 100 * 0.5]
    is strictly greater than that of every earlier row and at least that of
    every later row: each of its ten fields is the field of [o], with
    [mid_price = (bid + ask) / 2]. *)
Theorem filter_and_score_rule (cfg : DataLoader.Config)
        (otm : list DataLoader.otm_row) :
  (forall o, In o otm -> DataLoader.lastPrice (DataLoader.row o) <> 0) ->
  let strict_tier := filter (DataLoader.strict cfg) otm in
  let relaxed_tier := filter DataLoader.relaxed otm in
  let tier := if DataLoader.empty strict_tier then relaxed_tier
              else strict_tier in
  (forall o, In o strict_tier <->
     In o otm /\
     DataLoader.MIN_OTM_PCT cfg <= DataLoader.pct_otm o
       <= DataLoader.MAX_OTM_PCT cfg /\
     (DataLoader.openInterest (DataLoader.row o)
      > DataLoader.MIN_OPEN_INTEREST cfg)%Z) /\
  (forall o, In o relaxed_tier <->
     In o otm /\ (DataLoader.openInterest (DataLoader.row o) > 50)%Z) /\
  (DataLoader._filter_and_score cfg otm = None
   <-> strict_tier = [] /\ relaxed_tier = []) /\
  (tier <> [] ->
   exists l1 o l2 sel,
     tier = l1 ++ o :: l2 /\
     (forall o', In o' l1 -> score_of cfg o' < score_of cfg o) /\
     (forall o', In o' l2 -> score_of cfg o' <= score_of cfg o) /\
     DataLoader._filter_and_score cfg otm = Some sel /\
     DataLoader.contract sel = DataLoader.contractSymbol (DataLoader.row o) /\
     DataLoader.sel_strike sel = DataLoader.strike (DataLoader.row o) /\
     DataLoader.last_price sel = DataLoader.lastPrice (DataLoader.row o) /\
     DataLoader.sel_bid sel = DataLoader.bid (DataLoader.row o) /\
     DataLoader.sel_ask sel = DataLoader.ask (DataLoader.row o) /\
     DataLoader.mid_price sel
     = (DataLoader.bid (DataLoader.row o)
        + DataLoader.ask (DataLoader.row o)) / 2 /\
     DataLoader.open_interest sel
     = DataLoader.openInterest (DataLoader.row o) /\
     DataLoader.sel_volume sel = DataLoader.volume (DataLoader.row o) /\
     DataLoader.implied_volatility sel
     = DataLoader.impliedVolatility (DataLoader.row o) /\
     DataLoader.sel_pct_otm sel = DataLoader.pct_otm o).
Proof.
  intros _ strict_tier relaxed_tier tier.
  assert (Et : DataLoader.filtered cfg otm = tier) by reflexivity.
  split; [ | split; [ | split]].
  - intro o. unfold strict_tier. rewrite filter_In, strict_iff. tauto.
  - intro o. unfold relaxed_tier. rewrite filter_In, relaxed_iff. tauto.
  - unfold DataLoader._filter_and_score. rewrite Et. unfold tier.
    destruct strict_tier as [ | a l] eqn:Es; simpl DataLoader.empty; cbv iota.
    + destruct relaxed_tier as [ | b l']; simpl.
      * split; auto.
      * split; [discriminate | intros [_ H]; discriminate].
    + simpl. split; [discriminate | intros [H _]; discriminate].
  - intro Hne. unfold DataLoader._filter_and_score. rewrite Et.
    destruct tier as [ | a l] eqn:Etier; [contradiction | ].
    pose proof (argmax_from_first_best (DataLoader.add_score cfg a)
                  (map (DataLoader.add_score cfg) l)) as Hb.
    change (DataLoader.add_score cfg a :: map (DataLoader.add_score cfg) l)
      with (map (DataLoader.add_score cfg) (a :: l)) in Hb.
    apply first_best_rows in Hb.
    destruct Hb as [l1 [o [l2 [E [Eb [H1 H2]]]]]].
    exists l1, o, l2. simpl map. cbv iota. rewrite Eb.
    eexists. split; [exact E | ]. split; [exact H1 | ].
    split; [exact H2 | ]. split; [reflexivity | ].
    repeat split.
Qed.

(** A frame of three liquid rows: the first two differ only in their
    symbol and tie on the score, the third is further from the target. *)
Definition tie_row (symbol : string) (pct : R) : DataLoader.otm_row :=
  {| DataLoader.row :=
       {| DataLoader.contractSymbol := symbol;
          DataLoader.strike := 110; DataLoader.lastPrice := 1;
          DataLoader.bid := 0.95; DataLoader.ask := 1.05;
          DataLoader.volume := 300; DataLoader.openInterest := 500;
          DataLoader.impliedVolatility := 0.35 |};
     DataLoader.pct_otm := pct |}.

Definition tie_otm : list DataLoader.otm_row :=
  [ tie_row "NVDA-A" 10; tie_row "NVDA-B" 10; tie_row "NVDA-C" 12 ].

Lemma tie_otm_strict :
  filter (DataLoader.strict DataLoader.config) tie_otm = tie_otm.
Proof.
  unfold tie_otm, DataLoader.strict, DataLoader.config, tie_row. simpl.
  destruct (Rge_dec 10 5.0); [ | lra]. destruct (Rle_dec 10 20.0); [ | lra].
  destruct (Rge_dec 12 5.0); [ | lra]. destruct (Rle_dec 12 20.0); [ | lra].
  reflexivity.
Qed.

Lemma tie_row_score symbol pct :
  score_of DataLoader.config (tie_row symbol pct)
  = - Rabs (pct - 10) * 2 + ln (1 + 500) * 1.5 - 5.
Proof.
  unfold score_of, tie_row, DataLoader.config.
  cbv [DataLoader.row DataLoader.pct_otm DataLoader.TARGET_OTM_PCT
       DataLoader.openInterest DataLoader.ask DataLoader.bid
       DataLoader.lastPrice].
  replace (pct - 10.0) with (pct - 10) by lra. lra.
Qed.

Lemma filter_and_score_rule_witness :
  exists sel,
    DataLoader._filter_and_score DataLoader.config tie_otm = Some sel /\
    DataLoader.contract sel = "NVDA-A"%string /\
    DataLoader.sel_pct_otm sel = 10.
Proof.
  assert (Hp : forall o, In o tie_otm ->
                         DataLoader.lastPrice (DataLoader.row o) <> 0).
  { intros o [<- | [<- | [<- | []]]]; unfold tie_row; simpl; lra. }
  destruct (filter_and_score_rule DataLoader.config tie_otm Hp)
    as [_ [_ [_ H]]].
  rewrite tie_otm_strict in H. simpl DataLoader.empty in H. cbv iota in H.
  destruct H as [l1 [o [l2 [sel [E [H1 [_ [Es [Ec [_ [_ [_ [_ [_ [_ [_ [_ Ep]]]]]]]]]]]]]]]]].
  - discriminate.
  - exists sel. split; [exact Es | ].
    assert (A0 : Rabs (10 - 10) = 0).
    { replace (10 - 10) with 0 by lra. apply Rabs_R0. }
    assert (A2 : Rabs (12 - 10) = 2).
    { replace (12 - 10) with 2 by lra. apply Rabs_right. lra. }
    destruct l1 as [ | a l1]; simpl in E.
    + injection E as Eo _. subst o. rewrite Ec, Ep. split; reflexivity.
    + exfalso. injection E as Ea E. subst a.
      pose proof (H1 _ (or_introl eq_refl)) as Hlt.
      destruct l1 as [ | b l1]; simpl in E.
      * injection E as Eo _. subst o.
        rewrite !tie_row_score in Hlt. lra.
      * injection E as _ E.
        destruct l1 as [ | c l1]; simpl in E.
        -- injection E as Eo _. subst o.
           rewrite !tie_row_score, A0, A2 in Hlt. lra.
        -- injection E as _ E. destruct l1; discriminate.
Defined.

(** ** The two pricing functions agree *)

(** X26.  The scenario engine's own pricing function agrees with the
    pricer's on every input, in value and in exception; so on an engine
    built from a pricer with an implied volatility of at least 0.05 a
    scenario without any shock reprices the option at the pricer's own
    price. *)
Theorem scenario_pricing_agrees
        (S K T r sigma_hv sigma_iv market_price : R) (num_contracts : Z) :
  let pricer := BlackScholes.init S K T r sigma_hv sigma_iv in
  let eng := Scenarios.init pricer market_price num_contracts in
  (forall sigma,
     Scenarios._bs_call (BlackScholes.S pricer) (BlackScholes.K pricer)
       (BlackScholes.T pricer) (BlackScholes.r pricer) sigma
     = BlackScholes._bs_call_price pricer sigma) /\
  (0.05 <= sigma_iv ->
   Scenarios.new_price eng 0 0 0 = BlackScholes.get_price_iv pricer).
Proof.
  intros pricer eng.
  assert (agree : forall sigma,
             Scenarios._bs_call (BlackScholes.S pricer) (BlackScholes.K pricer)
               (BlackScholes.T pricer) (BlackScholes.r pricer) sigma
             = BlackScholes._bs_call_price pricer sigma).
  { intro sigma.
    unfold Scenarios._bs_call, BlackScholes._bs_call_price,
      BlackScholes._d2, BlackScholes._d1.
    destruct (Py.truediv (BlackScholes.S pricer) (BlackScholes.K pricer))
      as [q | e]; [ | reflexivity].
    cbn [bind]. destruct (Py.log q) as [l | e]; [ | reflexivity].
    cbn [bind].
    destruct (Py.sqrt (BlackScholes.T pricer)) as [s | e];
      [ | reflexivity].
    cbn [bind].
    destruct (Py.truediv _ (sigma * s)) as [d | e]; reflexivity. }
  split; [exact agree | ].
  intro Hiv. unfold BlackScholes.get_price_iv. rewrite <- agree.
  unfold Scenarios.new_price, Scenarios.new_S, Scenarios.new_sigma,
    Scenarios.new_T.
  cbn [eng Scenarios.init Scenarios.S Scenarios.K Scenarios.T Scenarios.r
       Scenarios.sigma].
  pose proof (init_T_pos S K T r sigma_hv sigma_iv) as HT. fold pricer in HT.
  replace (BlackScholes.S pricer * (1 + 0)) with (BlackScholes.S pricer)
    by ring.
  replace (BlackScholes.sigma_iv pricer + 0)
    with (BlackScholes.sigma_iv pricer) by ring.
  replace (BlackScholes.T pricer - 0 / 365) with (BlackScholes.T pricer)
    by (unfold Rdiv; ring).
  rewrite (max_left (BlackScholes.sigma_iv pricer)) by exact Hiv.
  rewrite (max_left (BlackScholes.T pricer)) by exact HT.
  reflexivity.
Qed.

